(** * RETURNN TensorFlow engine: step runner and training engine

    A shallow embedding of the parts of [TFEngine.py] that carry the
    run-time protocol of the engine: metric accumulation and
    normalisation ([Runner._collect_eval_info], [Runner._normalize_loss],
    [Runner._finalize]), the Horovod stop signalling
    ([Runner._horovod_signal_broadcast]), the batch loop of [Runner.run],
    the crash handling of [Engine.train_epoch], checkpoint deletion
    ([Engine.delete_model]) and the retention policy
    ([Engine.cleanup_old_models]).

    Python objects are modelled as records, dicts as [gmap]s, sets as
    [gset]s, exceptions as an error monad, and everything the engine asks
    of TensorFlow, Horovod, the data provider or the file system is an
    explicit argument of the function that asks for it. *)

From stdpp Require Import gmap strings list fin_maps pretty numbers sorting.
From Stdlib Require Import Ascii QArith.

Local Open Scope Z_scope.

(** * Exceptions *)

(** The exceptions that the modelled code raises or catches.  [OpError]
    is [tf.errors.OpError]; [Exception] carries its message. *)
Inductive exn : Type :=
  | AssertionError
  | KeyError
  | ValueError
  | OpError
  | KeyboardInterrupt
  | CancelTrainingException
  | ZeroDivisionError
  | Exception (msg : string)
  | SystemExit (code : Z).

Inductive result (A : Type) : Type :=
  | Ok (a : A)
  | Raise (e : exn).
Arguments Ok {A} a.
Arguments Raise {A} e.

#[global] Instance exn_eq_dec : EqDecision exn.
Proof. solve_decision. Defined.

#[global] Instance result_ret : MRet result := @Ok.
#[global] Instance result_bind : MBind result := λ A B f r,
  match r with
  | Ok a => f a
  | Raise e => Raise e
  end.
#[global] Instance result_fmap : FMap result := λ A B f r,
  match r with
  | Ok a => Ok (f a)
  | Raise e => Raise e
  end.

Definition is_ok {A} (r : result A) : bool :=
  match r with Ok _ => true | Raise _ => false end.

(** [assert c] *)
Definition assert (c : bool) : result unit :=
  if c then Ok tt else Raise AssertionError.

(** * Strings *)

(** [key.find(":")] *)
Fixpoint find_colon (s : string) : option nat :=
  match s with
  | EmptyString => None
  | String c r => if Ascii.eqb c ":"%char then Some 0%nat else S <$> find_colon r
  end.

(** [s[n:]] *)
Fixpoint str_drop (n : nat) (s : string) : string :=
  match n, s with
  | O, _ => s
  | S n', String _ r => str_drop n' r
  | S _, EmptyString => EmptyString
  end.

(** [s.startswith(p)] *)
Definition startswith (p s : string) : bool := String.prefix p s.

(** [s[len(p):]] guarded by [s.startswith(p)], as the dict comprehensions
    of the runner use it. *)
Definition strip_prefix (p s : string) : option string :=
  if startswith p s then Some (str_drop (String.length p) s) else None.

(** * Numbers *)

(** The fetched values are numpy scalars.  Their arithmetic is kept
    abstract: the runner only adds, divides, tests truthiness and
    finiteness. *)
Class Numeric (num : Type) : Type := {
  num_zero : num;
  num_one : num;
  num_add : num → num → num;
  num_div : num → num → num;
  num_truthy : num → bool;
  num_isinf : num → bool;
  num_isnan : num → bool;
}.

(** Exact rationals, used to run the model on concrete inputs. *)
#[global] Instance Q_numeric : Numeric Q := {|
  num_zero := 0%Q;
  num_one := 1%Q;
  num_add := Qplus;
  num_div := Qdiv;
  num_truthy q := negb (Z.eqb (Qnum q) 0);
  num_isinf _ := false;
  num_isnan _ := false;
|}.

(** * Dict comprehensions *)

(** [{k: f(k, v) for (k, v) in m.items()}] where [f] may raise. *)
Definition dict_comprehension {A B} (f : string → A → result B)
    (m : gmap string A) : result (gmap string B) :=
  foldr (λ kv acc, b ← f kv.1 kv.2; m' ← acc; Ok (<[kv.1:=b]> m'))
        (Ok ∅) (map_to_list m).

(** [{g(k): v for (k, v) in m.items() if g is defined on k}]: the keys are
    renamed by [g] and the entries on which [g] is undefined are dropped. *)
Definition dict_rekey {A} (g : string → option string)
    (m : gmap string A) : gmap string A :=
  list_to_map (omap (λ kv, (λ k', (k', kv.2)) <$> g kv.1) (map_to_list m)).

(** * NumbersDict *)

Module NumbersDict.
Section NumbersDict.
Context {num : Type} `{!Numeric num}.

(** Modelled from the spec: [Util.NumbersDict] is not part of the
    sources.  The runner's accumulators are mappings from a key to a
    running sum; [+=] adds key by key over the union of the keys, a key
    missing on one side counting as [0]. *)
Definition add_opt (x y : option num) : option num :=
  match x, y with
  | None, None => None
  | _, _ => Some (num_add (default num_zero x) (default num_zero y))
  end.

Definition iadd (self other : gmap string num) : gmap string num :=
  merge add_opt self other.

End NumbersDict.
End NumbersDict.

(** * Configuration and environment *)

(** The options of [engine.config] that the modelled code reads. *)
Record Config : Type := {
  use_horovod : bool;                    (* config.is_true("use_horovod") *)
  calculate_exp_loss : bool;             (* config.bool("calculate_exp_loss", False) *)
  stop_on_nonfinite_train_score : bool;  (* config.bool("stop_on_nonfinite_train_score", True) *)
  dry_run : bool;                        (* config.bool("dry_run", False) *)
  horovod_reduce_type : string;          (* config.value("horovod_reduce_type", "") *)
  horovod_param_sync_step : Z;           (* config.int("horovod_param_sync_step", 1) *)
}.

(** What the engine's TensorFlow session and Horovod answer.
    [allreduce n mine] is the pair of sums that the [n]-th allreduce round
    of this worker returns when the worker contributes [mine], and
    [allreduce_raises n] the exception that [tf_session.run] raises in
    that round instead of returning, if it does;
    [sync_params_raises n] is the exception that [tf_session.run] raises,
    if it does, when it is asked to average the parameters at the local
    step [n]; [get_global_train_step n] is the global train step of the
    network once [n] steps of the current run have been executed. *)
Record Session : Type := {
  hvd_size : Z;
  hvd_rank : Z;
  allreduce : nat → Z * Z → Z * Z;
  allreduce_raises : nat → option exn;
  sync_params_raises : nat → option exn;
  get_global_train_step : nat → Z;
}.

(** * The step runner *)

Module Runner.
Section Runner.
Context {num : Type} `{!Numeric num}.
Variable numpy_exp : num → num.
Variable config : Config.
Variable tf_session : Session.

(** The attributes of a [Runner] instance that the modelled methods read
    or write.  [hvd_rounds] is not an attribute: it records, oldest first,
    what this runner fed to the allreduce rounds it took part in, those
    in which the session raised included. *)
Record t : Type := mk {
  _should_train : bool;
  finalized : bool;
  cancel_flag : bool;
  run_exception : option exn;
  num_steps : option nat;
  device_crash_batch : option nat;
  _results_accumulated : gmap string num;
  _inv_norm_accumulated : gmap string num;
  results : gmap string num;
  score : gmap string num;
  error : gmap string num;
  _horovod_stopped_runner : bool;
  hvd_rounds : list (Z * Z);
}.

(** [Runner.__init__] *)
Definition init (train : bool) : t := {|
  _should_train := train;
  finalized := false;
  cancel_flag := false;
  run_exception := None;
  num_steps := None;
  device_crash_batch := None;
  _results_accumulated := ∅;
  _inv_norm_accumulated := ∅;
  results := ∅;
  score := ∅;
  error := ∅;
  _horovod_stopped_runner := false;
  hvd_rounds := [];
|}.

Definition set_accumulated (res inv : gmap string num) (self : t) : t :=
  mk (_should_train self) (finalized self) (cancel_flag self)
     (run_exception self) (num_steps self) (device_crash_batch self)
     res inv (results self) (score self) (error self)
     (_horovod_stopped_runner self) (hvd_rounds self).

Definition set_cancel_flag (b : bool) (self : t) : t :=
  mk (_should_train self) (finalized self) b
     (run_exception self) (num_steps self) (device_crash_batch self)
     (_results_accumulated self) (_inv_norm_accumulated self)
     (results self) (score self) (error self)
     (_horovod_stopped_runner self) (hvd_rounds self).

Definition set_run_exception (e : exn) (self : t) : t :=
  mk (_should_train self) (finalized self) (cancel_flag self)
     (Some e) (num_steps self) (device_crash_batch self)
     (_results_accumulated self) (_inv_norm_accumulated self)
     (results self) (score self) (error self)
     (_horovod_stopped_runner self) (hvd_rounds self).

Definition set_device_crash_batch (step : nat) (self : t) : t :=
  mk (_should_train self) (finalized self) (cancel_flag self)
     (run_exception self) (num_steps self) (Some step)
     (_results_accumulated self) (_inv_norm_accumulated self)
     (results self) (score self) (error self)
     (_horovod_stopped_runner self) (hvd_rounds self).

Definition set_horovod (stopped : bool) (rounds : list (Z * Z)) (self : t) : t :=
  mk (_should_train self) (finalized self) (cancel_flag self)
     (run_exception self) (num_steps self) (device_crash_batch self)
     (_results_accumulated self) (_inv_norm_accumulated self)
     (results self) (score self) (error self)
     stopped rounds.

(** ** Normalisation *)

(** [Runner._normalize_loss] *)
Definition _normalize_loss (value : num) (key : string)
    (inv_loss_norm_factors : gmap string num) : result num :=
  if negb (num_truthy value) then Ok value
  else if String.eqb key "loss" then Ok value
  else
    _ ← assert (negb (Nat.eqb (size inv_loss_norm_factors) 0));
    match find_colon key with
    | None => Raise AssertionError
    | Some i =>
        let loss_norm_key := str_drop (i + 1) key in
        match inv_loss_norm_factors !! loss_norm_key with
        | None => Raise AssertionError
        | Some f => Ok (num_div value f)
        end
    end.

(** The keys of the fetches that [_collect_eval_info] accumulates. *)
Definition is_eval_key (k : string) : bool :=
  startswith "cost:" k || startswith "error:" k || String.eqb k "loss".

(** [Runner._collect_eval_info]: the accumulators are updated first, then
    the step's own figures are normalised for the progress report, which
    can fail.  The size and statistics bookkeeping is left out. *)
Definition _collect_eval_info (fetches_results : gmap string num) (self : t)
    : result (gmap string num) * t :=
  let keys := filter (λ kv, is_eval_key kv.1 = true) fetches_results in
  let loss_norm_factors :=
    dict_rekey (strip_prefix "loss_norm_factor:") fetches_results in
  let inv_loss_norm_factors := num_div num_one <$> loss_norm_factors in
  let self :=
    set_accumulated
      (NumbersDict.iadd (_results_accumulated self) keys)
      (NumbersDict.iadd (_inv_norm_accumulated self) inv_loss_norm_factors)
      self in
  (dict_comprehension
     (λ key value, _normalize_loss value key inv_loss_norm_factors) keys,
   self).

(** The [key + ":exp"] entries that [calculate_exp_loss] adds. *)
Definition exp_entries (results : gmap string num) : gmap string num :=
  dict_rekey (λ key, if startswith "cost:" key then Some (key +:+ ":exp") else None)
             (numpy_exp <$> results).

(** [Runner._finalize] *)
Definition _finalize (num_steps : nat) (self : t) : result t :=
  results ← dict_comprehension
    (λ key value, _normalize_loss value key (_inv_norm_accumulated self))
    (_results_accumulated self);
  let score := filter (λ kv, startswith "cost:" kv.1 = true) results in
  let score :=
    if calculate_exp_loss config then exp_entries results ∪ score else score in
  let error := filter (λ kv, startswith "error:" kv.1 = true) results in
  Ok (mk (_should_train self) true (cancel_flag self)
         (run_exception self) (Some num_steps) (device_crash_batch self)
         (_results_accumulated self) (_inv_norm_accumulated self)
         results score error
         (_horovod_stopped_runner self) (hvd_rounds self)).

(** ** Horovod signalling *)

(** [Runner._horovod_signal_broadcast] when [tf_session.run] returns the
    sums of the allreduce round. *)
Definition _horovod_signal_broadcast (have_more_data error : bool) (self : t)
    : (bool * bool) * t :=
  if negb (use_horovod config) then ((false, false), self)
  else if _horovod_stopped_runner self then ((true, false), self)
  else
    let mine := (if have_more_data then 1 else 0, if error then 1 else 0) in
    let sums := allreduce tf_session (length (hvd_rounds self)) mine in
    let sum_have_data := sums.1 in
    let sum_have_error := sums.2 in
    let rounds := hvd_rounds self ++ [mine] in
    let stop := (sum_have_data <? hvd_size tf_session) || (0 <? sum_have_error) in
    let error_occured := 0 <? sum_have_error in
    ((stop, error_occured),
     set_horovod (if stop then true else _horovod_stopped_runner self) rounds self).

(** [Runner._horovod_signal_broadcast] as [run] calls it: when the call
    gets to its allreduce round, [tf_session.run] may raise, and then the
    flag is left as it is. *)
Definition signal_broadcast (have_more_data error : bool) (self : t)
    : result (bool * bool) * t :=
  if use_horovod config && negb (_horovod_stopped_runner self) then
    match allreduce_raises tf_session (length (hvd_rounds self)) with
    | Some e =>
        let mine := (if have_more_data then 1 else 0, if error then 1 else 0) in
        (Raise e,
         set_horovod (_horovod_stopped_runner self) (hvd_rounds self ++ [mine]) self)
    | None =>
        let r := _horovod_signal_broadcast have_more_data error self in
        (Ok r.1, r.2)
    end
  else
    let r := _horovod_signal_broadcast have_more_data error self in
    (Ok r.1, r.2).

(** [Runner._horovod_finish_data] *)
Definition _horovod_finish_data (self : t) : result (bool * bool) * t :=
  signal_broadcast false false self.

(** [Runner._horovod_signal_error] *)
Definition _horovod_signal_error (self : t) : result (bool * bool) * t :=
  signal_broadcast false true self.

(** [Runner._horovod_signal_have_more_data] *)
Definition _horovod_signal_have_more_data (self : t) : result (bool * bool) * t :=
  signal_broadcast true false self.

(** [Runner._horovod_sync_params].  The averaging of the parameters
    changes nothing that the runner keeps; the call matters here by the
    exception it can raise. *)
Definition _horovod_sync_params (local_step : nat) (is_final : bool) (self : t)
    : result unit :=
  if negb (use_horovod config) then Ok tt
  else if negb (String.eqb (horovod_reduce_type config) "param") then Ok tt
  else if negb (_should_train self) then Ok tt
  else
    let sync_step := horovod_param_sync_step config in
    _ ← assert (1 <=? sync_step);
    if negb is_final
       && negb (Z.of_nat local_step mod sync_step =? sync_step - 1) then Ok tt
    else
      match sync_params_raises tf_session local_step with
      | Some e => Raise e
      | None => Ok tt
      end.

(** The runner after a sequence of broadcast calls, each given by its
    arguments [(have_more_data, error)]. *)
Definition broadcasts (calls : list (bool * bool)) (self : t) : t :=
  foldl (λ self call, (_horovod_signal_broadcast call.1 call.2 self).2) self calls.

(** The flag is only ever set under Horovod. *)
Definition stopped_under_horovod (self : t) : Prop :=
  _horovod_stopped_runner self = true → use_horovod config = true.

(** ** The batch loop *)

(** One batch of the data provider together with what happens while the
    runner works on it: the outcome of [sess.run] on its feed dict, an
    exception raised after the metrics were collected and before the
    parameters are synchronised (by the callback for the extra fetches),
    and whether [cancel_flag] has been set from outside by the time the
    runner looks at it. *)
Inductive sess_result : Type :=
  | Fetched (fetches_results : gmap string num)
  | SessRaise (e : exn).

Record batch : Type := {
  sess_run : sess_result;
  after_step : option exn;
  cancel_requested : bool;
}.

(** The data provider of a run: [have_more_data] holds as long as batches
    are left, and [have_reached_end] is its answer once they are used up. *)
Record data_provider : Type := {
  batches : list batch;
  have_reached_end : bool;
}.

(** How the [while] loop is left. *)
Inductive loop_exit : Type :=
  | LoopEnd (hvd_stop : bool)
  | LoopRaise (e : exn).

(** The [while self.data_provider.have_more_data(...)] loop of
    [Runner.run]: the way it is left, the value of [step] and the runner
    at that point. *)
Fixpoint batch_loop (bs : list batch) (step : nat) (self : t)
    : loop_exit * nat * t :=
  match bs with
  | [] => (LoopEnd false, step, self)
  | b :: bs' =>
      match _horovod_signal_have_more_data self with
      | (Raise e, self) => (LoopRaise e, step, self)
      | (Ok (hvd_stop, hvd_error), self) =>
          if hvd_error then
            (LoopRaise (Exception "Some other Horovod peer failed."), step, self)
          else if hvd_stop then (LoopEnd true, step, self)
          else
            match sess_run b with
            | SessRaise e => (LoopRaise e, step, self)
            | Fetched fetches_results =>
                match _collect_eval_info fetches_results self with
                | (Raise e, self) => (LoopRaise e, step, self)
                | (Ok _, self) =>
                    match after_step b with
                    | Some e => (LoopRaise e, step, self)
                    | None =>
                        match _horovod_sync_params step false self with
                        | Raise e => (LoopRaise e, step, self)
                        | Ok _ =>
                            let step := S step in
                            let self :=
                              set_cancel_flag
                                (cancel_flag self || cancel_requested b) self in
                            if cancel_flag self then
                              (LoopRaise CancelTrainingException, step, self)
                            else batch_loop bs' step self
                        end
                    end
                end
            end
      end
  end.

(** The rest of the [try] block of [Runner.run], after the loop: how it
    ends and the runner at that point.  What [_finalize] has set stays
    set when one of the two calls that follow it raises. *)
Definition after_loop (dp : data_provider) (hvd_stop : bool) (step : nat)
    (self : t) : result unit * t :=
  if negb hvd_stop && negb (have_reached_end dp) then
    (Raise (Exception "Did not successfully reached the end of the dataset."),
     self)
  else
    match assert (negb (_should_train self)
                  || (Z.of_nat step + get_global_train_step tf_session 0
                      =? get_global_train_step tf_session step)) with
    | Raise e => (Raise e, self)
    | Ok _ =>
        match _finalize step self with
        | Raise e => (Raise e, self)
        | Ok self =>
            match _horovod_finish_data self with
            | (Raise e, self) => (Raise e, self)
            | (Ok _, self) => (_horovod_sync_params step true self, self)
            end
        end
    end.

(** The [except] clauses of [Runner.run]. *)
Definition handle_exception (exc : exn) (step : nat) (self : t) : t :=
  match exc with
  | KeyboardInterrupt => set_run_exception exc self
  | _ => set_run_exception exc (set_device_crash_batch step self)
  end.

(** [Runner.run]: the [try] block, the [except] clauses and, of the
    [finally] block, the Horovod error signal.
    [Util.try_and_ignore_exception], which is not part of the sources,
    is taken to ignore what that signal raises. *)
Definition run (dp : data_provider) (self : t) : t :=
  let '(exit, step, self) := batch_loop (batches dp) 0 self in
  let self :=
    match exit with
    | LoopRaise exc => handle_exception exc step self
    | LoopEnd hvd_stop =>
        match after_loop dp hvd_stop step self with
        | (Ok _, self) => self
        | (Raise exc, self) => handle_exception exc step self
        end
    end in
  (_horovod_signal_error self).2.

(** What the methods called in the loop leave alone. *)
Definition same_outcome (self self' : t) : Prop :=
  finalized self' = finalized self
  ∧ run_exception self' = run_exception self
  ∧ device_crash_batch self' = device_crash_batch self
  ∧ _should_train self' = _should_train self.

(** ** The quantities the metrics are stated in *)

(** The runner after [_collect_eval_info] has taken in the fetches of each
    step in turn. *)
Definition record_steps (steps : list (gmap string num)) (self : t) : t :=
  foldl (λ self fetches_results, (_collect_eval_info fetches_results self).2)
        self steps.

(** The sum of a sequence of values, added up from [0] in their order. *)
Definition py_sum (values : list num) : num := foldl num_add num_zero values.

(** The raw values fetched under [key], step by step. *)
Definition raw_values (key : string) (steps : list (gmap string num)) : list num :=
  omap (λ fetches_results : gmap string num, fetches_results !! key) steps.

(** The inverse normalisation factors [1.0 / loss_norm_factor:<name>],
    step by step. *)
Definition inv_norm_values (name : string) (steps : list (gmap string num))
    : list num :=
  omap (λ fetches_results : gmap string num,
          num_div num_one <$> fetches_results !! ("loss_norm_factor:" +:+ name))
       steps.

End Runner.
End Runner.

(** * Paths and the file system *)

(** [s.rfind(c)], [-1] when [c] does not occur. *)
Fixpoint rfind_from (c : ascii) (s : string) (i last : Z) : Z :=
  match s with
  | EmptyString => last
  | String a r => rfind_from c r (i + 1) (if Ascii.eqb a c then i else last)
  end.

Definition rfind (c : ascii) (s : string) : Z := rfind_from c s 0 (-1).

(** The loop of [genericpath._splitext] that skips the leading dots of the
    last path component: whether a character other than a dot stands at
    one of the [n] positions from [filenameIndex] on. *)
Fixpoint skip_leading_dots (p : string) (filenameIndex n : nat) : bool :=
  match n with
  | O => false
  | S n' =>
      match String.get filenameIndex p with
      | Some c =>
          if Ascii.eqb c "."%char then skip_leading_dots p (S filenameIndex) n'
          else true
      | None => true
      end
  end.

(** [os.path.splitext(p)[1]] on a POSIX system. *)
Definition splitext_ext (p : string) : string :=
  let sepIndex := rfind "/"%char p in
  let dotIndex := rfind "."%char p in
  if (sepIndex <? dotIndex)
     && skip_leading_dots p (Z.to_nat (sepIndex + 1))
                          (Z.to_nat (dotIndex - (sepIndex + 1)))
  then str_drop (Z.to_nat dotIndex) p
  else EmptyString.

(** Whether [c] occurs in [s]. *)
Fixpoint str_contains (c : ascii) (s : string) : bool :=
  match s with
  | EmptyString => false
  | String a r => Ascii.eqb a c || str_contains c r
  end.

(** The files of a directory tree: path to size in bytes. *)
Abbreviation file_system := (gmap string N).

(** Whether the last component of [filename] is empty. *)
Definition basename_empty (filename : string) : bool :=
  rfind "/"%char filename + 1 =? Z.of_nat (String.length filename).

(** Whether [fn] is matched by the pattern [filename + "*"], for a
    [filename] that has none of the wildcard characters of [glob]: [fn]
    extends [filename] within the directory of [filename], and a name
    that starts with a dot is not matched by the bare pattern ["*"]. *)
Definition glob_match (filename fn : string) : bool :=
  let rest := str_drop (String.length filename) fn in
  startswith filename fn
  && negb (str_contains "/"%char rest)
  && negb (basename_empty filename && startswith "." rest).

(** [glob(filename + "*")], for a [filename] that [glob] takes
    literally. *)
Definition glob_star (fs : file_system) (filename : string) : list string :=
  filter (λ fn, glob_match filename fn = true) (map_to_list fs).*1.

(** [glob.has_magic(filename)]: one of the wildcard characters of [glob]
    occurs in [filename]. *)
Definition has_magic (filename : string) : bool :=
  str_contains "*"%char filename || str_contains "?"%char filename
  || str_contains "["%char filename.

(** Whether two slashes follow each other in [s]. *)
Fixpoint has_double_slash (s : string) : bool :=
  match s with
  | String a (String b _ as r) =>
      (Ascii.eqb a "/"%char && Ascii.eqb b "/"%char) || has_double_slash r
  | _ => false
  end.

(** The filenames that [glob(filename + "*")] takes literally: they have
    no wildcard character, so that the pattern matches the names that
    extend [filename], and no doubled slash, so that [os.path.join] puts
    the directory and a matching name together in the spelling of
    [filename].  For these, [glob_star] is what [glob] returns; the
    statements about deleting models are about these filenames. *)
Definition literal_filename (filename : string) : bool :=
  negb (has_magic filename) && negb (has_double_slash filename).

(** * Sorting *)

(** [sorted(l)] for a total order given by [leb]. *)
Fixpoint sorted_insert {A} (leb : A → A → bool) (x : A) (l : list A) : list A :=
  match l with
  | [] => [x]
  | y :: l' => if leb x y then x :: l else y :: sorted_insert leb x l'
  end.

Definition sorted {A} (leb : A → A → bool) (l : list A) : list A :=
  foldr (sorted_insert leb) [] l.

#[global] Instance Q_eq_dec : EqDecision Q.
Proof. solve_decision. Defined.

(** The order of Python on pairs of a float and an int. *)
Definition score_epoch_leb (x y : Q * nat) : bool :=
  match Qcompare x.1 y.1 with
  | Lt => true
  | Eq => Nat.leb x.2 y.2
  | Gt => false
  end.

Definition Q_leb (x y : Q) : bool :=
  match Qcompare x y with Gt => false | _ => true end.

(** [min(l)] and [max(l)] of a non-empty list of floats, the first of
    equal elements as in Python. *)
Definition Q_min (x : Q) (l : list Q) : Q :=
  foldl (λ m y, match Qcompare y m with Lt => y | _ => m end) x l.

Definition Q_max (x : Q) (l : list Q) : Q :=
  foldl (λ m y, match Qcompare y m with Gt => y | _ => m end) x l.

(** * The engine *)

Module Engine.

(** The options of the [cleanup_old_models] dict of the config. *)
Record cleanup_opts : Type := {
  keep_last_n : option Z;
  keep_best_n : option Z;
  keep : option (gset nat);
}.

(** The attributes of an [Engine] instance that the modelled methods read
    or write.  [pretrain] is the number of pretrain epochs when there is a
    pretrain object.  [saved_models] is not an attribute: it lists, oldest
    first, the filenames under which the parameters of the network were
    saved. *)
Record t : Type := mk {
  config : Config;
  tf_session : Session;
  model_filename : string;
  epoch : nat;
  pretrain : option nat;
  save_model_epoch_interval : nat;
  save_epoch1_initial_model : bool;
  saved_models : list string;
}.

Definition add_saved_model (filename : string) (self : t) : t :=
  mk (config self) (tf_session self) (model_filename self) (epoch self)
     (pretrain self) (save_model_epoch_interval self)
     (save_epoch1_initial_model self) (saved_models self ++ [filename]).

Section Engine.
Context {num : Type} `{!Numeric num}.
Variable numpy_exp : num → num.
(** [TheanoEngine.epoch_model_filename], which is not part of the
    sources: the filename of the model of an epoch, from the model
    filename of the config, the epoch and whether it is a pretrain epoch. *)
Variable epoch_model_filename : string → nat → bool → string.

(** [Engine.is_pretrain_epoch] *)
Definition is_pretrain_epoch (epoch : option nat) (self : t) : bool :=
  let epoch :=
    match epoch with
    | Some (S e) => S e
    | _ => Engine.epoch self
    end in
  match pretrain self with
  | Some n => Nat.leb epoch n
  | None => false
  end.

(** [Engine.get_epoch_model_filename] *)
Definition get_epoch_model_filename (epoch : option nat) (self : t) : string :=
  let epoch' :=
    match epoch with
    | Some (S e) => S e
    | _ => Engine.epoch self
    end in
  epoch_model_filename (model_filename self) epoch'
                       (is_pretrain_epoch (Some epoch') self).

(** [Engine._do_save] *)
Definition _do_save (self : t) : bool :=
  if use_horovod (config self) then hvd_rank (tf_session self) =? 0 else true.

(** [Engine.save_model] *)
Definition save_model (filename : string) (self : t) : t :=
  if negb (_do_save self) then self
  else
    let filename :=
      if String.eqb filename EmptyString then get_epoch_model_filename None self
      else filename in
    add_saved_model filename self.

(** The filename under which [save_model] saves when it is given
    [filename]. *)
Definition saved_as (filename : string) (self : t) : string :=
  if String.eqb filename EmptyString then get_epoch_model_filename None self
  else filename.

(** [any(numpy.isinf(values)) or any(numpy.isnan(values))] *)
Definition nonfinite_score (score : gmap string num) : bool :=
  existsb num_isinf (map_to_list score).*2
  || existsb num_isnan (map_to_list score).*2.

(** [Engine.train_epoch], up to and including the saving of the model of
    the epoch.  Recording the epoch error, the evaluation and the cleanup
    of old models follow in the source. *)
Definition train_epoch (dp : Runner.data_provider) (self : t)
    : result unit * t :=
  let self :=
    if Nat.eqb (epoch self) 1 && save_epoch1_initial_model self then
      save_model (epoch_model_filename (model_filename self) 0
                                       (is_pretrain_epoch None self)) self
    else self in
  let trainer :=
    Runner.run numpy_exp (config self) (tf_session self) dp (Runner.init true) in
  if negb (Runner.finalized trainer) then
    let self :=
      match Runner.device_crash_batch trainer with
      | Some crash_batch =>
          save_model (get_epoch_model_filename None self
                      +:+ ".crash_" +:+ pretty crash_batch) self
      | None => self
      end in
    (Raise (SystemExit 1), self)
  else if nonfinite_score (Runner.score trainer)
          && stop_on_nonfinite_train_score (config self) then
    (Raise (SystemExit 1),
     save_model (get_epoch_model_filename None self +:+ ".broken") self)
  else if String.eqb (model_filename self) EmptyString then (Ok tt, self)
  else
    match save_model_epoch_interval self with
    | O => (Raise ZeroDivisionError, self)
    | S _ =>
        if Nat.eqb (epoch self mod save_model_epoch_interval self) 0 then
          (Ok tt, save_model (get_epoch_model_filename None self) self)
        else (Ok tt, self)
    end.

End Engine.

(** ** Deleting a model *)

(** The body of the loop of [Engine.delete_model] for the file [fn]. *)
Definition delete_model_step (st : N * file_system) (fn : string)
    : N * file_system :=
  let fn_ext := splitext_ext fn in
  if negb (bool_decide (fn_ext ∈ [".index"; ".meta"]))
     && negb (startswith ".data" fn_ext)
  then st
  else ((st.1 + default 0 (st.2 !! fn))%N, delete fn st.2).

(** [Engine.delete_model]: the result and the file system it leaves. *)
Definition delete_model (filename : string) (fs : file_system)
    : result N * file_system :=
  if negb (bool_decide (is_Some (fs !! (filename +:+ ".index")))) then
    (Raise AssertionError, fs)
  else
    let st := foldl delete_model_step (0%N, fs) (glob_star fs filename) in
    if (0 <? st.1)%N then (Ok st.1, st.2) else (Raise AssertionError, st.2).

(** Whether the extension of [fn] is one of those that the loop of
    [delete_model] removes. *)
Definition is_model_file (fn : string) : bool :=
  bool_decide (splitext_ext fn ∈ [".index"; ".meta"])
  || startswith ".data" (splitext_ext fn).

(** The files that [delete_model filename] removes from [fs] when it
    gets to its loop, and their accumulated size. *)
Definition deleted_files (fs : file_system) (filename : string) : list string :=
  filter (λ fn, is_model_file fn = true) (glob_star fs filename).

Definition files_size (fs : file_system) (fns : list string) : N :=
  foldr (λ fn total, (default 0 (fs !! fn) + total)%N) 0%N fns.

(** ** The retention policy *)

(** [for i in count(start): n = f(i); if n > last: break; pattern.add(n)],
    run for at most [fuel] rounds. *)
Fixpoint count_loop (fuel : nat) (f : nat → nat) (last i : nat)
    (pattern : gset nat) : gset nat :=
  match fuel with
  | O => pattern
  | S fuel' =>
      let n := f i in
      if Nat.ltb last n then pattern
      else count_loop fuel' f last (S i) ({[n]} ∪ pattern)
  end.

(** The breakpoint table of [cleanup_old_models]. *)
Definition keep_table (last : nat) : nat * nat :=
  if Nat.leb last 10 then (4, 5)%nat
  else if Nat.leb last 50 then (20, 5)%nat
  else if Nat.leb last 100 then (40, 10)%nat
  else (80, 20)%nat.

(** [default_keep_pattern] for the last stored epoch [last].  Both loops
    are left by their [break] within [S last] rounds. *)
Definition default_keep_pattern (last : nat) : gset nat :=
  let '(keep_every, keep_doubles_of) := keep_table last in
  let pattern := count_loop (S last) (λ i, keep_every * i)%nat last 1 ∅ in
  count_loop (S last) (λ i, keep_doubles_of * 2 ^ i)%nat last 0 pattern.

(** [l[-n:]] for [n >= 1]. *)
Definition last_n {A} (n : nat) (l : list A) : list A :=
  drop (length l - n) l.

(** The score keys that tell epochs apart, in the order of the list
    [score_keys]: a key with the same value in all epochs is removed;
    [min] of an empty list raises. *)
Fixpoint discriminating_keys (score_values : string → list Q)
    (score_keys : list string) : result (list string) :=
  match score_keys with
  | [] => Ok []
  | key :: keys =>
      match score_values key with
      | [] => Raise ValueError
      | s :: scores =>
          keys' ← discriminating_keys score_values keys;
          if Qeq_bool (Q_min s scores) (Q_max s scores) then Ok keys'
          else Ok (key :: keys')
      end
  end.

(** The epochs that the loop over the score keys adds to [keep_epochs]. *)
Definition best_epochs (errors : list (nat * gmap string Q))
    (score_values : string → list Q) (keep_best_n : nat) (key : string)
    : list nat :=
  match score_values key with
  | [] => []
  | s :: rest =>
      let worst := Q_max s rest in
      let scores :=
        sorted score_epoch_leb
               ((λ ee, (default worst (ee.2 !! key), ee.1)) <$> errors) in
      (take keep_best_n scores).*2
  end.

(** What [cleanup_old_models] reports before it returns. *)
Inductive cleanup_report : Type :=
  | NotSaving
  | NoModels
  | TooFewEpochs
  | KeepingAll
  | DryRun (keep_epochs remove_epochs : list nat)
  | Deleted (keep_epochs remove_epochs : list nat) (count_bytes : N).

(** The loop [for epoch in remove_epochs] over the filenames of the
    models. *)
Fixpoint delete_models (filenames : list string) (count_bytes : N)
    (fs : file_system) : result N * file_system :=
  match filenames with
  | [] => (Ok count_bytes, fs)
  | filename :: rest =>
      match delete_model filename fs with
      | (Ok n, fs') => delete_models rest (count_bytes + n)%N fs'
      | (Raise e, fs') => (Raise e, fs')
      end
  end.

(** The keep set of [cleanup_old_models], from the stored epochs in
    ascending order and the error dicts of the learning rate control. *)
Definition keep_epochs_of (opts : cleanup_opts) (epochs : list nat)
    (epoch_data : gmap nat (gmap string Q)) : result (gset nat) :=
  let keep_last_n := default 2 (keep_last_n opts) in
  let keep_best_n := default 4 (keep_best_n opts) in
  let last := List.last epochs 0%nat in
  let keep_epochs : gset nat := default (default_keep_pattern last) (keep opts) in
  let keep_epochs := keep_epochs ∪ list_to_set (last_n (Z.to_nat keep_last_n) epochs) in
  let score_keys : gset string :=
    map_fold (λ _ data keys, keys ∪ dom data) ∅ epoch_data in
  _ ← assert (negb (bool_decide (score_keys = ∅)));
  let score_keys := sorted String.leb (elements score_keys) in
  errors ← mapM (λ epoch,
                   match epoch_data !! epoch with
                   | Some error => Ok (epoch, error)
                   | None => Raise KeyError
                   end) epochs;
  let score_values key := omap (λ ee : nat * gmap string Q, ee.2 !! key) errors in
  score_keys ← discriminating_keys score_values score_keys;
  let keep_epochs :=
    foldl (λ keep key,
             keep ∪ list_to_set (best_epochs errors score_values
                                             (Z.to_nat keep_best_n) key))
          keep_epochs score_keys in
  Ok (keep_epochs ∩ list_to_set epochs).

(** [Engine.cleanup_old_models].  [existing_models] is what
    [TheanoEngine.get_existing_models] finds, [epoch_data] the error dicts
    of [lr_control.epochData], [confirmed] the answer of the user when
    asked. *)
Definition cleanup_old_models (self : t) (opts : cleanup_opts)
    (existing_models : gmap nat string)
    (epoch_data : gmap nat (gmap string Q))
    (ask_for_confirmation confirmed : bool) (fs : file_system)
    : result cleanup_report * file_system :=
  if negb (_do_save self) then (Ok NotSaving, fs)
  else
    let epochs := sorted Nat.leb (map_to_list existing_models).*1 in
    if bool_decide (epochs = []) then (Ok NoModels, fs)
    else
      let keep_last_n := default 2 (keep_last_n opts) in
      let keep_best_n := default 4 (keep_best_n opts) in
      if negb ((1 <=? keep_last_n) && (0 <=? keep_best_n)) then
        (Raise AssertionError, fs)
      else if Z.of_nat (length epochs) <=? Z.max keep_last_n keep_best_n then
        (Ok TooFewEpochs, fs)
      else
        match keep_epochs_of opts epochs epoch_data with
        | Raise e => (Raise e, fs)
        | Ok keep_epochs =>
            if Nat.eqb (size keep_epochs) (length epochs) then (Ok KeepingAll, fs)
            else
              let remove_epochs :=
                sorted Nat.leb
                       (elements (list_to_set epochs ∖ keep_epochs : gset nat)) in
              if bool_decide (remove_epochs = []) then (Raise AssertionError, fs)
              else
                let kept := sorted Nat.leb (elements keep_epochs) in
                if dry_run (config self) then
                  (Ok (DryRun kept remove_epochs), fs)
                else if ask_for_confirmation && negb confirmed then
                  (Raise (SystemExit 1), fs)
                else
                  let filenames :=
                    omap (λ epoch, existing_models !! epoch) remove_epochs in
                  match delete_models filenames 0%N fs with
                  | (Ok count_bytes, fs') =>
                      (Ok (Deleted kept remove_epochs count_bytes), fs')
                  | (Raise e, fs') => (Raise e, fs')
                  end
        end.

End Engine.

(** Whether the index file of the model [filename] is in [fs] with a
    positive size and is one of the files that the loop of
    [delete_model filename] removes. *)
Definition has_index_file (fs : file_system) (filename : string) : bool :=
  (0 <? default 0 (fs !! (filename +:+ ".index")))%N
  && glob_match filename (filename +:+ ".index")
  && Engine.is_model_file (filename +:+ ".index").

(** Filenames of which none is a prefix of another. *)
Fixpoint prefix_free (filenames : list string) : Prop :=
  match filenames with
  | [] => True
  | filename :: rest =>
      Forall (λ filename', startswith filename filename' = false
                           ∧ startswith filename' filename = false) rest
      ∧ prefix_free rest
  end.

(** * The fetch set of a run *)

(** [s.replace(c, by)] for a pattern [c] of one character. *)
Fixpoint str_replace (c : ascii) (by_ : string) (s : string) : string :=
  match s with
  | EmptyString => EmptyString
  | String a r =>
      (if Ascii.eqb a c then by_ else String a EmptyString) +:+ str_replace c by_ r
  end.

Module FetchSet.
Section FetchSet.
(** The tensors and operations of the graph, by identity. *)
Variable obj : Type.
(** The state outside the engine: the default graph with its collections,
    the network, its losses and the updater. *)
Variable W : Type.

(** A call into a collaborator: it returns, and may add to the graph. *)
Definition op (R : Type) : Type := W → R * W.

Definition op_ret {R} (r : R) : op R := λ w, (r, w).

Definition op_bind {R R'} (c : op R) (k : R → op R') : op R' := λ w,
  let '(r, w') := c w in k r w'.

(** A loss of the network. *)
Record loss : Type := {
  get_only_on_eval : bool;
  get_loss_value_for_fetch : op (option obj);
  get_error_value : op (option obj);
  get_norm_factor : op (option obj);
}.

(** A layer of the network; [loss_target_sizes] is
    [layer.loss.target.size_placeholder], [None] for a layer without loss. *)
Record layer : Type := {
  name : string;
  only_on_eval : bool;
  target : option string;
  loss_target_sizes : option (list (nat * obj));
  stats : list (string * obj);
}.

(** A value of [extra_fetches]: [None], a tensor, a layer or [Data] with
    its placeholder and size placeholders, or anything else. *)
Inductive extra_fetch : Type :=
  | ExtraNone
  | ExtraTensor (v : obj)
  | ExtraData (placeholder : obj) (size_placeholder : list (nat * obj))
  | ExtraOther.

(** What [_get_fetches_dict] reads and calls outside [TFEngine.py].
    [get_objective] is [None] for the constant [0]; [get_optim_op] takes
    what [callback_on_new] does outside the engine and also tells whether
    it called it; [get_post_control_dependencies] is [None] for an empty
    list. *)
Record collaborators : Type := {
  data_sizes : list (string * list (nat * obj));
  get_objective : op (option obj);
  losses_dict : op (list (string * loss));
  layers : op (list layer);
  updater : bool;
  init_optimizer_vars : op unit;
  get_optim_op : op unit → op (obj * bool);
  optim_meta_losses : op (list (string * obj));
  get_post_control_dependencies : op (option obj);
  global_tensor : op obj → string → op obj;
  hvd_allreduce : option obj → bool → op obj;
  tf_reciprocal : option obj → op obj;
  tf_constant : string → op obj;
  merge_all : op (option obj);
  list_devices : list (string * string);
  device_basename : string → string;
  mem_usage_for_dev : string → op obj;
}.

(** The attributes of the runner that [_get_fetches_dict] reads. *)
Record runner : Type := {
  _should_train : bool;
  _should_eval : bool;
  extra_fetches : option (list (string * extra_fetch));
}.

(** The attributes of the engine that [_get_fetches_dict] may write, with
    the state outside. *)
Record state : Type := mk {
  world : W;
  _const_cache : gmap string obj;
  _merge_all_summaries : option obj;
  _checked_uninitialized_vars : bool;
}.

(** A computation of the engine that may raise. *)
Definition M (R : Type) : Type := state → result R * state.

Definition ret {R} (r : R) : M R := λ s, (Ok r, s).

Definition bind {R R'} (c : M R) (k : R → M R') : M R' := λ s,
  match c s with
  | (Ok r, s') => k r s'
  | (Raise e, s') => (Raise e, s')
  end.

Definition raise {R} (e : exn) : M R := λ s, (Raise e, s).

Definition call {R} (c : op R) : M R := λ s,
  let '(r, w) := c (world s) in
  (Ok r, mk w (_const_cache s) (_merge_all_summaries s)
             (_checked_uninitialized_vars s)).

Fixpoint for_each {A D} (l : list A) (body : A → D → M D) (d : D) : M D :=
  match l with
  | [] => ret d
  | x :: l' => bind (body x d) (for_each l' body)
  end.

Variable config : Config.
(** [config.bool("tf_log_memory_usage", False)] *)
Variable tf_log_memory_usage : bool.
Variable net : collaborators.
Variable self : runner.

(** [Engine.get_const_tensor] *)
Definition get_const_tensor (key : string) : M obj := λ s,
  match _const_cache s !! key with
  | Some t => (Ok t, s)
  | None =>
      let '(t, w) := tf_constant net ("const_" +:+ key) (world s) in
      (Ok t, mk w (<[key:=t]> (_const_cache s)) (_merge_all_summaries s)
                 (_checked_uninitialized_vars s))
  end.

(** [Engine.get_all_merged_summaries] *)
Definition get_all_merged_summaries : M (option obj) := λ s,
  match _merge_all_summaries s with
  | Some t => (Ok (Some t), s)
  | None =>
      let '(r, w) := merge_all net (world s) in
      (Ok r, mk w (_const_cache s) r (_checked_uninitialized_vars s))
  end.

(** [name.replace(":", "__").replace("/", "_")] *)
Definition tensor_name (name : string) : string :=
  str_replace "/" "_" (str_replace ":" "__" name).

(** The local functions [reduce_sum] and [inv_reduce_sum]. *)
Definition reduce_sum (x : option obj) (name : string) (average : bool)
    : op (option obj) :=
  if negb (use_horovod config) then op_ret x
  else
    op_bind (global_tensor net (hvd_allreduce net x average)
                           ("fetch_reduce_sum__" +:+ tensor_name name))
            (λ t, op_ret (Some t)).

Definition inv_reduce_sum (x : option obj) (name : string) : op (option obj) :=
  if negb (use_horovod config) then op_ret x
  else
    op_bind (global_tensor net
               (op_bind (tf_reciprocal net x) (λ a,
                op_bind (reduce_sum (Some a) name false) (λ b,
                tf_reciprocal net b)))
               ("fetch_inv_reduce_sum__" +:+ tensor_name name))
            (λ t, op_ret (Some t)).

Local Abbreviation dict := (gmap string (option obj)).

(** [for dim, v in sizes.items(): d["size:%s:%i" % (key, dim)] = v] *)
Definition add_sizes (key : string) (sizes : list (nat * obj)) (d : dict) : dict :=
  foldl (λ d dv, <["size:" +:+ key +:+ ":" +:+ pretty dv.1 := Some dv.2]> d) d sizes.

(** The body of the loop over [losses_dict]. *)
Definition add_loss (entry : string * loss) (d : dict) : M dict :=
  let '(loss_name, loss) := entry in
  if get_only_on_eval loss && _should_train self then ret d
  else
    bind (call (get_loss_value_for_fetch loss)) (λ value,
    bind (match value with
          | Some _ =>
              bind (call (get_loss_value_for_fetch loss)) (λ value,
              bind (call (reduce_sum value ("cost:" +:+ loss_name) false)) (λ v,
              ret (<["cost:" +:+ loss_name := v]> d)))
          | None => ret d
          end) (λ d,
    bind (call (get_error_value loss)) (λ value,
    bind (match value with
          | Some _ =>
              bind (call (get_error_value loss)) (λ value,
              bind (call (reduce_sum value ("error:" +:+ loss_name) false)) (λ v,
              ret (<["error:" +:+ loss_name := v]> d)))
          | None => ret d
          end) (λ d,
    bind (call (get_norm_factor loss)) (λ factor,
    bind (call (inv_reduce_sum factor ("loss_norm_factor:" +:+ loss_name))) (λ v,
    ret (<["loss_norm_factor:" +:+ loss_name := v]> d))))))).

(** The body of the first loop over the layers. *)
Definition add_layer_target_sizes (l : layer) (d : dict) : M dict :=
  if only_on_eval l && _should_train self then ret d
  else
    match target l with
    | Some t =>
        if startswith "layer:" t then
          match loss_target_sizes l with
          | Some sizes => ret (add_sizes t sizes d)
          | None => raise (Exception "AttributeError")
          end
        else ret d
    | None => ret d
    end.

(** The body of the second loop over the layers. *)
Definition add_layer_stats (l : layer) (d : dict) : dict :=
  foldl (λ d kv, <["stats:" +:+ name l +:+ ":" +:+ kv.1 := Some kv.2]> d) d (stats l).

(** [updater.get_optim_op(callback_on_new=callback_on_new)] *)
Definition get_optim_op_with_callback : M obj := λ s,
  let '((optim_op, new), w) :=
    get_optim_op net (init_optimizer_vars net) (world s) in
  (Ok optim_op,
   mk w (_const_cache s) (_merge_all_summaries s)
      (if new then false else _checked_uninitialized_vars s)).

(** The body of the loop over [extra_fetches]. *)
Definition add_extra_fetch (entry : string * extra_fetch) (d : dict) : M dict :=
  let '(k, v) := entry in
  match v with
  | ExtraNone => ret d
  | ExtraTensor v => ret (<["extra:" +:+ k := Some v]> d)
  | ExtraData placeholder size_placeholder =>
      ret (foldl (λ d sz, <["extra:" +:+ k +:+ ":size_" +:+ pretty sz.1 := Some sz.2]> d)
                 (<["extra:" +:+ k := Some placeholder]> d) size_placeholder)
  | ExtraOther => raise AssertionError
  end.

(** The body of the loop over the devices of the session. *)
Definition add_mem_usage (dev : string * string) (d : dict) : M dict :=
  let '(device_type, dev_name) := dev in
  if negb (String.eqb device_type "GPU") then ret d
  else
    bind (call (mem_usage_for_dev net dev_name)) (λ v,
    ret (<["mem_usage:" +:+ device_basename net dev_name := Some v]> d)).

(** The dict that [Runner._get_fetches_dict] fills. *)
Definition fetches : M dict :=
  let d : dict := foldl (λ d ks, add_sizes ks.1 ks.2 d) ∅ (data_sizes net) in
  bind (if _should_train self || _should_eval self then
          bind (call (get_objective net)) (λ loss,
          bind (match loss with
                | None => bind (get_const_tensor "zero_loss") (λ t, ret (Some t))
                | Some loss =>
                    bind (call (losses_dict net)) (λ losses,
                    if bool_decide (losses = []) then raise AssertionError
                    else ret (Some loss))
                end) (λ loss,
          bind (call (reduce_sum loss "loss" true)) (λ v,
          let d := <["loss" := v]> d in
          bind (call (losses_dict net)) (λ losses,
          bind (for_each losses add_loss d) (λ d,
          bind (call (layers net)) (λ ls,
          for_each ls add_layer_target_sizes d))))))
        else ret d) (λ d,
  bind (call (layers net)) (λ ls,
  let d := foldl (λ d l, add_layer_stats l d) d ls in
  bind (if _should_train self then
          if negb (updater net) then raise AssertionError
          else
            bind get_optim_op_with_callback (λ optim_op,
            let d := <["optim_op" := Some optim_op]> d in
            bind (call (optim_meta_losses net)) (λ meta,
            ret (list_to_map (prod_map id Some <$> meta) ∪ d)))
        else ret d) (λ d,
  bind (match extra_fetches self with
        | Some extra => for_each extra add_extra_fetch d
        | None => ret d
        end) (λ d,
  bind get_all_merged_summaries (λ summaries,
  bind (match summaries with
        | Some _ =>
            bind get_all_merged_summaries (λ summaries,
            ret (<["summary" := summaries]> d))
        | None => ret d
        end) (λ d,
  bind (if tf_log_memory_usage then for_each (list_devices net) add_mem_usage d
        else ret d) (λ d,
  bind (call (get_post_control_dependencies net)) (λ deps,
  match deps with
  | Some _ =>
      bind (call (get_post_control_dependencies net)) (λ deps,
      ret (<["post_control_dependencies" := deps]> d))
  | None => ret d
  end)))))))).

(** The dicts allocated so far; a dict is referred to by its index. *)
Record heap : Type := {
  dicts : list dict;
}.

(** [Runner._get_fetches_dict]: [d = {}] allocates a new dict, which is
    filled and returned.  The dict of a call that raises is not reachable
    and is not kept. *)
Definition _get_fetches_dict (sh : state * heap) : result nat * (state * heap) :=
  let '(s, h) := sh in
  match fetches s with
  | (Ok d, s') => (Ok (length (dicts h)), (s', {| dicts := dicts h ++ [d] |}))
  | (Raise e, s') => (Raise e, (s', h))
  end.

(** ** Cached collaborators

    [reach w w'] says that the state [w'] outside the engine may follow
    [w]. *)
Variable reach : relation W.

(** The call only moves the state forward. *)
Definition extends {R} (c : op R) : Prop :=
  ∀ w r w1, c w = (r, w1) → reach w w1.

(** From [w0] on, the call is cached: whatever it returns once, it returns
    from then on without a change of the state. *)
Definition cached_at {R} (w0 : W) (c : op R) : Prop :=
  ∀ w r w1, reach w0 w → c w = (r, w1) →
    reach w w1 ∧ ∀ w2, reach w1 w2 → c w2 = (r, w2).

Definition cached {R} (c : op R) : Prop := ∀ w0, cached_at w0 c.

(** [c] is cached once [c0] has been called. *)
Definition cached_after {R0 R} (c0 : op R0) (c : op R) : Prop :=
  ∀ w r0 w0, c0 w = (r0, w0) → cached_at w0 c.

(** The optimizer is created, and the callback called, at most once. *)
Definition created_once (c : op (obj * bool)) : Prop :=
  ∀ w t new w1, c w = ((t, new), w1) →
    reach w w1 ∧ ∀ w2, reach w1 w2 → c w2 = ((t, false), w2).

Record cached_loss (w0 : W) (l : loss) : Prop := {
  get_loss_value_for_fetch_cached : cached_at w0 (get_loss_value_for_fetch l);
  get_error_value_cached : cached_at w0 (get_error_value l);
  get_norm_factor_cached : cached_at w0 (get_norm_factor l);
}.

(** There is no summary in the graph, now and later. *)
Definition no_summaries (w : W) : Prop :=
  ∀ w', reach w w' → merge_all net w' = (None, w').

(** Everything that [_get_fetches_dict] accesses is cached; the dict of
    the losses is filled by [get_objective] and [optim_meta_losses] by
    [get_optim_op]; [tf.constant], [hvd.allreduce], [tf.reciprocal] and
    [tf.summary.merge_all] make a new node at every call; the summaries
    never change. *)
Record cached_collaborators : Prop := {
  reach_preorder : PreOrder reach;
  get_objective_cached : cached (get_objective net);
  losses_dict_cached : cached_after (get_objective net) (losses_dict net);
  losses_cached : ∀ w r w0 w' ls w1,
    get_objective net w = (r, w0) → reach w0 w' →
    losses_dict net w' = (ls, w1) → Forall (λ e, cached_loss w0 e.2) ls;
  layers_cached : cached (layers net);
  get_optim_op_cached : created_once (get_optim_op net (init_optimizer_vars net));
  optim_meta_losses_cached :
    cached_after (get_optim_op net (init_optimizer_vars net)) (optim_meta_losses net);
  get_post_control_dependencies_cached : cached (get_post_control_dependencies net);
  global_tensor_cached : ∀ f name, extends f → cached (global_tensor net f name);
  hvd_allreduce_extends : ∀ x average, extends (hvd_allreduce net x average);
  tf_reciprocal_extends : ∀ x, extends (tf_reciprocal net x);
  tf_constant_extends : ∀ name, extends (tf_constant net name);
  merge_all_extends : extends (merge_all net);
  summaries_never_change : ∀ w w1, merge_all net w = (None, w1) → no_summaries w1;
  mem_usage_for_dev_cached : ∀ dev, cached (mem_usage_for_dev net dev);
}.

(** The state [s'] of the engine may follow [s]: the caches only grow. *)
Definition state_le (s s' : state) : Prop :=
  reach (world s) (world s') ∧
  _const_cache s ⊆ _const_cache s' ∧
  (_merge_all_summaries s = _merge_all_summaries s' ∨
   (_merge_all_summaries s = None ∧ ¬ no_summaries (world s))).

(** [cached_at] for a computation of the engine. *)
Definition cached_M {R} (w0 : W) (c : M R) : Prop :=
  ∀ s r s1, reach w0 (world s) → c s = (r, s1) →
    state_le s s1 ∧ ∀ s2, state_le s1 s2 → c s2 = (r, s2).

End FetchSet.

Arguments op_ret {W R}.
Arguments op_bind {W R R'}.
Arguments get_only_on_eval {obj W}.
Arguments get_loss_value_for_fetch {obj W}.
Arguments get_error_value {obj W}.
Arguments get_norm_factor {obj W}.
Arguments name {obj}.
Arguments only_on_eval {obj}.
Arguments target {obj}.
Arguments loss_target_sizes {obj}.
Arguments stats {obj}.
Arguments ExtraNone {obj}.
Arguments ExtraTensor {obj}.
Arguments ExtraData {obj}.
Arguments ExtraOther {obj}.
Arguments data_sizes {obj W}.
Arguments get_objective {obj W}.
Arguments losses_dict {obj W}.
Arguments layers {obj W}.
Arguments updater {obj W}.
Arguments init_optimizer_vars {obj W}.
Arguments get_optim_op {obj W}.
Arguments optim_meta_losses {obj W}.
Arguments get_post_control_dependencies {obj W}.
Arguments global_tensor {obj W}.
Arguments hvd_allreduce {obj W}.
Arguments tf_reciprocal {obj W}.
Arguments tf_constant {obj W}.
Arguments merge_all {obj W}.
Arguments list_devices {obj W}.
Arguments device_basename {obj W}.
Arguments mem_usage_for_dev {obj W}.
Arguments _should_train {obj}.
Arguments _should_eval {obj}.
Arguments extra_fetches {obj}.
Arguments mk {obj W}.
Arguments world {obj W}.
Arguments _const_cache {obj W}.
Arguments _merge_all_summaries {obj W}.
Arguments _checked_uninitialized_vars {obj W}.
Arguments ret {obj W R}.
Arguments bind {obj W R R'}.
Arguments raise {obj W R}.
Arguments call {obj W R}.
Arguments for_each {obj W A D}.
Arguments get_const_tensor {obj W}.
Arguments get_all_merged_summaries {obj W}.
Arguments reduce_sum {obj W}.
Arguments inv_reduce_sum {obj W}.
Arguments add_sizes {obj}.
Arguments add_loss {obj W}.
Arguments add_layer_target_sizes {obj W}.
Arguments add_layer_stats {obj}.
Arguments get_optim_op_with_callback {obj W}.
Arguments add_extra_fetch {obj W}.
Arguments add_mem_usage {obj W}.
Arguments fetches {obj W}.
Arguments dicts {obj}.
Arguments _get_fetches_dict {obj W}.
Arguments extends {W} reach {R}.
Arguments cached_at {W} reach {R}.
Arguments cached {W} reach {R}.
Arguments cached_after {W} reach {R0 R}.
Arguments created_once {obj W}.
Arguments cached_loss {obj W}.
Arguments no_summaries {obj W}.
Arguments cached_collaborators {obj W}.
Arguments state_le {obj W}.
Arguments cached_M {obj W} net reach {R}.
Arguments reach_preorder {obj W net reach}.
Arguments get_objective_cached {obj W net reach}.
Arguments losses_dict_cached {obj W net reach}.
Arguments losses_cached {obj W net reach}.
Arguments layers_cached {obj W net reach}.
Arguments get_optim_op_cached {obj W net reach}.
Arguments optim_meta_losses_cached {obj W net reach}.
Arguments get_post_control_dependencies_cached {obj W net reach}.
Arguments global_tensor_cached {obj W net reach}.
Arguments hvd_allreduce_extends {obj W net reach}.
Arguments tf_reciprocal_extends {obj W net reach}.
Arguments tf_constant_extends {obj W net reach}.
Arguments merge_all_extends {obj W net reach}.
Arguments summaries_never_change {obj W net reach}.
Arguments mem_usage_for_dev_cached {obj W net reach}.
Arguments get_loss_value_for_fetch_cached {obj W reach w0 l}.
Arguments get_error_value_cached {obj W reach w0 l}.
Arguments get_norm_factor_cached {obj W reach w0 l}.

End FetchSet.

(** * Concrete inputs

    The inputs on which the model is run in the examples below. *)

Module Examples.

Definition plain_config : Config := {|
  use_horovod := false;
  calculate_exp_loss := false;
  stop_on_nonfinite_train_score := true;
  dry_run := false;
  horovod_reduce_type := "";
  horovod_param_sync_step := 1;
|}.
Definition exp_config : Config := {|
  use_horovod := false;
  calculate_exp_loss := true;
  stop_on_nonfinite_train_score := true;
  dry_run := false;
  horovod_reduce_type := "";
  horovod_param_sync_step := 1;
|}.
Definition output_fetches : gmap string Q :=
  list_to_map [("cost:output", 6 # 1); ("error:output", 3 # 1); ("loss", 6 # 1);
               ("loss_norm_factor:output", 1 # 2)]%Q.

Definition horovod_config : Config := {|
  use_horovod := true;
  calculate_exp_loss := false;
  stop_on_nonfinite_train_score := true;
  dry_run := false;
  horovod_reduce_type := "";
  horovod_param_sync_step := 1;
|}.

(** A single worker without Horovod. *)
Definition local_session : Session := {|
  hvd_size := 1;
  hvd_rank := 0;
  allreduce := λ _ mine, mine;
  allreduce_raises := λ _, None;
  sync_params_raises := λ _, None;
  get_global_train_step := Z.of_nat;
|}.

(** Rank 0 of two workers; the other worker has run out of data and
    reports no error. *)
Definition peer_out_of_data : Session := {|
  hvd_size := 2;
  hvd_rank := 0;
  allreduce := λ _ mine, (mine.1 + 0, mine.2 + 0);
  allreduce_raises := λ _, None;
  sync_params_raises := λ _, None;
  get_global_train_step := Z.of_nat;
|}.

(** Rank 1 of two workers; the other worker always has data and reports
    no error. *)
Definition second_worker : Session := {|
  hvd_size := 2;
  hvd_rank := 1;
  allreduce := λ _ mine, (mine.1 + 1, mine.2 + 0);
  allreduce_raises := λ _, None;
  sync_params_raises := λ _, None;
  get_global_train_step := Z.of_nat;
|}.

Definition good_batch : @Runner.batch Q := {|
  Runner.sess_run := Runner.Fetched output_fetches;
  Runner.after_step := None;
  Runner.cancel_requested := false;
|}.

Definition crashing_batch : @Runner.batch Q := {|
  Runner.sess_run := Runner.SessRaise OpError;
  Runner.after_step := None;
  Runner.cancel_requested := false;
|}.

Definition cancelled_batch : @Runner.batch Q := {|
  Runner.sess_run := Runner.Fetched output_fetches;
  Runner.after_step := None;
  Runner.cancel_requested := true;
|}.

(** Seven good steps, then a step on which [sess.run] raises. *)
Definition crash_at_7 : @Runner.data_provider Q := {|
  Runner.batches := replicate 7 good_batch ++ [crashing_batch; good_batch];
  Runner.have_reached_end := true;
|}.

(** The cancel flag is set while the first step runs. *)
Definition cancelled_in_step_0 : @Runner.data_provider Q := {|
  Runner.batches := [cancelled_batch; good_batch];
  Runner.have_reached_end := true;
|}.

(** A provider with one batch left that does not confirm its end. *)
Definition unconfirmed_end : @Runner.data_provider Q := {|
  Runner.batches := [good_batch];
  Runner.have_reached_end := false;
|}.

(** ["%03d" % epoch] *)
Definition zero_pad3 (digits : string) : string :=
  match String.length digits with
  | 1%nat => "00" +:+ digits
  | 2%nat => "0" +:+ digits
  | _ => digits
  end.

(** The scheme of [TheanoEngine.epoch_model_filename]. *)
Definition epoch_model_filename (model : string) (epoch : nat)
    (is_pretrain : bool) : string :=
  model +:+ (if is_pretrain then ".pretrain" else "") +:+ "."
        +:+ zero_pad3 (pretty epoch).

(** An engine in epoch 3 of a training without pretraining. *)
Definition engine (config : Config) (tf_session : Session) : Engine.t :=
  Engine.mk config tf_session "net-model/network" 3 None 1 false [].

(** The files of the model of epoch 3, of two tagged models of that
    epoch, of the model of epoch 4, and a text file. *)
Definition checkpoint_files : file_system :=
  list_to_map
    [("net-model/network.003.index", 10%N);
     ("net-model/network.003.meta", 20%N);
     ("net-model/network.003.data-00000-of-00001", 30%N);
     ("net-model/network.003.crash_7.index", 5%N);
     ("net-model/network.003.crash_7.data-00000-of-00001", 6%N);
     ("net-model/network.003.broken.meta", 7%N);
     ("net-model/network.004.index", 8%N);
     ("net-model/network.003.txt", 1%N)].

(** Keep the last two epochs and the best one. *)
Definition keep_2_1 : Engine.cleanup_opts := {|
  Engine.keep_last_n := Some 2;
  Engine.keep_best_n := Some 1;
  Engine.keep := None;
|}.

Definition dry_run_config : Config := {|
  use_horovod := false;
  calculate_exp_loss := false;
  stop_on_nonfinite_train_score := true;
  dry_run := true;
  horovod_reduce_type := "";
  horovod_param_sync_step := 1;
|}.

(** Models of the epochs 1 to 12 and a dev score that falls by one with
    every epoch. *)
Definition twelve_models : gmap nat string :=
  list_to_map ((λ e, (e, epoch_model_filename "net-model/network" e false))
                 <$> seq 1 12).

Definition falling_score (e : nat) : Q := (100 - Z.of_nat e) # 1.

Definition twelve_scores : gmap nat (gmap string Q) :=
  list_to_map ((λ e, (e, {["dev_score" := falling_score e]})) <$> seq 1 12).

End Examples.

(** Inputs for the fetch set. *)

Module FetchExamples.
Import FetchSet.

(** A graph: the number of its nodes and the tensors kept by name. *)
Definition graph : Type := nat * gmap string nat.

Definition graph_le : relation graph := λ g g',
  (g.1 ≤ g'.1)%nat ∧ g.2 ⊆ g'.2.

(** A new node at every call, as [tf.constant] makes one. *)
Definition new_node : op graph nat := λ g, (g.1, (S g.1, g.2)).

(** A tensor that is made once and then kept by its name, as
    [TFUtil.global_tensor] keeps it. *)
Definition named_tensor (f : op graph nat) (name : string) : op graph nat := λ g,
  match g.2 !! name with
  | Some t => (t, g)
  | None => let '(t, g') := f g in (t, (g'.1, <[name:=t]> g'.2))
  end.

Definition cached_node (name : string) : op graph (option nat) :=
  op_bind (named_tensor new_node name) (λ t, op_ret (Some t)).

Definition output_loss : loss nat graph := {|
  get_only_on_eval := false;
  get_loss_value_for_fetch := cached_node "output/loss_value";
  get_error_value := cached_node "output/error_value";
  get_norm_factor := cached_node "output/loss_norm_factor";
|}.

Definition output_layer : layer nat := {|
  name := "output";
  only_on_eval := false;
  target := Some "classes";
  loss_target_sizes := Some [(0, 3)]%nat;
  stats := [("max_abs", 4%nat)];
|}.

(** A network with one loss, whose dict of losses is filled when the
    objective is built, an updater that makes its optimizer at the first
    call, and summaries. *)
Definition network : collaborators nat graph := {|
  data_sizes := [("data", [(0, 1)]); ("classes", [(0, 2)])]%nat;
  get_objective := cached_node "objective";
  losses_dict := λ g,
    (if g.2 !! "objective" is Some _ then [("output", output_loss)] else [], g);
  layers := op_ret [output_layer];
  updater := true;
  init_optimizer_vars := op_bind new_node (λ _, op_ret tt);
  get_optim_op := λ callback g,
    match g.2 !! "optim_op" with
    | Some t => ((t, false), g)
    | None =>
        let '(_, g') := callback g in
        ((g'.1, true), (S g'.1, <["optim_op":=g'.1]> g'.2))
    end;
  optim_meta_losses := op_ret [];
  get_post_control_dependencies := op_ret None;
  global_tensor := named_tensor;
  hvd_allreduce := λ _ _, new_node;
  tf_reciprocal := λ _, new_node;
  tf_constant := λ _, new_node;
  merge_all := op_bind new_node (λ t, op_ret (Some t));
  list_devices := [("CPU", "/device:CPU:0"); ("GPU", "/device:GPU:0")];
  device_basename := λ dev, default dev (strip_prefix "/device:" dev);
  mem_usage_for_dev := λ dev, named_tensor new_node ("mem_usage_for_dev" +:+ dev);
|}.

Definition training : runner nat := {|
  _should_train := true;
  _should_eval := false;
  extra_fetches := Some [("output", ExtraData 5 [(0, 6)]); ("none", ExtraNone)]%nat;
|}.

(** An engine that has built no fetches yet, over a graph of ten nodes. *)
Definition fresh_engine : state nat graph := mk (10%nat, ∅) ∅ None true.

Definition no_dicts : heap nat := {| dicts := [] |}.

(** Two calls of [_get_fetches_dict], one after the other. *)
Definition first_call : result nat * (state nat graph * heap nat) :=
  _get_fetches_dict Examples.horovod_config true network training
    (fresh_engine, no_dicts).

Definition second_call : result nat * (state nat graph * heap nat) :=
  _get_fetches_dict Examples.horovod_config true network training first_call.2.

End FetchExamples.

(** * Steps that go through *)

(** Whether the runner works through batch [b] and goes on to the next
    one: [sess.run] returns, the figures of the step can be normalised,
    nothing raises after that and nobody asks to cancel.  Whether the
    figures can be normalised depends on the fetches alone. *)
Definition step_completes {num : Type} `{!Numeric num} (b : @Runner.batch num)
    : bool :=
  match Runner.sess_run b with
  | Runner.Fetched fetches_results =>
      is_ok (Runner._collect_eval_info fetches_results (Runner.init false)).1
      && match Runner.after_step b with None => true | Some _ => false end
      && negb (Runner.cancel_requested b)
  | Runner.SessRaise _ => false
  end.

(** Two good steps, and the provider confirms its end. *)
Definition two_good_steps : @Runner.data_provider Q := {|
  Runner.batches := [Examples.good_batch; Examples.good_batch];
  Runner.have_reached_end := true;
|}.

(** Three good steps, and the provider does not confirm its end. *)
Definition three_unconfirmed_steps : @Runner.data_provider Q := {|
  Runner.batches := replicate 3 Examples.good_batch;
  Runner.have_reached_end := false;
|}.

(** Rank 0 of two workers; the other worker has data for two steps, then
    runs out of data, and reports no error. *)
Definition peer_with_two_batches : Session := {|
  hvd_size := 2;
  hvd_rank := 0;
  allreduce := λ n mine, if (n <? 2)%nat then (mine.1 + 1, mine.2 + 0)
                         else (mine.1 + 0, mine.2 + 0);
  allreduce_raises := λ _, None;
  sync_params_raises := λ _, None;
  get_global_train_step := Z.of_nat;
|}.

(** Horovod with averaging of the parameters and a synchronisation step
    of 0, which [_horovod_sync_params] asserts not to be. *)
Definition sync_step_0_config : Config := {|
  use_horovod := true;
  calculate_exp_loss := false;
  stop_on_nonfinite_train_score := true;
  dry_run := false;
  horovod_reduce_type := "param";
  horovod_param_sync_step := 0;
|}.

(** * Keys of the fetch set *)

(** The dicts that [c] returns do not have the key [key]. *)
Definition never_sets {obj W : Type} (key : string)
    (c : FetchSet.M obj W (gmap string (option obj))) : Prop :=
  ∀ s d s', c s = (Ok d, s') → d !! key = None.

Module FetchMoreExamples.
Import FetchSet FetchExamples.

(** The network of the examples when the engine has no updater. *)
Definition network_without_updater : collaborators nat graph := {|
  data_sizes := data_sizes network;
  get_objective := get_objective network;
  losses_dict := losses_dict network;
  layers := layers network;
  updater := false;
  init_optimizer_vars := init_optimizer_vars network;
  get_optim_op := get_optim_op network;
  optim_meta_losses := optim_meta_losses network;
  get_post_control_dependencies := get_post_control_dependencies network;
  global_tensor := global_tensor network;
  hvd_allreduce := hvd_allreduce network;
  tf_reciprocal := tf_reciprocal network;
  tf_constant := tf_constant network;
  merge_all := merge_all network;
  list_devices := list_devices network;
  device_basename := device_basename network;
  mem_usage_for_dev := mem_usage_for_dev network;
|}.

(** A runner that evaluates. *)
Definition evaluating : runner nat := {|
  _should_train := false;
  _should_eval := true;
  extra_fetches := Some [("output", ExtraData 5 [(0, 6)])]%nat;
|}.

(** A call of [_get_fetches_dict] for the evaluating runner. *)
Definition eval_call : result nat * (state nat graph * heap nat) :=
  _get_fetches_dict Examples.plain_config false network evaluating
    (fresh_engine, no_dicts).

End FetchMoreExamples.

Module CleanupExamples.

(** The index and meta files of the models of the epochs 1 to 12. *)
Definition twelve_files : file_system :=
  list_to_map
    (flat_map
       (λ e, let fn := Examples.epoch_model_filename "net-model/network" e false in
             [(fn +:+ ".index", 1%N); (fn +:+ ".meta", 2%N)])
       (seq 1 12)).

(** An engine that deletes: no dry run, a process that saves. *)
Definition deleting_engine : Engine.t :=
  Examples.engine Examples.plain_config Examples.local_session.

(** Scores for the epochs 1 to 12 with a key that only epoch 13, whose
    model is not stored, has. *)
Definition scores_with_stale_key : gmap nat (gmap string Q) :=
  <[13%nat := {["eval_score" := 1 # 1]}]> Examples.twelve_scores.

End CleanupExamples.

(** * Verification *)

(** ** Strings *)

Lemma append_cons (a : ascii) (p r : string) :
  String a p +:+ r = String a (p +:+ r).
Proof. reflexivity. Qed.

Lemma append_nil (r : string) : EmptyString +:+ r = r.
Proof. reflexivity. Qed.

Lemma prefix_app (p r : string) : String.prefix p (p +:+ r) = true.
Proof.
  induction p as [|a p IH].
  - rewrite append_nil. by destruct r.
  - rewrite append_cons. simpl. destruct (ascii_dec a a); [done | congruence].
Qed.

Lemma str_drop_app (p r : string) : str_drop (String.length p) (p +:+ r) = r.
Proof. induction p as [|a p IH]; [done |]. by rewrite append_cons. Qed.

Lemma prefix_inv (p s : string) :
  String.prefix p s = true → s = p +:+ str_drop (String.length p) s.
Proof.
  revert s. induction p as [|a p IH]; intros s Hp.
  - by destruct s.
  - destruct s as [|b s]; [done |]. simpl in Hp.
    destruct (ascii_dec a b) as [Hab|]; [| done]. subst b.
    rewrite append_cons. simpl. f_equal. by apply IH.
Qed.

Lemma strip_prefix_Some (p s r : string) :
  strip_prefix p s = Some r ↔ s = p +:+ r.
Proof.
  unfold strip_prefix, startswith. split.
  - destruct (String.prefix p s) eqn:Hp; [| done].
    intros [= <-]. by apply prefix_inv.
  - intros ->. by rewrite prefix_app, str_drop_app.
Qed.

Lemma app_inj_r (p r1 r2 : string) : p +:+ r1 = p +:+ r2 → r1 = r2.
Proof.
  induction p as [|a p IH]; [done |].
  rewrite !append_cons. intros Heq. apply IH. by injection Heq.
Qed.

Lemma length_append (p r : string) :
  String.length (p +:+ r) = (String.length p + String.length r)%nat.
Proof. induction p as [|a p IH]; [done |]. rewrite append_cons. simpl. by rewrite IH. Qed.

Lemma app_inj_l (k1 k2 s : string) : k1 +:+ s = k2 +:+ s → k1 = k2.
Proof.
  intros Heq.
  assert (Hlen : String.length k1 = String.length k2).
  { apply (f_equal String.length) in Heq.
    rewrite !length_append in Heq. lia. }
  revert k2 Heq Hlen. induction k1 as [|a k1 IH]; intros [|b k2]; try done.
  rewrite !append_cons. intros Heq Hlen. injection Heq as -> Heq.
  f_equal. apply IH; [done |]. by injection Hlen.
Qed.

(** ** Dict comprehensions *)

Lemma dict_comprehension_list {A B} (f : string → A → result B)
    (l : list (string * A)) (m' : gmap string B) :
  NoDup l.*1 →
  foldr (λ kv acc, b ← f kv.1 kv.2; m' ← acc; Ok (<[kv.1:=b]> m')) (Ok ∅) l
    = Ok m' →
  ∀ k, m' !! k
       = ((list_to_map l : gmap string A) !! k) ≫= λ a, match f k a with Ok b => Some b | Raise _ => None end.
Proof.
  revert m'. induction l as [|[k0 a0] l IH]; intros m' Hnd Hf k; simpl in *.
  - injection Hf as <-. by rewrite !lookup_empty.
  - destruct (f k0 a0) as [b0|] eqn:Hf0; simpl in Hf; [| done].
    destruct (foldr _ _ l) as [m0|] eqn:Hm0; simpl in Hf; [| done].
    injection Hf as <-. apply NoDup_cons in Hnd as [_ Hnd].
    destruct (decide (k0 = k)) as [->|Hne].
    + rewrite !lookup_insert_eq. simpl. by rewrite Hf0.
    + rewrite !lookup_insert_ne by done. by apply IH.
Qed.

Lemma dict_comprehension_list_ok {A B} (f : string → A → result B)
    (l : list (string * A)) (m' : gmap string B) :
  foldr (λ kv acc, b ← f kv.1 kv.2; m' ← acc; Ok (<[kv.1:=b]> m')) (Ok ∅) l
    = Ok m' →
  Forall (λ kv, is_ok (f kv.1 kv.2) = true) l.
Proof.
  revert m'. induction l as [|[k0 a0] l IH]; intros m' Hf; simpl in *; [done |].
  destruct (f k0 a0) as [b0|] eqn:Hf0; simpl in Hf; [| done].
  destruct (foldr _ _ l) as [m0|] eqn:Hm0; simpl in Hf; [| done].
  constructor; [by simpl; rewrite Hf0 | by eapply IH].
Qed.

Lemma dict_comprehension_lookup {A B} (f : string → A → result B)
    (m : gmap string A) (m' : gmap string B) (k : string) :
  dict_comprehension f m = Ok m' →
  match m !! k with
  | None => m' !! k = None
  | Some a => ∃ b, f k a = Ok b ∧ m' !! k = Some b
  end.
Proof.
  intros Hm'. unfold dict_comprehension in Hm'.
  pose proof (dict_comprehension_list f _ m' (NoDup_fst_map_to_list m) Hm' k) as Hk.
  pose proof (dict_comprehension_list_ok f _ m' Hm') as Hok.
  rewrite list_to_map_to_list in Hk.
  destruct (m !! k) as [a|] eqn:Hmk; simpl in Hk; [| done].
  rewrite Forall_forall in Hok.
  specialize (Hok (k, a)). simpl in Hok.
  destruct (f k a) as [b|]; [by eauto |].
  discriminate Hok. by apply elem_of_map_to_list.
Qed.

Lemma dict_comprehension_ok {A B} (f : string → A → result B)
    (m : gmap string A) :
  (∀ k a, m !! k = Some a → is_ok (f k a) = true) →
  ∃ m', dict_comprehension f m = Ok m'.
Proof.
  intros Hall. unfold dict_comprehension.
  assert (Hl : Forall (λ kv, is_ok (f kv.1 kv.2) = true) (map_to_list m)).
  { apply Forall_forall. intros [k a] Hin. apply Hall. by apply elem_of_map_to_list. }
  induction Hl as [|[k a] l Hka _ [m0 IH]]; simpl; [by eauto |].
  simpl in Hka. destruct (f k a) as [b|]; [| done]. rewrite IH. simpl. eauto.
Qed.

Lemma dict_comprehension_raise {A B} (f : string → A → result B)
    (m : gmap string A) (k : string) (a : A) (e : exn) :
  m !! k = Some a → f k a = Raise e →
  (∀ k' a' e', f k' a' = Raise e' → e' = e) →
  dict_comprehension f m = Raise e.
Proof.
  intros Hk Hf Hsame.
  destruct (dict_comprehension f m) as [m'|e'] eqn:Hd.
  - pose proof (dict_comprehension_lookup f m m' k Hd) as Hl.
    rewrite Hk in Hl. destruct Hl as (b & Hb & _). congruence.
  - f_equal. unfold dict_comprehension in Hd.
    induction (map_to_list m) as [|[k0 a0] l IH]; simpl in Hd; [done |].
    destruct (f k0 a0) as [b0|e0] eqn:Hf0; simpl in Hd.
    + destruct (foldr _ _ l) as [m0|e1] eqn:Hm0; simpl in Hd; [done |].
      injection Hd as <-. by apply IH.
    + injection Hd as <-. eauto.
Qed.

Lemma dict_rekey_lookup {A} (g : string → option string) (m : gmap string A)
    (j : string) (v : A) :
  (∀ k1 k2 j', g k1 = Some j' → g k2 = Some j' → k1 = k2) →
  dict_rekey g m !! j = Some v ↔ ∃ k, g k = Some j ∧ m !! k = Some v.
Proof.
  intros Hinj. unfold dict_rekey.
  set (h := λ kv : string * A, (λ k', (k', kv.2)) <$> g kv.1).
  assert (Hnd : NoDup (omap h (map_to_list m)).*1).
  { pose proof (NoDup_fst_map_to_list m) as Hm.
    induction (map_to_list m) as [|[k a] l IH]; simpl; [constructor |].
    apply NoDup_cons in Hm as [Hk Hm]. simpl in Hk.
    unfold h at 1. simpl. destruct (g k) as [k'|] eqn:Hgk; simpl; [| by auto].
    constructor; [| by auto].
    intros Hin. apply Hk.
    apply list_elem_of_fmap in Hin as ([k1 a1] & -> & Hin).
    apply list_elem_of_omap in Hin as ([k2 a2] & Hin2 & Hh).
    unfold h in Hh. simpl in Hh. destruct (g k2) as [k2'|] eqn:Hgk2; [| done].
    injection Hh as <- <-. simpl in *.
    rewrite (Hinj k k2 k2' Hgk Hgk2).
    apply list_elem_of_fmap. by exists (k2, a2). }
  rewrite <- elem_of_list_to_map by done.
  rewrite list_elem_of_omap. split.
  - intros ([k a] & Hin & Hh). unfold h in Hh. simpl in Hh.
    destruct (g k) as [k'|] eqn:Hgk; [| done]. injection Hh as <- <-.
    exists k. split; [done |]. by apply elem_of_map_to_list.
  - intros (k & Hgk & Hmk). exists (k, v). split.
    + by apply elem_of_map_to_list.
    + unfold h. simpl. by rewrite Hgk.
Qed.

Lemma dict_rekey_lookup_None {A} (g : string → option string)
    (m : gmap string A) (j : string) :
  (∀ k1 k2 j', g k1 = Some j' → g k2 = Some j' → k1 = k2) →
  (∀ k, g k = Some j → m !! k = None) →
  dict_rekey g m !! j = None.
Proof.
  intros Hinj Hnone. apply eq_None_not_Some. intros [v Hv].
  apply dict_rekey_lookup in Hv as (k & Hgk & Hmk); [| done].
  rewrite (Hnone k Hgk) in Hmk. done.
Qed.

Lemma dict_rekey_strip_prefix {A} (p : string) (m : gmap string A) (name : string) :
  dict_rekey (strip_prefix p) m !! name = m !! (p +:+ name).
Proof.
  assert (Hinj : ∀ k1 k2 j', strip_prefix p k1 = Some j' →
                             strip_prefix p k2 = Some j' → k1 = k2).
  { intros k1 k2 j' H1%strip_prefix_Some H2%strip_prefix_Some. congruence. }
  destruct (m !! (p +:+ name)) as [v|] eqn:Hm.
  - apply dict_rekey_lookup; [done |]. exists (p +:+ name).
    split; [by apply strip_prefix_Some | done].
  - apply dict_rekey_lookup_None; [done |].
    intros k ->%strip_prefix_Some. done.
Qed.

(** ** Normalisation and the final metrics *)

Module MetricFacts.
Section MetricFacts.
Context {num : Type} `{!Numeric num}.
Implicit Types (value : num) (key name : string) (steps : list (gmap string num)).
Implicit Types (self : @Runner.t num).

Lemma normalize_loss_falsy value key (factors : gmap string num) :
  num_truthy value = false → Runner._normalize_loss value key factors = Ok value.
Proof. intros Hv. unfold Runner._normalize_loss. by rewrite Hv. Qed.

Lemma normalize_loss_loss value (factors : gmap string num) :
  Runner._normalize_loss value "loss" factors = Ok value.
Proof. unfold Runner._normalize_loss. by destruct (num_truthy value). Qed.

Lemma find_colon_metric_key (prefix name : string) :
  find_colon prefix = None →
  find_colon (prefix +:+ ":" +:+ name) = Some (String.length prefix).
Proof.
  induction prefix as [|a p IH]; intros Hp; [done |].
  rewrite append_cons. simpl in *.
  destruct (Ascii.eqb a ":"); [done |].
  destruct (find_colon p); [done |]. by rewrite IH.
Qed.

Lemma str_drop_metric_key (prefix name : string) :
  str_drop (String.length prefix + 1) (prefix +:+ ":" +:+ name) = name.
Proof.
  induction prefix as [|a p IH]; [done |]. by rewrite append_cons.
Qed.

(** A truthy value under [cost:<name>] or [error:<name>] is divided by the
    factor registered under [<name>], and normalisation fails without
    one. *)
Lemma normalize_loss_truthy value (prefix name : string)
    (factors : gmap string num) :
  num_truthy value = true → find_colon prefix = None →
  Runner._normalize_loss value (prefix +:+ ":" +:+ name) factors
  = match factors !! name with
    | Some f => Ok (num_div value f)
    | None => Raise AssertionError
    end.
Proof.
  intros Hv Hp. unfold Runner._normalize_loss. rewrite Hv. simpl.
  assert (Hloss : String.eqb (prefix +:+ ":" +:+ name) "loss" = false).
  { apply String.eqb_neq. intros Heq.
    apply (f_equal find_colon) in Heq.
    rewrite find_colon_metric_key in Heq by done. done. }
  rewrite Hloss, find_colon_metric_key, str_drop_metric_key by done.
  destruct (factors !! name) as [f|] eqn:Hf.
  - assert (Hsz : size factors ≠ 0%nat).
    { intros Hsz%map_size_empty_inv. by rewrite Hsz, lookup_empty in Hf. }
    unfold assert. destruct (Nat.eqb_spec (size factors) 0); [done |]. done.
  - unfold assert. by destruct (negb _).
Qed.

Lemma lookup_filter_key {A} (P : string → bool) (m : gmap string A) key :
  filter (λ kv, P kv.1 = true) m !! key = if P key then m !! key else None.
Proof.
  rewrite map_lookup_filter. destruct (m !! key) as [a|]; simpl.
  - destruct (P key) eqn:HP; case_guard; simpl in *; congruence.
  - by destruct (P key).
Qed.

(** The accumulators after the steps, key by key. *)
Lemma results_accumulated_record_steps steps self key :
  Runner._results_accumulated (Runner.record_steps steps self) !! key
  = foldl (λ acc (f : gmap string num),
             NumbersDict.add_opt acc (if Runner.is_eval_key key then f !! key else None))
          (Runner._results_accumulated self !! key) steps.
Proof.
  revert self. induction steps as [|f steps IH]; intros self; [done |].
  unfold Runner.record_steps in *. simpl. rewrite IH. simpl.
  unfold NumbersDict.iadd. rewrite lookup_merge, lookup_filter_key.
  by destruct (Runner._results_accumulated self !! key),
              (if Runner.is_eval_key key then f !! key else None).
Qed.

Lemma inv_norm_accumulated_record_steps steps self name :
  Runner._inv_norm_accumulated (Runner.record_steps steps self) !! name
  = foldl (λ acc (f : gmap string num),
             NumbersDict.add_opt acc
               (num_div num_one <$> f !! ("loss_norm_factor:" +:+ name)))
          (Runner._inv_norm_accumulated self !! name) steps.
Proof.
  revert self. induction steps as [|f steps IH]; intros self; [done |].
  unfold Runner.record_steps in *. simpl. rewrite IH. simpl.
  unfold NumbersDict.iadd.
  rewrite lookup_merge, lookup_fmap, dict_rekey_strip_prefix.
  by destruct (Runner._inv_norm_accumulated self !! name),
              (f !! ("loss_norm_factor:" +:+ name)).
Qed.

(** A key that every step fetches accumulates to the sum of its values. *)
Lemma foldl_add_opt_present {A} (g : A → option num) (l : list A) (a : num) :
  Forall (λ x, is_Some (g x)) l →
  foldl (λ acc x, NumbersDict.add_opt acc (g x)) (Some a) l
  = Some (foldl num_add a (omap g l)).
Proof.
  revert a. induction l as [|x l IH]; intros a Hl; [done |].
  apply Forall_cons in Hl as [[v Hv] Hl]. simpl. rewrite Hv. simpl.
  by apply IH.
Qed.

Lemma foldl_add_opt_sum {A} (g : A → option num) (l : list A) :
  l ≠ [] → Forall (λ x, is_Some (g x)) l →
  foldl (λ acc x, NumbersDict.add_opt acc (g x)) None l
  = Some (Runner.py_sum (omap g l)).
Proof.
  destruct l as [|x l]; [done |]. intros _ Hl.
  pose proof Hl as [[v Hv] Hl']%Forall_cons. simpl. rewrite Hv. simpl.
  unfold Runner.py_sum. simpl. by apply foldl_add_opt_present.
Qed.

Lemma foldl_add_opt_absent {A} (g : A → option num) (l : list A) :
  Forall (λ x, g x = None) l →
  foldl (λ acc x, NumbersDict.add_opt acc (g x)) None l = None.
Proof.
  induction l as [|x l IH]; intros Hl; [done |].
  apply Forall_cons in Hl as [Hx Hl]. simpl. rewrite Hx. simpl. by apply IH.
Qed.

Lemma finalize_inv (numpy_exp : num → num) (config : Config) n self self' :
  Runner._finalize numpy_exp config n self = Ok self' →
  dict_comprehension
    (λ key value, Runner._normalize_loss value key (Runner._inv_norm_accumulated self))
    (Runner._results_accumulated self) = Ok (Runner.results self')
  ∧ Runner.score self'
    = (if calculate_exp_loss config
       then Runner.exp_entries numpy_exp (Runner.results self')
            ∪ filter (λ kv, startswith "cost:" kv.1 = true) (Runner.results self')
       else filter (λ kv, startswith "cost:" kv.1 = true) (Runner.results self'))
  ∧ Runner.error self'
    = filter (λ kv, startswith "error:" kv.1 = true) (Runner.results self')
  ∧ Runner.finalized self' = true
  ∧ Runner.num_steps self' = Some n.
Proof.
  unfold Runner._finalize. intros Hf.
  destruct (dict_comprehension _ _) as [res|] eqn:Hres; simpl in Hf; [| done].
  by injection Hf as <-.
Qed.

Lemma exp_entries_lookup (numpy_exp : num → num) (res : gmap string num) key :
  startswith "cost:" key = true →
  Runner.exp_entries numpy_exp res !! (key +:+ ":exp") = numpy_exp <$> res !! key.
Proof.
  intros Hc. unfold Runner.exp_entries.
  set (g := λ k, if startswith "cost:" k then Some (k +:+ ":exp") else None).
  assert (Hinj : ∀ k1 k2 j', g k1 = Some j' → g k2 = Some j' → k1 = k2).
  { intros k1 k2 j'. unfold g.
    destruct (startswith "cost:" k1), (startswith "cost:" k2); try done.
    intros [= <-] [= Heq]. symmetry. by eapply app_inj_l. }
  destruct (res !! key) as [v|] eqn:Hk; simpl.
  - apply dict_rekey_lookup; [done |]. exists key. split.
    + unfold g. by rewrite Hc.
    + by rewrite lookup_fmap, Hk.
  - apply dict_rekey_lookup_None; [done |]. intros k Hg. unfold g in Hg.
    destruct (startswith "cost:" k); [| done]. injection Hg as Heq.
    apply app_inj_l in Heq as ->. by rewrite lookup_fmap, Hk.
Qed.

Lemma fetched_every_step steps (fetches : gset string) key :
  Forall (λ f : gmap string num, dom f = fetches) steps →
  if bool_decide (key ∈ fetches)
  then Forall (λ f : gmap string num, is_Some (f !! key)) steps
  else Forall (λ f : gmap string num, f !! key = None) steps.
Proof.
  intros Hdom. case_bool_decide as Hk.
  - eapply Forall_impl; [exact Hdom |]. intros f <-. by apply elem_of_dom.
  - eapply Forall_impl; [exact Hdom |]. intros f <-. by apply not_elem_of_dom.
Qed.

(** The accumulated value of a metric key over the steps of a run whose
    steps all fetch the keys [fetches]. *)
Lemma results_accumulated_sum steps (fetches : gset string) (train : bool) key :
  steps ≠ [] → Forall (λ f : gmap string num, dom f = fetches) steps →
  Runner.is_eval_key key = true →
  Runner._results_accumulated (Runner.record_steps steps (Runner.init train)) !! key
  = if bool_decide (key ∈ fetches)
    then Some (Runner.py_sum (Runner.raw_values key steps)) else None.
Proof.
  intros Hne Hdom Hkey. rewrite results_accumulated_record_steps, Hkey. simpl.
  rewrite lookup_empty.
  pose proof (fetched_every_step steps fetches key Hdom) as Hall.
  case_bool_decide.
  - by apply (foldl_add_opt_sum (λ f : gmap string num, f !! key)).
  - by apply (foldl_add_opt_absent (λ f : gmap string num, f !! key)).
Qed.

Lemma inv_norm_accumulated_sum steps (fetches : gset string) (train : bool) name :
  steps ≠ [] → Forall (λ f : gmap string num, dom f = fetches) steps →
  Runner._inv_norm_accumulated (Runner.record_steps steps (Runner.init train)) !! name
  = if bool_decide ("loss_norm_factor:" +:+ name ∈ fetches)
    then Some (Runner.py_sum (Runner.inv_norm_values name steps)) else None.
Proof.
  intros Hne Hdom. rewrite inv_norm_accumulated_record_steps. simpl.
  rewrite lookup_empty.
  pose proof (fetched_every_step steps fetches
                ("loss_norm_factor:" +:+ name) Hdom) as Hall.
  case_bool_decide.
  - apply (foldl_add_opt_sum
             (λ f : gmap string num,
                num_div num_one <$> f !! ("loss_norm_factor:" +:+ name))); [done |].
    eapply Forall_impl; [exact Hall |]. intros f [v ->]. by eexists.
  - apply (foldl_add_opt_absent
             (λ f : gmap string num,
                num_div num_one <$> f !! ("loss_norm_factor:" +:+ name))).
    eapply Forall_impl; [exact Hall |]. by intros f ->.
Qed.

(** C7.  A truthy value under a key other than ["loss"] whose suffix
    after the first colon has no normalisation factor registered makes
    [_normalize_loss] fail (with the [AssertionError] of its [assert]s,
    the configuration error of the specification); a falsy value is
    returned as it is, whatever the key and whatever the factors. *)
Theorem normalize_loss_unregistered_or_falsy value key
    (inv_loss_norm_factors : gmap string num) :
  (num_truthy value = true → key ≠ "loss" →
   (∀ i, find_colon key = Some i →
         inv_loss_norm_factors !! str_drop (i + 1) key = None) →
   Runner._normalize_loss value key inv_loss_norm_factors = Raise AssertionError)
  ∧ (num_truthy value = false →
     ∀ factors : gmap string num, Runner._normalize_loss value key factors = Ok value).
Proof.
  split.
  - intros Hv Hkey Hnone. unfold Runner._normalize_loss. rewrite Hv. simpl.
    apply String.eqb_neq in Hkey. rewrite Hkey.
    unfold assert. destruct (negb _); simpl; [| done].
    destruct (find_colon key) as [i|] eqn:Hi; [| done].
    by rewrite (Hnone i eq_refl).
  - intros Hv factors. by apply normalize_loss_falsy.
Qed.

(** C1 (amended).  After a successful [_finalize] of a run whose steps all
    fetched the keys [fetches]: the result under [cost:<name>] or
    [error:<name>] is the sum of the raw values fetched under that key
    divided by the sum of the inverse normalisation factors of [<name>]
    when that sum is truthy, and the sum itself when it is falsy; the
    result under ["loss"] is the raw sum; [score] holds the results under
    the keys that start with ["cost:"] and, when [calculate_exp_loss] is
    set, also [numpy.exp] of each of them under [<key>:exp]; [error] holds
    exactly the results under the keys that start with ["error:"]. *)
Theorem finalize_metrics (numpy_exp : num → num) (config : Config)
    (train : bool) steps (fetches : gset string) (n : nat) self' :
  steps ≠ [] →
  Forall (λ f : gmap string num, dom f = fetches) steps →
  Runner._finalize numpy_exp config n
    (Runner.record_steps steps (Runner.init train)) = Ok self' →
  (∀ key name, key = "cost:" +:+ name ∨ key = "error:" +:+ name →
     let total := Runner.py_sum (Runner.raw_values key steps) in
     let inv_norm := Runner.py_sum (Runner.inv_norm_values name steps) in
     if bool_decide (key ∈ fetches) then
       if num_truthy total then
         "loss_norm_factor:" +:+ name ∈ fetches
         ∧ Runner.results self' !! key = Some (num_div total inv_norm)
       else Runner.results self' !! key = Some total
     else Runner.results self' !! key = None)
  ∧ Runner.results self' !! "loss"
    = (if bool_decide ("loss" ∈ fetches)
       then Some (Runner.py_sum (Runner.raw_values "loss" steps)) else None)
  ∧ Runner.score self'
    = (if calculate_exp_loss config
       then Runner.exp_entries numpy_exp (Runner.results self')
            ∪ filter (λ kv, startswith "cost:" kv.1 = true) (Runner.results self')
       else filter (λ kv, startswith "cost:" kv.1 = true) (Runner.results self'))
  ∧ (calculate_exp_loss config = true →
     ∀ key value, startswith "cost:" key = true →
                  Runner.results self' !! key = Some value →
                  Runner.score self' !! (key +:+ ":exp") = Some (numpy_exp value))
  ∧ Runner.error self'
    = filter (λ kv, startswith "error:" kv.1 = true) (Runner.results self').
Proof.
  intros Hne Hdom Hfin.
  apply finalize_inv in Hfin as (Hres & Hscore & Herror & _ & _).
  repeat split; [| | done | | done].
  - intros key name Hkey total inv_norm.
    assert (Hshape : ∃ prefix, key = prefix +:+ ":" +:+ name
                               ∧ find_colon prefix = None
                               ∧ Runner.is_eval_key key = true).
    { destruct Hkey as [-> | ->]; [exists "cost" | exists "error"];
        (split; [done |]); (split; [done |]);
        unfold Runner.is_eval_key, startswith;
        rewrite prefix_app; by rewrite ?orb_true_r. }
    destruct Hshape as (prefix & Hkeyeq & Hprefix & Heval).
    pose proof (dict_comprehension_lookup _ _ _ key Hres) as Hlook.
    rewrite (results_accumulated_sum steps fetches train key Hne Hdom Heval)
      in Hlook.
    case_bool_decide as Hin; [| done].
    destruct Hlook as (b & Hb & Hlook). fold total in Hb.
    destruct (num_truthy total) eqn:Htruthy.
    + rewrite Hkeyeq, normalize_loss_truthy in Hb by done.
      rewrite (inv_norm_accumulated_sum steps fetches train name Hne Hdom) in Hb.
      case_bool_decide as Hnorm; [| done].
      injection Hb as <-. done.
    + rewrite normalize_loss_falsy in Hb by done. by injection Hb as <-.
  - pose proof (dict_comprehension_lookup _ _ _ "loss" Hres) as Hlook.
    rewrite (results_accumulated_sum steps fetches train "loss" Hne Hdom eq_refl)
      in Hlook.
    case_bool_decide; [| done].
    destruct Hlook as (b & Hb & Hlook).
    rewrite normalize_loss_loss in Hb. by injection Hb as <-.
  - intros Hexp key value Hcost Hvalue. rewrite Hscore, Hexp.
    apply lookup_union_Some_l. by rewrite exp_entries_lookup, Hvalue.
Qed.

End MetricFacts.
End MetricFacts.

Lemma normalize_loss_witness :
  Runner._normalize_loss (3 # 1)%Q "cost:output" (∅ : gmap string Q)
  = Raise AssertionError
  ∧ Runner._normalize_loss 0%Q "cost:output" ({["output" := (2 # 1)%Q]} : gmap string Q)
    = Ok 0%Q.
Proof.
  split.
  - apply (proj1 (MetricFacts.normalize_loss_unregistered_or_falsy
                    (3 # 1)%Q "cost:output" ∅)); [reflexivity | done |].
    intros i _. apply lookup_empty.
  - apply (proj2 (MetricFacts.normalize_loss_unregistered_or_falsy
                    0%Q "cost:output" ∅)). reflexivity.
Defined.

Lemma finalize_metrics_witness :
  ∃ self',
    Runner._finalize (λ q : Q, q) Examples.plain_config 2
      (Runner.record_steps [Examples.output_fetches; Examples.output_fetches]
                           (Runner.init true)) = Ok self'
    ∧ Runner.results self' !! "cost:output"
      = Some (Qdiv (0 + (6 # 1) + (6 # 1)) (0 + 1 / (1 # 2) + 1 / (1 # 2)))%Q
    ∧ Runner.results self' !! "loss" = Some (0 + (6 # 1) + (6 # 1))%Q.
Proof.
  eexists. split; [vm_compute; reflexivity |].
  lazymatch goal with
  | |- Runner.results ?s !! _ = _ ∧ _ =>
      assert (Hfin : Runner._finalize (λ q : Q, q) Examples.plain_config 2
                       (Runner.record_steps
                          [Examples.output_fetches; Examples.output_fetches]
                          (Runner.init true)) = Ok s)
        by (vm_compute; reflexivity);
      destruct (MetricFacts.finalize_metrics
                  (λ q : Q, q) Examples.plain_config true
                  [Examples.output_fetches; Examples.output_fetches]
                  (dom Examples.output_fetches) 2 s
                  ltac:(done) ltac:(by repeat constructor) Hfin)
        as (Hkey & Hloss & _)
  end.
  split; [| exact Hloss].
  exact (proj2 (Hkey "cost:output" "output" (or_introl eq_refl))).
Defined.

Lemma finalize_score_counterexample :
  (∀ numpy_exp : Q → Q,
     is_ok (Runner._finalize numpy_exp Examples.exp_config 1
              (Runner.record_steps [Examples.output_fetches] (Runner.init true)))
     = true)
  ∧ ¬ ∃ (numpy_exp : Q → Q) self',
        Runner._finalize numpy_exp Examples.exp_config 1
          (Runner.record_steps [Examples.output_fetches] (Runner.init true))
        = Ok self'
        ∧ Runner.score self'
          = filter (λ kv, startswith "cost:" kv.1 = true) (Runner.results self').
Proof.
  split.
  - intros numpy_exp. vm_compute. reflexivity.
  - intros (numpy_exp & self' & Hfin & Hscore).
    vm_compute in Hfin. injection Hfin as <-.
    apply (f_equal (λ m : gmap string Q, m !! "cost:output:exp")) in Hscore.
    vm_compute in Hscore. discriminate Hscore.
Qed.

(** ** Horovod signalling *)

Module HorovodFacts.
Section HorovodFacts.
Context {num : Type}.
Variable config : Config.
Variable tf_session : Session.
Implicit Types (self : @Runner.t num) (calls : list (bool * bool)).

Local Abbreviation broadcast := (Runner._horovod_signal_broadcast config tf_session).
Local Abbreviation broadcasts := (Runner.broadcasts config tf_session).
Local Abbreviation stopped_under_horovod := (Runner.stopped_under_horovod config).

Lemma broadcast_stopped_under_horovod have_more_data error self :
  stopped_under_horovod self →
  stopped_under_horovod (broadcast have_more_data error self).2.
Proof.
  unfold Runner.stopped_under_horovod, Runner._horovod_signal_broadcast.
  destruct (use_horovod config); simpl; [done | auto].
Qed.

Lemma broadcasts_stopped_under_horovod calls self :
  stopped_under_horovod self → stopped_under_horovod (broadcasts calls self).
Proof.
  revert self. induction calls as [|call calls IH]; intros self Hself; [done |].
  apply IH. by apply broadcast_stopped_under_horovod.
Qed.

Lemma broadcast_when_stopped have_more_data error self :
  stopped_under_horovod self → Runner._horovod_stopped_runner self = true →
  broadcast have_more_data error self = ((true, false), self).
Proof.
  intros Hinv Hstopped. unfold Runner._horovod_signal_broadcast.
  by rewrite (Hinv Hstopped), Hstopped.
Qed.

Lemma broadcasts_when_stopped calls self :
  stopped_under_horovod self → Runner._horovod_stopped_runner self = true →
  broadcasts calls self = self.
Proof.
  intros Hinv Hstopped. induction calls as [|call calls IH]; [done |].
  unfold Runner.broadcasts in *. simpl.
  by rewrite broadcast_when_stopped.
Qed.

(** C4.  On a runner that has made any sequence of broadcast calls since
    its creation: a call made while the flag is clear sets it exactly if
    Horovod is in use and the allreduce round of the call returns fewer
    have-more-data votes than there are peers or a positive error sum;
    once the flag is set, every further sequence of calls leaves the
    runner as it is (the flag stays set and no further allreduce round is
    fed), and each of the calls returns [(stop=True, error=False)]. *)
Theorem horovod_stopped_monotone (train : bool) calls :
  let self := broadcasts calls (@Runner.init num train) in
  (Runner._horovod_stopped_runner self = false →
   ∀ have_more_data error : bool,
     let sums := allreduce tf_session (length (Runner.hvd_rounds self))
                   (if have_more_data then 1 else 0, if error then 1 else 0) in
     Runner._horovod_stopped_runner (broadcast have_more_data error self).2
     = use_horovod config && ((sums.1 <? hvd_size tf_session) || (0 <? sums.2)))
  ∧ (Runner._horovod_stopped_runner self = true →
     ∀ more,
       broadcasts more self = self
       ∧ Forall (λ call, (broadcast call.1 call.2 self).1 = (true, false)) more).
Proof.
  intros self.
  assert (Hinv : stopped_under_horovod self).
  { by apply broadcasts_stopped_under_horovod. }
  split.
  - intros Hclear have_more_data error sums.
    unfold Runner._horovod_signal_broadcast. rewrite Hclear.
    destruct (use_horovod config); simpl; [| done].
    fold sums. by destruct (_ || _).
  - intros Hstopped more. split.
    + by apply broadcasts_when_stopped.
    + apply Forall_forall. intros call _.
      by rewrite broadcast_when_stopped.
Qed.

End HorovodFacts.
End HorovodFacts.

Lemma horovod_stopped_witness :
  let self :=
    Runner.broadcasts (num:=Q) Examples.horovod_config Examples.peer_out_of_data
                      [(true, false)] (Runner.init true) in
  Runner._horovod_stopped_runner self = true
  ∧ Runner.broadcasts Examples.horovod_config Examples.peer_out_of_data
                      [(true, false); (false, true)] self = self.
Proof.
  split; [reflexivity |].
  exact (proj1 (proj2 (HorovodFacts.horovod_stopped_monotone (num:=Q)
                         Examples.horovod_config Examples.peer_out_of_data
                         true [(true, false)])
                      eq_refl [(true, false); (false, true)])).
Defined.

(** ** The batch loop and the end of a run *)

Module RunFacts.
Section RunFacts.
Context {num : Type} `{!Numeric num}.
Variable numpy_exp : num → num.
Variable config : Config.
Variable tf_session : Session.
Implicit Types (self : @Runner.t num) (bs : list (@Runner.batch num)).
Implicit Types (dp : @Runner.data_provider num) (step : nat).

#[local] Arguments Runner._collect_eval_info : simpl never.
#[local] Arguments Runner._horovod_signal_broadcast : simpl never.
#[local] Arguments Runner._finalize : simpl never.
#[local] Arguments Runner.set_cancel_flag : simpl never.

Local Abbreviation broadcast := (Runner._horovod_signal_broadcast config tf_session).
Local Abbreviation signal := (Runner.signal_broadcast config tf_session).
Local Abbreviation sync_params := (Runner._horovod_sync_params config tf_session).
Local Abbreviation batch_loop := (Runner.batch_loop config tf_session).
Local Abbreviation after_loop := (Runner.after_loop numpy_exp config tf_session).
Local Abbreviation run := (Runner.run numpy_exp config tf_session).
Local Abbreviation same_outcome := (@Runner.same_outcome num).

Lemma same_outcome_refl self : same_outcome self self.
Proof. by repeat split. Qed.

Lemma same_outcome_trans self1 self2 self3 :
  same_outcome self1 self2 → same_outcome self2 self3 → same_outcome self1 self3.
Proof. unfold Runner.same_outcome. intros (?&?&?&?) (?&?&?&?). repeat split; congruence. Qed.

Lemma broadcast_same_outcome (have_more_data error : bool) self :
  same_outcome self (broadcast have_more_data error self).2.
Proof.
  unfold Runner._horovod_signal_broadcast.
  destruct (use_horovod config); simpl; [| apply same_outcome_refl].
  destruct (Runner._horovod_stopped_runner self); simpl;
    [apply same_outcome_refl | by repeat split].
Qed.

(** A call of the broadcast in [run] either raises, having fed its
    round, or is a call that returns. *)
Lemma signal_cases (have_more_data error : bool) self :
  (∃ e, signal have_more_data error self
        = (Raise e,
           Runner.set_horovod
             (Runner._horovod_stopped_runner self)
             (Runner.hvd_rounds self
                ++ [(if have_more_data then 1 else 0, if error then 1 else 0)])
             self)
        ∧ use_horovod config = true
        ∧ Runner._horovod_stopped_runner self = false)
  ∨ signal have_more_data error self
    = (Ok (broadcast have_more_data error self).1,
       (broadcast have_more_data error self).2).
Proof.
  unfold Runner.signal_broadcast.
  destruct (use_horovod config); simpl; [| by right].
  destruct (Runner._horovod_stopped_runner self); simpl; [by right |].
  destruct (allreduce_raises _ _) as [e|]; [| by right].
  left. by exists e.
Qed.

Lemma signal_same_outcome (have_more_data error : bool) self :
  same_outcome self (signal have_more_data error self).2.
Proof.
  destruct (signal_cases have_more_data error self) as [(e & -> & _) | ->].
  - by repeat split.
  - apply broadcast_same_outcome.
Qed.

(** A call that answers [stop] leaves the runner stopped. *)
Lemma signal_stop (have_more_data error : bool) self (hvd_error : bool) self' :
  signal have_more_data error self = (Ok (true, hvd_error), self') →
  use_horovod config = true ∧ Runner._horovod_stopped_runner self' = true.
Proof.
  destruct (signal_cases have_more_data error self) as [(e & -> & _) | ->];
    [done |].
  unfold Runner._horovod_signal_broadcast.
  destruct (use_horovod config); simpl; [| done].
  destruct (Runner._horovod_stopped_runner self) eqn:Hs; simpl.
  { by intros [= <- <-]. }
  destruct (_ || _); [| done]. by intros [= <- <-].
Qed.

(** On a stopped runner, or without Horovod, the call returns at once. *)
Lemma signal_no_round (have_more_data error : bool) self :
  use_horovod config = false ∨ Runner._horovod_stopped_runner self = true →
  signal have_more_data error self
  = (Ok (use_horovod config, false), self).
Proof.
  intros Hno. unfold Runner.signal_broadcast, Runner._horovod_signal_broadcast.
  destruct (use_horovod config); simpl; [| done].
  destruct Hno as [? | ->]; done.
Qed.

Lemma collect_eval_info_same_outcome (fetches_results : gmap string num) self :
  same_outcome self (Runner._collect_eval_info fetches_results self).2.
Proof. by repeat split. Qed.

(** One round of the loop. *)
Lemma batch_loop_cons b bs step self :
  batch_loop (b :: bs) step self
  = match Runner._horovod_signal_have_more_data config tf_session self with
    | (Raise e, self) => (Runner.LoopRaise e, step, self)
    | (Ok (hvd_stop, hvd_error), self) =>
        if hvd_error then
          (Runner.LoopRaise (Exception "Some other Horovod peer failed."), step,
           self)
        else if hvd_stop then (Runner.LoopEnd true, step, self)
        else
          match Runner.sess_run b with
          | Runner.SessRaise e => (Runner.LoopRaise e, step, self)
          | Runner.Fetched fetches_results =>
              match Runner._collect_eval_info fetches_results self with
              | (Raise e, self) => (Runner.LoopRaise e, step, self)
              | (Ok _, self) =>
                  match Runner.after_step b with
                  | Some e => (Runner.LoopRaise e, step, self)
                  | None =>
                      match sync_params step false self with
                      | Raise e => (Runner.LoopRaise e, step, self)
                      | Ok _ =>
                          let self :=
                            Runner.set_cancel_flag
                              (Runner.cancel_flag self || Runner.cancel_requested b)
                              self in
                          if Runner.cancel_flag self then
                            (Runner.LoopRaise CancelTrainingException, S step, self)
                          else batch_loop bs (S step) self
                      end
                  end
              end
          end
    end.
Proof. reflexivity. Qed.

Lemma batch_loop_same_outcome bs step self :
  same_outcome self (batch_loop bs step self).2.
Proof.
  revert step self. induction bs as [|b bs IH]; intros step self.
  { apply same_outcome_refl. }
  rewrite batch_loop_cons.
  pose proof (signal_same_outcome true false self) as Hb.
  unfold Runner._horovod_signal_have_more_data.
  destruct (signal true false self) as [[[hvd_stop hvd_error]|e] self1];
    change ((_, self1).2) with self1 in Hb; [| done].
  destruct hvd_error; [done |]. destruct hvd_stop; [done |].
  destruct (Runner.sess_run b) as [fetches_results|e]; [| done].
  pose proof (collect_eval_info_same_outcome fetches_results self1) as Hc.
  destruct (Runner._collect_eval_info fetches_results self1) as [[info|e] self2];
    change ((_, self2).2) with self2 in Hc;
    [| exact (same_outcome_trans _ _ _ Hb Hc)].
  destruct (Runner.after_step b); [exact (same_outcome_trans _ _ _ Hb Hc) |].
  destruct (sync_params step false self2);
    [| exact (same_outcome_trans _ _ _ Hb Hc)].
  set (self3 := Runner.set_cancel_flag _ self2).
  assert (H3 : same_outcome self self3).
  { eapply same_outcome_trans; [exact Hb |].
    eapply same_outcome_trans; [exact Hc |]. by repeat split. }
  destruct (Runner.cancel_flag self3); [done |].
  eapply same_outcome_trans; [exact H3 | apply IH].
Qed.

(** The loop is left with [hvd_stop] set only right after a broadcast
    that answered [(stop=True, error=False)], which leaves the runner
    stopped. *)
Lemma batch_loop_peer_stop bs step self step' self' :
  batch_loop bs step self = (Runner.LoopEnd true, step', self') →
  (∃ self0, Runner._horovod_signal_have_more_data config tf_session self0
            = (Ok (true, false), self'))
  ∧ use_horovod config = true
  ∧ Runner._horovod_stopped_runner self' = true.
Proof.
  revert step self. induction bs as [|b bs IH]; intros step self; [done |].
  rewrite batch_loop_cons.
  destruct (Runner._horovod_signal_have_more_data config tf_session self)
    as [[[hvd_stop hvd_error]|e] self1] eqn:Hb; [| done].
  destruct hvd_error; [done |].
  destruct hvd_stop.
  { intros [= <- <-]. split; [by eauto |]. by eapply signal_stop. }
  destruct (Runner.sess_run b) as [fetches_results|e]; [| done].
  destruct (Runner._collect_eval_info fetches_results self1) as [[info|e] self2];
    [| done].
  destruct (Runner.after_step b); [done |].
  destruct (sync_params step false self2); [| done].
  cbv zeta. destruct (Runner.cancel_flag _); [done |]. apply IH.
Qed.

Lemma finalize_outcome n self self' :
  Runner._finalize numpy_exp config n self = Ok self' →
  Runner.finalized self' = true
  ∧ Runner.num_steps self' = Some n
  ∧ Runner.run_exception self' = Runner.run_exception self
  ∧ Runner.device_crash_batch self' = Runner.device_crash_batch self
  ∧ Runner._should_train self' = Runner._should_train self
  ∧ Runner._horovod_stopped_runner self' = Runner._horovod_stopped_runner self
  ∧ Runner.hvd_rounds self' = Runner.hvd_rounds self.
Proof.
  unfold Runner._finalize.
  destruct (dict_comprehension _ _); simpl; [| done]. by intros [= <-].
Qed.

Lemma signal_kept (have_more_data error : bool) self :
  Runner.finalized (signal have_more_data error self).2 = Runner.finalized self
  ∧ Runner.num_steps (signal have_more_data error self).2 = Runner.num_steps self
  ∧ Runner._should_train (signal have_more_data error self).2
    = Runner._should_train self.
Proof.
  destruct (signal_cases have_more_data error self) as [(e & -> & _) | ->];
    [done |].
  unfold Runner._horovod_signal_broadcast.
  destruct (negb _); [done |]. by destruct (Runner._horovod_stopped_runner self).
Qed.

(** The closing part of the [try] block either raises before [_finalize]
    has returned, and then the runner is as it was, or gets past
    [_finalize]; in that case the run is finalized with its number of
    steps, whatever the two calls after [_finalize] do, and the part
    raises exactly if one of those two calls does. *)
Lemma after_loop_cases dp (hvd_stop : bool) step self :
  (∃ exc, after_loop dp hvd_stop step self = (Raise exc, self)
          ∧ (hvd_stop = false ∧ Runner.have_reached_end dp = false
             → exc = Exception "Did not successfully reached the end of the dataset."))
  ∨ (∃ self1,
       (hvd_stop = true ∨ Runner.have_reached_end dp = true)
       ∧ (Runner._should_train self = false
          ∨ Z.of_nat step + get_global_train_step tf_session 0
            = get_global_train_step tf_session step)
       ∧ Runner._finalize numpy_exp config step self = Ok self1
       ∧ match Runner._horovod_finish_data config tf_session self1 with
         | (Raise exc, self2) =>
             after_loop dp hvd_stop step self = (Raise exc, self2)
         | (Ok _, self2) =>
             after_loop dp hvd_stop step self = (sync_params step true self2, self2)
         end).
Proof.
  unfold Runner.after_loop.
  destruct (negb hvd_stop && negb (Runner.have_reached_end dp)) eqn:Hend.
  { left. eexists. split; [done |]. done. }
  destruct (negb (Runner._should_train self) || _) eqn:Hstep; simpl.
  2:{ left. eexists. split; [done |]. intros [Hs Hr].
      by rewrite Hs, Hr in Hend. }
  destruct (Runner._finalize numpy_exp config step self) as [self1|exc] eqn:Hfin.
  2:{ left. eexists. split; [done |]. intros [Hs Hr].
      by rewrite Hs, Hr in Hend. }
  right. exists self1. split; [| split; [| split; [done |]]].
  - destruct hvd_stop, (Runner.have_reached_end dp); auto.
  - apply orb_true_iff in Hstep as [Htrain%negb_true_iff | Heq%Z.eqb_eq]; auto.
  - by destruct (Runner._horovod_finish_data config tf_session self1)
      as [[?|?] ?].
Qed.

Lemma after_loop_outcome dp (hvd_stop : bool) step self res self' :
  after_loop dp hvd_stop step self = (res, self') →
  Runner.run_exception self' = Runner.run_exception self
  ∧ Runner.device_crash_batch self' = Runner.device_crash_batch self
  ∧ (is_ok res = true → Runner.finalized self' = true)
  ∧ (Runner.finalized self' = true → Runner.finalized self = false →
     (hvd_stop = true ∨ Runner.have_reached_end dp = true)
     ∧ Runner.num_steps self' = Some step).
Proof.
  intros Hafter.
  destruct (after_loop_cases dp hvd_stop step self)
    as [(exc & Hraise & _) | (self1 & Hend & _ & Hfin & Hrest)].
  { rewrite Hraise in Hafter. injection Hafter as <- <-.
    split; [done |]. split; [done |]. split; [done |]. congruence. }
  apply finalize_outcome in Hfin as (Hf & Hn & He & Hc & _).
  pose proof (signal_same_outcome false false self1) as (_ & He2 & Hc2 & _).
  pose proof (signal_kept false false self1) as (Hf2 & Hn2 & _).
  unfold Runner._horovod_finish_data in Hrest.
  destruct (signal false false self1) as [[answer|exc] self2];
    simpl in He2, Hc2, Hf2, Hn2;
    rewrite Hafter in Hrest; injection Hrest as -> ->;
    (split; [congruence |]); (split; [congruence |]);
    (split; [intros _; congruence |]); intros _ _;
    (split; [done | congruence]).
Qed.

Lemma handle_exception_outcome (exc : exn) step self :
  Runner.finalized (Runner.handle_exception exc step self) = Runner.finalized self
  ∧ Runner.run_exception (Runner.handle_exception exc step self) = Some exc
  ∧ Runner.device_crash_batch (Runner.handle_exception exc step self)
    = match exc with
      | KeyboardInterrupt => Runner.device_crash_batch self
      | _ => Some step
      end
  ∧ Runner.num_steps (Runner.handle_exception exc step self)
    = Runner.num_steps self.
Proof. by destruct exc. Qed.

(** The outcome of a run in terms of the way the loop was left. *)
Lemma run_outcome dp (train : bool) :
  let r := run dp (Runner.init train) in
  match batch_loop (Runner.batches dp) 0 (Runner.init train) with
  | (Runner.LoopRaise exc, step, self) =>
      Runner.finalized r = false ∧ Runner.run_exception r = Some exc
      ∧ Runner.device_crash_batch r
        = match exc with KeyboardInterrupt => None | _ => Some step end
  | (Runner.LoopEnd hvd_stop, step, self) =>
      match after_loop dp hvd_stop step self with
      | (Ok _, self') =>
          Runner.finalized r = true ∧ Runner.run_exception r = None
          ∧ Runner.device_crash_batch r = None
          ∧ Runner.num_steps r = Some step
      | (Raise exc, self') =>
          Runner.finalized r = Runner.finalized self'
          ∧ Runner.run_exception r = Some exc
          ∧ Runner.device_crash_batch r
            = match exc with KeyboardInterrupt => None | _ => Some step end
          ∧ Runner.num_steps r = Runner.num_steps self'
      end
  end.
Proof.
  intros r. subst r. unfold Runner.run.
  pose proof (batch_loop_same_outcome (Runner.batches dp) 0 (Runner.init train))
    as (Hf & He & Hc & _).
  destruct (batch_loop (Runner.batches dp) 0 (Runner.init train))
    as [[exit step] self]. simpl in Hf, He, Hc.
  unfold Runner._horovod_signal_error.
  destruct exit as [hvd_stop|exc].
  - destruct (after_loop dp hvd_stop step self) as [[[]|exc] self'] eqn:Hafter.
    + apply after_loop_outcome in Hafter as (He' & Hc' & Hf' & Hn').
      destruct (signal_same_outcome false true self') as (-> & -> & -> & _).
      destruct (signal_kept false true self') as (_ & -> & _).
      specialize (Hf' eq_refl). destruct (Hn' Hf' Hf) as [_ ->].
      by rewrite Hf', He', Hc', He, Hc.
    + apply after_loop_outcome in Hafter as (He' & Hc' & _).
      destruct (signal_same_outcome false true
                  (Runner.handle_exception exc step self')) as (-> & -> & -> & _).
      destruct (signal_kept false true
                  (Runner.handle_exception exc step self')) as (_ & -> & _).
      destruct (handle_exception_outcome exc step self') as (-> & -> & -> & ->).
      rewrite Hc', Hc. by destruct exc.
  - destruct (signal_same_outcome false true
                (Runner.handle_exception exc step self)) as (-> & -> & -> & _).
    destruct (handle_exception_outcome exc step self) as (-> & -> & -> & _).
    rewrite Hf, Hc. by destruct exc.
Qed.

(** C5.  A run is finalized only if its batch loop came to its end and
    either the data provider confirmed that it reached its end or the
    loop was left on a peer's stop signal without error; leaving the loop
    without a peer's stop and without that confirmation raises and leaves
    the runner unfinalized; after a peer's stop without error the
    confirmation is not asked for, and the run is finalized once the two
    closing checks of [run] hold (the global train step of a training
    run, the normalisation in [_finalize]): the finish signal sends
    nothing then, and the run has an exception on record exactly if the
    final synchronisation of the parameters raises one. *)
Theorem run_finalized_only_at_end dp (train : bool)
    (exit : Runner.loop_exit) step self :
  batch_loop (Runner.batches dp) 0 (Runner.init train) = (exit, step, self) →
  let r := run dp (Runner.init train) in
  (Runner.finalized r = true →
   (exit = Runner.LoopEnd false ∧ Runner.have_reached_end dp = true)
   ∨ (exit = Runner.LoopEnd true
      ∧ ∃ self0, Runner._horovod_signal_have_more_data config tf_session self0
                 = (Ok (true, false), self)))
  ∧ (exit = Runner.LoopEnd false → Runner.have_reached_end dp = false →
     Runner.finalized r = false
     ∧ Runner.run_exception r
       = Some (Exception "Did not successfully reached the end of the dataset."))
  ∧ (exit = Runner.LoopEnd true →
     train = false
     ∨ Z.of_nat step + get_global_train_step tf_session 0
       = get_global_train_step tf_session step →
     is_ok (Runner._finalize numpy_exp config step self) = true →
     Runner.finalized r = true
     ∧ Runner.num_steps r = Some step
     ∧ Runner.run_exception r
       = match sync_params step true self with
         | Ok _ => None
         | Raise exc => Some exc
         end).
Proof.
  intros Hloop r. pose proof (run_outcome dp train) as Hrun.
  pose proof (batch_loop_same_outcome (Runner.batches dp) 0 (Runner.init train))
    as (Hfin0 & _ & _ & Htrain).
  rewrite Hloop in Hrun, Htrain, Hfin0. fold r in Hrun.
  change ((exit, step, self).2) with self in Htrain, Hfin0.
  simpl in Htrain, Hfin0.
  split; [| split].
  - intros Hfin. destruct exit as [hvd_stop|exc].
    + destruct (after_loop dp hvd_stop step self) as [res self'] eqn:Hafter.
      apply after_loop_outcome in Hafter as (_ & _ & Hok & Hend).
      assert (Hf' : Runner.finalized self' = true).
      { destruct res as [[]|exc]; [by apply Hok |].
        destruct Hrun as (Hf & _). congruence. }
      destruct (Hend Hf' Hfin0) as [Hend' _].
      destruct hvd_stop.
      * right. split; [done |]. by eapply batch_loop_peer_stop.
      * left. by destruct Hend'.
    + destruct Hrun as (Hf & _). congruence.
  - intros -> Hend.
    destruct (after_loop_cases dp false step self)
      as [(exc & Hraise & Hexc) | (self1 & [? | ?] & _)]; [| done | congruence].
    rewrite Hraise in Hrun. destruct Hrun as (Hf & He & _).
    rewrite Hf, He, Hfin0, (Hexc (conj eq_refl Hend)). done.
  - intros -> Hstep Hfinalize.
    apply batch_loop_peer_stop in Hloop as (_ & Hh & Hstopped).
    assert (Hassert : negb (Runner._should_train self)
                      || (Z.of_nat step + get_global_train_step tf_session 0
                          =? get_global_train_step tf_session step) = true).
    { rewrite Htrain. destruct Hstep as [-> | Hstep]; [done |].
      apply Z.eqb_eq in Hstep. rewrite Hstep. by rewrite orb_true_r. }
    destruct (Runner._finalize numpy_exp config step self) as [self1|] eqn:Hfin1;
      [| done].
    pose proof (finalize_outcome _ _ _ Hfin1)
      as (Hf1 & Hn1 & _ & _ & Htrain1 & Hstopped1 & _).
    assert (Hafter : after_loop dp true step self
                     = (sync_params step true self, self1)).
    { unfold Runner.after_loop. simpl. rewrite Hassert. simpl. rewrite Hfin1.
      unfold Runner._horovod_finish_data.
      rewrite signal_no_round by (right; congruence).
      unfold Runner._horovod_sync_params. by rewrite Htrain1. }
    rewrite Hafter in Hrun.
    destruct (sync_params step true self) as [[]|exc].
    + by destruct Hrun as (-> & -> & _ & ->).
    + destruct Hrun as (-> & -> & _ & ->). by rewrite Hf1, Hn1.
Qed.

End RunFacts.
End RunFacts.

Lemma run_finalized_witness :
  (let r := Runner.run (λ q : Q, q) Examples.horovod_config peer_with_two_batches
              three_unconfirmed_steps (Runner.init true) in
   Runner.finalized r = true ∧ Runner.num_steps r = Some 2%nat
   ∧ Runner.run_exception r = None)
  ∧ (let r := Runner.run (λ q : Q, q) sync_step_0_config Examples.peer_out_of_data
                Examples.unconfirmed_end (Runner.init true) in
     Runner.finalized r = true ∧ Runner.num_steps r = Some 0%nat
     ∧ Runner.run_exception r = Some AssertionError)
  ∧ Runner.finalized
      (Runner.run (λ q : Q, q) Examples.plain_config Examples.local_session
                  Examples.unconfirmed_end (Runner.init true)) = false.
Proof.
  split; [| split].
  - refine (proj2 (proj2 (RunFacts.run_finalized_only_at_end
              (λ q : Q, q) Examples.horovod_config peer_with_two_batches
              three_unconfirmed_steps true (Runner.LoopEnd true) 2
              (Runner.batch_loop Examples.horovod_config peer_with_two_batches
                 (Runner.batches three_unconfirmed_steps) 0 (Runner.init true)).2
              _)) _ _ _).
    + vm_compute. reflexivity.
    + reflexivity.
    + by right.
    + vm_compute. reflexivity.
  - refine (proj2 (proj2 (RunFacts.run_finalized_only_at_end
              (λ q : Q, q) sync_step_0_config Examples.peer_out_of_data
              Examples.unconfirmed_end true (Runner.LoopEnd true) 0
              (Runner.batch_loop sync_step_0_config Examples.peer_out_of_data
                 (Runner.batches Examples.unconfirmed_end) 0 (Runner.init true)).2
              _)) _ _ _).
    + vm_compute. reflexivity.
    + reflexivity.
    + by right.
    + vm_compute. reflexivity.
  - refine (proj1 (proj1 (proj2 (RunFacts.run_finalized_only_at_end
              (λ q : Q, q) Examples.plain_config Examples.local_session
              Examples.unconfirmed_end true (Runner.LoopEnd false) 1
              (Runner.batch_loop Examples.plain_config Examples.local_session
                 (Runner.batches Examples.unconfirmed_end) 0 (Runner.init true)).2
              _)) _ _)).
    + vm_compute. reflexivity.
    + reflexivity.
    + reflexivity.
Defined.

(** ** The crash path of a training epoch *)

Lemma append_not_self (s t : string) : t ≠ EmptyString → s +:+ t ≠ s.
Proof.
  intros Ht Heq. apply Ht. apply (f_equal String.length) in Heq.
  rewrite length_append in Heq. destruct t; [done | simpl in Heq; lia].
Qed.

Lemma append_not_empty (s t : string) : t ≠ EmptyString → s +:+ t ≠ EmptyString.
Proof.
  intros Ht Heq. apply Ht. apply (f_equal String.length) in Heq.
  rewrite length_append in Heq. destruct t; [done | simpl in Heq; lia].
Qed.

Module EngineFacts.
Section EngineFacts.
Context {num : Type} `{!Numeric num}.
Variable numpy_exp : num → num.
Variable epoch_model_filename : string → nat → bool → string.
Implicit Types (self : Engine.t) (filename : string).
Implicit Types (dp : @Runner.data_provider num).

Local Abbreviation save_model := (Engine.save_model epoch_model_filename).
Local Abbreviation get_epoch_model_filename :=
  (Engine.get_epoch_model_filename epoch_model_filename).
Local Abbreviation train_epoch := (Engine.train_epoch numpy_exp epoch_model_filename).
Local Abbreviation saved_as := (Engine.saved_as epoch_model_filename).

Lemma save_model_saved filename self :
  Engine.saved_models (save_model filename self)
  = Engine.saved_models self
    ++ (if Engine._do_save self then [saved_as filename self] else []).
Proof.
  unfold Engine.save_model, Engine.saved_as.
  destruct (Engine._do_save self); simpl; [done | by rewrite app_nil_r].
Qed.

Lemma save_model_attributes filename self :
  Engine.config (save_model filename self) = Engine.config self
  ∧ Engine.tf_session (save_model filename self) = Engine.tf_session self
  ∧ get_epoch_model_filename None (save_model filename self)
    = get_epoch_model_filename None self
  ∧ Engine._do_save (save_model filename self) = Engine._do_save self.
Proof.
  unfold Engine.save_model.
  destruct (Engine._do_save self) eqn:Hsave; simpl; [| done].
  by repeat split.
Qed.

(** C3 (amended).  When [sess.run] raises an [OpError] in step [s] of the
    training run of an epoch, [train_epoch] exits the process with
    status 1; on a process that saves models ([_do_save]: no Horovod, or
    Horovod rank 0) the last model it saves is the model of the epoch
    under its filename suffixed with [.crash_<s>], and on any other
    Horovod rank it saves nothing; beside that, only the initial model of
    epoch 1 may be saved before the run, so the model of the epoch is not
    saved under its own filename. *)
Theorem train_epoch_crash_checkpoint dp self (s : nat) (runner' : @Runner.t num) :
  Runner.batch_loop (Engine.config self) (Engine.tf_session self)
                    (Runner.batches dp) 0 (Runner.init true)
  = (Runner.LoopRaise OpError, s, runner') →
  let canonical := get_epoch_model_filename None self in
  let initial :=
    epoch_model_filename (Engine.model_filename self) 0
                         (Engine.is_pretrain_epoch None self) in
  let before_run :=
    if Nat.eqb (Engine.epoch self) 1 && Engine.save_epoch1_initial_model self
    then [saved_as initial self] else [] in
  ∃ self',
    train_epoch dp self = (Raise (SystemExit 1), self')
    ∧ Engine.saved_models self'
      = Engine.saved_models self
        ++ (if Engine._do_save self
            then before_run ++ [canonical +:+ ".crash_" +:+ pretty s]
            else [])
    ∧ (initial ≠ EmptyString → initial ≠ canonical →
       canonical ∉ before_run ++ [canonical +:+ ".crash_" +:+ pretty s]).
Proof.
  intros Hloop. cbv zeta. unfold Engine.train_epoch. cbv zeta.
  set (initial := epoch_model_filename _ 0%nat _).
  set (canonical := get_epoch_model_filename None self).
  set (before_run := if _ && _ then [_] else []).
  set (self1 := if _ && _ then save_model initial self else self).
  assert (Hattr : Engine.config self1 = Engine.config self
                  ∧ Engine.tf_session self1 = Engine.tf_session self
                  ∧ get_epoch_model_filename None self1 = canonical
                  ∧ Engine._do_save self1 = Engine._do_save self).
  { subst self1. destruct (_ && _); [apply save_model_attributes | done]. }
  destruct Hattr as (Hconfig & Hsession & Hcanonical & Hsave).
  assert (Hsaved1 : Engine.saved_models self1
                    = Engine.saved_models self
                      ++ (if Engine._do_save self then before_run else [])).
  { subst self1 before_run. destruct (_ && _).
    - apply save_model_saved.
    - destruct (Engine._do_save self); by rewrite app_nil_r. }
  rewrite Hconfig, Hsession.
  pose proof (RunFacts.run_outcome numpy_exp (Engine.config self)
                (Engine.tf_session self) dp true) as Hrun.
  rewrite Hloop in Hrun. simpl in Hrun. destruct Hrun as (Hfin & _ & Hcrash).
  rewrite Hfin, Hcrash. simpl. rewrite Hcanonical.
  eexists. split; [reflexivity |]. split.
  - rewrite save_model_saved, Hsaved1, Hsave.
    unfold Engine.saved_as.
    assert (Hname : String.eqb (canonical +:+ ".crash_" +:+ pretty s) EmptyString
                    = false).
    { apply String.eqb_neq. by apply append_not_empty. }
    rewrite Hname. destruct (Engine._do_save self); [| by rewrite !app_nil_r].
    by rewrite <- app_assoc.
  - intros Hne Hinitial Hin. apply elem_of_app in Hin as [Hin | Hin].
    + subst before_run. destruct (_ && _); [| by apply elem_of_nil in Hin].
      apply list_elem_of_singleton in Hin. unfold Engine.saved_as in Hin.
      apply String.eqb_neq in Hne. rewrite Hne in Hin. congruence.
    + apply list_elem_of_singleton in Hin. symmetry in Hin.
      by apply append_not_self in Hin.
Qed.

End EngineFacts.
End EngineFacts.

Lemma train_epoch_crash_witness :
  ∃ self',
    Engine.train_epoch (λ q : Q, q) Examples.epoch_model_filename
      Examples.crash_at_7
      (Examples.engine Examples.plain_config Examples.local_session)
    = (Raise (SystemExit 1), self')
    ∧ Engine.saved_models self' = ["net-model/network.003.crash_7"].
Proof.
  assert (Hloop : ∃ runner',
            Runner.batch_loop Examples.plain_config Examples.local_session
              (Runner.batches Examples.crash_at_7) 0 (Runner.init true)
            = (Runner.LoopRaise OpError, 7%nat, runner'))
    by (eexists; vm_compute; reflexivity).
  destruct Hloop as (runner' & Hloop).
  destruct (EngineFacts.train_epoch_crash_checkpoint
              (λ q : Q, q) Examples.epoch_model_filename Examples.crash_at_7
              (Examples.engine Examples.plain_config Examples.local_session)
              7 runner' Hloop)
    as (self' & Hexit & Hsaved & _).
  exists self'. split; [exact Hexit |]. rewrite Hsaved. reflexivity.
Defined.

Lemma crash_checkpoint_counterexample :
  let trainer :=
    Runner.run (λ q : Q, q) Examples.horovod_config Examples.second_worker
               Examples.crash_at_7 (Runner.init true) in
  let engine := Examples.engine Examples.horovod_config Examples.second_worker in
  Runner.finalized trainer = false
  ∧ Runner.run_exception trainer = Some OpError
  ∧ Runner.device_crash_batch trainer = Some 7%nat
  ∧ Engine.train_epoch (λ q : Q, q) Examples.epoch_model_filename
                       Examples.crash_at_7 engine
    = (Raise (SystemExit 1), engine)
  ∧ Engine.saved_models engine = [].
Proof. vm_compute. by repeat split. Qed.

(** C6 (the defect).  A run in which the cancel flag is set during the
    first step ends on [CancelTrainingException]; the [except] clause of
    [run] records it as the crash batch, and [train_epoch] saves the
    model under the [.crash_1] filename before it exits. *)
Theorem cancel_takes_crash_checkpoint_path :
  let trainer :=
    Runner.run (λ q : Q, q) Examples.plain_config Examples.local_session
               Examples.cancelled_in_step_0 (Runner.init true) in
  let outcome :=
    Engine.train_epoch (λ q : Q, q) Examples.epoch_model_filename
      Examples.cancelled_in_step_0
      (Examples.engine Examples.plain_config Examples.local_session) in
  Runner.finalized trainer = false
  ∧ Runner.run_exception trainer = Some CancelTrainingException
  ∧ Runner.device_crash_batch trainer = Some 1%nat
  ∧ outcome.1 = Raise (SystemExit 1)
  ∧ Engine.saved_models outcome.2 = ["net-model/network.003.crash_1"].
Proof. vm_compute. by repeat split. Qed.

(** ** Deleting a model *)

Module DeleteFacts.
Implicit Types (fs : file_system) (fn filename p : string) (fns : list string).

Lemma delete_model_step_spec (count : N) fs fn :
  Engine.delete_model_step (count, fs) fn
  = if Engine.is_model_file fn
    then ((count + default 0 (fs !! fn))%N, delete fn fs)
    else (count, fs).
Proof.
  unfold Engine.delete_model_step, Engine.is_model_file. simpl.
  by destruct (bool_decide _), (startswith ".data" _).
Qed.

Lemma files_size_delete fs fn fns :
  fn ∉ fns → Engine.files_size (delete fn fs) fns = Engine.files_size fs fns.
Proof.
  induction fns as [|fn' fns IH]; intros Hnotin; [done |].
  apply not_elem_of_cons in Hnotin as [Hne Hnotin]. simpl.
  rewrite lookup_delete_ne by done. by rewrite IH.
Qed.

(** The loop of [delete_model] over distinct files. *)
Lemma delete_loop_spec fns (count : N) fs :
  NoDup fns →
  let st := foldl Engine.delete_model_step (count, fs) fns in
  st.1 = (count + Engine.files_size fs (filter (λ fn, Engine.is_model_file fn = true) fns))%N
  ∧ ∀ p, st.2 !! p
         = if bool_decide (p ∈ fns) && Engine.is_model_file p then None else fs !! p.
Proof.
  revert count fs. induction fns as [|fn fns IH]; intros count fs Hnd; simpl.
  { split; [lia | done]. }
  apply NoDup_cons in Hnd as [Hfn Hnd].
  rewrite delete_model_step_spec.
  assert (Hother : ∀ p, p ≠ fn →
            bool_decide (p ∈ fn :: fns) = bool_decide (p ∈ fns)).
  { intros p Hne. apply bool_decide_ext. rewrite elem_of_cons.
    split; [by intros [?|?] | by right]. }
  assert (Hhere : bool_decide (fn ∈ fn :: fns) = true).
  { apply bool_decide_eq_true_2, elem_of_cons. by left. }
  destruct (Engine.is_model_file fn) eqn:Hm.
  - destruct (IH (count + default 0 (fs !! fn))%N (delete fn fs) Hnd) as [Hcount Hfs].
    split.
    + rewrite Hcount. rewrite filter_cons_True by done. simpl.
      rewrite files_size_delete; [lia |].
      intros [_ Hin]%list_elem_of_filter. by apply Hfn.
    + intros p. rewrite Hfs.
      destruct (decide (p = fn)) as [->|Hne].
      * rewrite Hhere, Hm. simpl.
        rewrite lookup_delete_eq. by destruct (_ && _).
      * rewrite lookup_delete_ne by done. by rewrite Hother.
  - destruct (IH count fs Hnd) as [Hcount Hfs]. split.
    + rewrite Hcount. by rewrite filter_cons_False by congruence.
    + intros p. rewrite Hfs.
      destruct (decide (p = fn)) as [->|Hne].
      * rewrite Hm. by rewrite !andb_false_r.
      * by rewrite Hother.
Qed.

Lemma NoDup_glob_star fs filename : NoDup (glob_star fs filename).
Proof. unfold glob_star. apply NoDup_filter, NoDup_fst_map_to_list. Qed.

Lemma elem_of_glob_star fs filename p :
  p ∈ glob_star fs filename ↔ glob_match filename p = true ∧ is_Some (fs !! p).
Proof.
  unfold glob_star. rewrite list_elem_of_filter, list_elem_of_fmap. split.
  - intros (Hm & [p' size] & -> & Hin). split; [done |].
    apply elem_of_map_to_list in Hin. by eexists.
  - intros (Hm & size & Hp). split; [done |].
    exists (p, size). split; [done |]. by apply elem_of_map_to_list.
Qed.

Lemma glob_match_startswith filename p :
  glob_match filename p = true → startswith filename p = true.
Proof.
  unfold glob_match. intros Hm.
  by apply andb_true_iff in Hm as [[Hs _]%andb_true_iff _].
Qed.

(** [delete_model] in terms of the files it removes. *)
Lemma delete_model_spec filename fs :
  Engine.delete_model filename fs
  = if bool_decide (is_Some (fs !! (filename +:+ ".index"))) then
      let total := Engine.files_size fs (Engine.deleted_files fs filename) in
      let fs' := (foldl Engine.delete_model_step (0%N, fs)
                        (glob_star fs filename)).2 in
      if (0 <? total)%N then (Ok total, fs') else (Raise AssertionError, fs')
    else (Raise AssertionError, fs).
Proof.
  unfold Engine.delete_model.
  destruct (bool_decide (is_Some (fs !! (filename +:+ ".index")))); simpl; [| done].
  destruct (delete_loop_spec (glob_star fs filename) 0%N fs
              (NoDup_glob_star fs filename)) as [Hcount _].
  rewrite Hcount. unfold Engine.deleted_files. by rewrite N.add_0_l.
Qed.

Lemma delete_model_lookup filename fs p :
  (Engine.delete_model filename fs).2 !! p
  = if bool_decide (is_Some (fs !! (filename +:+ ".index")))
       && glob_match filename p && Engine.is_model_file p
    then None else fs !! p.
Proof.
  rewrite delete_model_spec.
  destruct (bool_decide (is_Some (fs !! (filename +:+ ".index")))); [| done].
  destruct (delete_loop_spec (glob_star fs filename) 0%N fs
              (NoDup_glob_star fs filename)) as [_ Hfs].
  assert (Hp : (let total := Engine.files_size fs (Engine.deleted_files fs filename) in
                let fs' := (foldl Engine.delete_model_step (0%N, fs)
                              (glob_star fs filename)).2 in
                if (0 <? total)%N then (Ok total, fs')
                else (Raise AssertionError, fs')).2 !! p
               = (foldl Engine.delete_model_step (0%N, fs)
                        (glob_star fs filename)).2 !! p).
  { cbv zeta. by destruct (0 <? _)%N. }
  rewrite Hp, Hfs. simpl.
  destruct (Engine.is_model_file p); [| by rewrite !andb_false_r].
  rewrite !andb_true_r.
  destruct (glob_match filename p) eqn:Hm.
  - destruct (fs !! p) as [size|] eqn:Hfsp.
    + rewrite bool_decide_eq_true_2; [done |].
      apply elem_of_glob_star. split; [done | by eexists].
    + by destruct (bool_decide _).
  - rewrite bool_decide_eq_false_2; [done |].
    intros [Hm' _]%elem_of_glob_star. congruence.
Qed.

Lemma is_model_file_ext p :
  Engine.is_model_file p = true
  ↔ splitext_ext p = ".index" ∨ splitext_ext p = ".meta"
    ∨ startswith ".data" (splitext_ext p) = true.
Proof.
  unfold Engine.is_model_file.
  rewrite orb_true_iff, bool_decide_eq_true, !elem_of_cons, elem_of_nil.
  tauto.
Qed.

(** C8.  For a filename that [glob] takes literally, [delete_model]
    fails on its assertions, and changes nothing, when the index file of
    the model is missing; it fails as well when none of the files it
    looks at is a file of the model; when it returns, it returns the
    accumulated size of the files it removed, which is positive, so it
    never returns 0. *)
Theorem delete_model_asserts filename fs :
  literal_filename filename = true →
  (fs !! (filename +:+ ".index") = None →
   Engine.delete_model filename fs = (Raise AssertionError, fs))
  ∧ (Engine.deleted_files fs filename = [] →
     (Engine.delete_model filename fs).1 = Raise AssertionError)
  ∧ (∀ count_bytes, (Engine.delete_model filename fs).1 = Ok count_bytes →
       count_bytes = Engine.files_size fs (Engine.deleted_files fs filename)
       ∧ (0 < count_bytes)%N
       ∧ Forall (λ fn, is_Some (fs !! fn)
                       ∧ (Engine.delete_model filename fs).2 !! fn = None)
                (Engine.deleted_files fs filename))
  ∧ (Engine.delete_model filename fs).1 ≠ Ok 0%N.
Proof.
  intros _.
  assert (Hok : ∀ count_bytes,
            (Engine.delete_model filename fs).1 = Ok count_bytes →
            is_Some (fs !! (filename +:+ ".index"))
            ∧ count_bytes = Engine.files_size fs (Engine.deleted_files fs filename)
            ∧ (0 < count_bytes)%N).
  { intros count_bytes. rewrite delete_model_spec. case_bool_decide; [| done].
    cbv zeta. destruct (0 <? _)%N eqn:Hpos; [| done].
    intros [= <-]. by apply N.ltb_lt in Hpos. }
  split; [| split; [| split]].
  - intros Hindex. rewrite delete_model_spec.
    rewrite bool_decide_eq_false_2; [done |]. rewrite Hindex. by intros [??].
  - intros Hnone. rewrite delete_model_spec. case_bool_decide; [| done].
    cbv zeta. by rewrite Hnone.
  - intros count_bytes Hcount. destruct (Hok _ Hcount) as (Hindex & -> & Hpos).
    split; [done |]. split; [done |].
    apply Forall_forall. intros fn [Hm [Hglob Hfn]%elem_of_glob_star]%list_elem_of_filter.
    split; [done |]. rewrite delete_model_lookup.
    by rewrite bool_decide_eq_true_2, Hglob, Hm.
  - intros Hzero. destruct (Hok _ Hzero) as (_ & _ & Hpos). lia.
Qed.


End DeleteFacts.

Lemma delete_model_asserts_witness :
  Engine.delete_model "net-model/network.005" Examples.checkpoint_files
  = (Raise AssertionError, Examples.checkpoint_files)
  ∧ (Engine.delete_model "net-model/network.004" Examples.checkpoint_files).1
    = Ok 8%N
  ∧ (0 < 8)%N.
Proof.
  split; [| split; [vm_compute; reflexivity |]].
  - apply (proj1 (DeleteFacts.delete_model_asserts
                    "net-model/network.005" Examples.checkpoint_files eq_refl)).
    vm_compute. reflexivity.
  - apply (proj1 (proj2 (proj2 (DeleteFacts.delete_model_asserts
                    "net-model/network.004" Examples.checkpoint_files eq_refl)))
             8%N).
    vm_compute. reflexivity.
Defined.



(** ** The retention policy *)

Module CleanupFacts.

(** *** Sorting *)

Lemma elem_of_sorted_insert {A} (leb : A → A → bool) (x y : A) (l : list A) :
  y ∈ sorted_insert leb x l ↔ y = x ∨ y ∈ l.
Proof.
  induction l as [|z l IH]; simpl.
  - rewrite list_elem_of_singleton, elem_of_nil. tauto.
  - destruct (leb x z); rewrite !elem_of_cons; [tauto |]. rewrite IH. tauto.
Qed.

Lemma elem_of_sorted {A} (leb : A → A → bool) (y : A) (l : list A) :
  y ∈ sorted leb l ↔ y ∈ l.
Proof.
  induction l as [|x l IH]; simpl; [done |].
  rewrite elem_of_sorted_insert, elem_of_cons, IH. tauto.
Qed.

(** An element that comes before all others is the first of the sorted
    list. *)
Lemma sorted_least_first `{EqDecision A} (leb : A → A → bool) (m : A) (l : list A) :
  m ∈ l →
  (∀ y, y ∈ l → leb m y = true) →
  (∀ y, y ∈ l → y ≠ m → leb y m = false) →
  ∃ rest, sorted leb l = m :: rest.
Proof.
  induction l as [|x l IH]; intros Hin Hle Hgt.
  { by apply elem_of_nil in Hin. }
  simpl. destruct (decide (x = m)) as [->|Hne].
  - destruct (sorted leb l) as [|h t] eqn:Hs; simpl; [by eauto |].
    assert (Hh : h ∈ l). { apply (elem_of_sorted leb). rewrite Hs. by left. }
    rewrite Hle by (by right). by eauto.
  - apply elem_of_cons in Hin as [Hin | Hin]; [congruence |].
    destruct IH as [rest Hrest]; [done | | |].
    + intros y Hy. apply Hle. by right.
    + intros y Hy. apply Hgt. by right.
    + rewrite Hrest. simpl. rewrite Hgt; [by eauto | by left | done].
Qed.

(** *** Minimum and maximum *)

Lemma Q_min_le (x : Q) (l : list Q) :
  (Q_min x l <= x)%Q ∧ ∀ y, y ∈ l → (Q_min x l <= y)%Q.
Proof.
  revert x. induction l as [|a l IH]; intros x; simpl.
  { split; [apply Qle_refl | by intros y ?%elem_of_nil]. }
  unfold Q_min in *. simpl.
  set (x' := match (a ?= x)%Q with Lt => a | _ => x end).
  destruct (IH x') as [Hx' Hl].
  assert (Hx : (x' <= x)%Q ∧ (x' <= a)%Q).
  { subst x'. destruct (a ?= x)%Q eqn:Hc.
    - apply Qeq_alt in Hc. split; [apply Qle_refl |]. rewrite Hc. apply Qle_refl.
    - apply Qlt_alt in Hc. split; [by apply Qlt_le_weak | apply Qle_refl].
    - apply Qgt_alt in Hc. split; [apply Qle_refl | by apply Qlt_le_weak]. }
  split.
  - eapply Qle_trans; [exact Hx' | apply Hx].
  - intros y [-> | Hy]%elem_of_cons; [| by apply Hl].
    eapply Qle_trans; [exact Hx' | apply Hx].
Qed.

Lemma Q_max_ge (x : Q) (l : list Q) :
  (x <= Q_max x l)%Q ∧ ∀ y, y ∈ l → (y <= Q_max x l)%Q.
Proof.
  revert x. induction l as [|a l IH]; intros x; simpl.
  { split; [apply Qle_refl | by intros y ?%elem_of_nil]. }
  unfold Q_max in *. simpl.
  set (x' := match (a ?= x)%Q with Gt => a | _ => x end).
  destruct (IH x') as [Hx' Hl].
  assert (Hx : (x <= x')%Q ∧ (a <= x')%Q).
  { subst x'. destruct (a ?= x)%Q eqn:Hc.
    - apply Qeq_alt in Hc. split; [apply Qle_refl |]. rewrite Hc. apply Qle_refl.
    - apply Qlt_alt in Hc. split; [apply Qle_refl | by apply Qlt_le_weak].
    - apply Qgt_alt in Hc. split; [by apply Qlt_le_weak | apply Qle_refl]. }
  split.
  - eapply Qle_trans; [apply Hx | exact Hx'].
  - intros y [-> | Hy]%elem_of_cons; [| by apply Hl].
    eapply Qle_trans; [apply Hx | exact Hx'].
Qed.

(** Scores that differ somewhere tell epochs apart. *)
Lemma Q_min_max_differ (x : Q) (l : list Q) (lo hi : Q) :
  lo ∈ x :: l → hi ∈ x :: l → (lo < hi)%Q →
  Qeq_bool (Q_min x l) (Q_max x l) = false.
Proof.
  intros Hlo Hhi Hlt.
  destruct (Qeq_bool (Q_min x l) (Q_max x l)) eqn:Heq; [| done].
  apply Qeq_bool_iff in Heq.
  assert (Hmin : (Q_min x l <= lo)%Q).
  { destruct (Q_min_le x l) as [H1 H2].
    apply elem_of_cons in Hlo as [-> | Hlo]; auto. }
  assert (Hmax : (hi <= Q_max x l)%Q).
  { destruct (Q_max_ge x l) as [H1 H2].
    apply elem_of_cons in Hhi as [-> | Hhi]; auto. }
  exfalso. apply (Qlt_irrefl lo).
  eapply Qlt_le_trans; [exact Hlt |].
  eapply Qle_trans; [exact Hmax |]. rewrite <- Heq. exact Hmin.
Qed.

Lemma sorted_Permutation {A} (leb : A → A → bool) (l : list A) :
  sorted leb l ≡ₚ l.
Proof.
  induction l as [|x l IH]; simpl; [done |].
  rewrite <- IH at 2. generalize (sorted leb l). clear.
  intros s. induction s as [|y s IHs]; simpl; [done |].
  destruct (leb x y); [done |]. rewrite IHs. apply Permutation_swap.
Qed.

Lemma sorted_nat_Sorted (l : list nat) : Sorted le (sorted Nat.leb l).
Proof.
  induction l as [|x l IH]; simpl; [constructor |].
  revert IH. generalize (sorted Nat.leb l). intros s Hs.
  induction s as [|y s IHs]; simpl; [by repeat constructor |].
  destruct (Nat.leb_spec x y) as [Hle | Hlt].
  - constructor; [done |]. by constructor.
  - apply Sorted_inv in Hs as [Hs Hhd]. constructor; [by apply IHs |].
    destruct s as [|z s]; simpl.
    + constructor. lia.
    + destruct (Nat.leb_spec x z); constructor; [lia |].
      by apply HdRel_inv in Hhd.
Qed.

(** Sorting a list of epochs gives the ascending list of its elements. *)
Lemma sorted_nat_unique (l l' : list nat) :
  l ≡ₚ l' → Sorted le l' → sorted Nat.leb l = l'.
Proof.
  intros Hperm Hsorted. apply (Sorted_unique le); [apply sorted_nat_Sorted | done |].
  by rewrite sorted_Permutation.
Qed.

(** *** The default keep pattern *)

(** The loops of the default pattern are left by their [break]: the
    rounds allowed for are enough to collect every value up to [last]. *)
Lemma count_loop_spec (fuel : nat) (f : nat → nat) (last i : nat)
    (pattern : gset nat) (n : nat) :
  (∀ j, j ≤ f j)%nat → (∀ j j', j ≤ j' → f j ≤ f j')%nat →
  (last < i + fuel)%nat →
  n ∈ Engine.count_loop fuel f last i pattern
  ↔ n ∈ pattern ∨ ∃ j, (i ≤ j)%nat ∧ n = f j ∧ (f j ≤ last)%nat.
Proof.
  intros Hinfl Hmono. revert i pattern.
  induction fuel as [|fuel IH]; intros i pattern Hfuel; simpl.
  - split; [by left |]. intros [Hn | (j & Hj & -> & Hlast)]; [done |].
    pose proof (Hinfl j). lia.
  - destruct (Nat.ltb_spec last (f i)) as [Hbreak | Hadd].
    + split; [by left |]. intros [Hn | (j & Hj & -> & Hlast)]; [done |].
      pose proof (Hmono i j Hj). lia.
    + rewrite IH by lia. rewrite elem_of_union, elem_of_singleton. split.
      * intros [[-> | Hn] | (j & Hj & -> & Hlast)].
        -- right. exists i. by repeat split.
        -- by left.
        -- right. exists j. repeat split; [lia | done].
      * intros [Hn | (j & Hj & -> & Hlast)]; [by left; right |].
        destruct (decide (j = i)) as [-> | Hne]; [by left; left |].
        right. exists j. repeat split; [lia | done].
Qed.

Lemma default_keep_pattern_spec (last n : nat) :
  n ∈ Engine.default_keep_pattern last
  ↔ (∃ i, (1 ≤ i)%nat ∧ n = ((Engine.keep_table last).1 * i)%nat ∧ (n ≤ last)%nat)
    ∨ (∃ i, n = ((Engine.keep_table last).2 * 2 ^ i)%nat ∧ (n ≤ last)%nat).
Proof.
  unfold Engine.default_keep_pattern.
  assert (Hpos : (1 ≤ (Engine.keep_table last).1 ∧ 1 ≤ (Engine.keep_table last).2)%nat).
  { unfold Engine.keep_table. repeat case_match; simpl; lia. }
  destruct (Engine.keep_table last) as [keep_every keep_doubles_of].
  simpl in Hpos. destruct Hpos as [Hevery Hdoubles].
  cbv beta iota zeta. change ((keep_every, keep_doubles_of).1) with keep_every.
  change ((keep_every, keep_doubles_of).2) with keep_doubles_of.
  rewrite count_loop_spec; [| | | lia].
  - rewrite count_loop_spec; [| | | lia].
    + rewrite elem_of_empty. split.
      * intros [[[] | (j & Hj & -> & Hlast)] | (j & _ & -> & Hlast)]; eauto.
      * intros [(j & Hj & -> & Hlast) | (j & -> & Hlast)].
        -- left. right. eauto.
        -- right. exists j. repeat split; [lia | done].
    + intros j. nia.
    + intros j j' Hj. nia.
  - intros j. pose proof (Nat.pow_gt_lin_r 2 j). nia.
  - intros j j' Hj.
    pose proof (Nat.pow_le_mono_r 2 j j'). nia.
Qed.

(** *** Twelve epochs with a falling score *)

Lemma score_keys_single (epoch_data : gmap nat (gmap string Q)) (key : string) :
  epoch_data ≠ ∅ →
  (∀ e data, epoch_data !! e = Some data → dom data = {[key]}) →
  map_fold (λ (_ : nat) (data : gmap string Q) (keys : gset string),
              keys ∪ dom data) ∅ epoch_data
  = {[key]}.
Proof.
  intros Hne Hkeys.
  apply (map_fold_weak_ind
           (λ (r : gset string) (m : gmap nat (gmap string Q)),
              (∀ e data, m !! e = Some data → dom data = {[key]}) →
              (m = ∅ → r = ∅) ∧ (m ≠ ∅ → r = {[key]}))
           (λ (_ : nat) (data : gmap string Q) (keys : gset string),
              keys ∪ dom data) ∅); [| | exact Hkeys | exact Hne].
  - intros _. by split.
  - intros e data m r Hnone IH Hall. split.
    { intros Hempty. by apply insert_non_empty in Hempty. }
    intros _. rewrite (Hall e data) by apply lookup_insert_eq.
    destruct IH as [IHempty IHfull].
    { intros e' data' He'. apply (Hall e').
      rewrite lookup_insert_ne; [done |]. intros ->. congruence. }
    destruct (decide (m = ∅)) as [Hm | Hm].
    + rewrite (IHempty Hm). apply (left_id_L ∅ (∪)).
    + rewrite (IHfull Hm). apply (idemp_L (∪)).
Qed.

Lemma mapM_epoch_errors (epoch_data : gmap nat (gmap string Q))
    (error : nat → gmap string Q) (epochs : list nat) :
  (∀ e, e ∈ epochs → epoch_data !! e = Some (error e)) →
  mapM (λ epoch,
          match epoch_data !! epoch with
          | Some error => Ok (epoch, error)
          | None => Raise KeyError
          end) epochs
  = Ok ((λ e, (e, error e)) <$> epochs).
Proof.
  induction epochs as [|e epochs IH]; intros Hall; [done |].
  simpl. rewrite Hall by (apply elem_of_cons; by left). simpl.
  rewrite IH; [done |]. intros e' He'. apply Hall, elem_of_cons. by right.
Qed.

Lemma single_key_score_values (key : string) (score : nat → Q) (epochs : list nat) :
  omap (λ ee : nat * gmap string Q, ee.2 !! key)
       ((λ e, (e, ({[key := score e]} : gmap string Q))) <$> epochs)
  = score <$> epochs.
Proof.
  induction epochs as [|e epochs IH]; [done |].
  rewrite !fmap_cons. cbn [omap list_omap snd].
  rewrite lookup_singleton_eq. f_equal. exact IH.
Qed.

Lemma single_key_scores_epochs (key : string) (score : nat → Q) (worst : Q)
    (epochs : list nat) :
  (λ ee : nat * gmap string Q, (default worst (ee.2 !! key), ee.1))
    <$> ((λ e, (e, ({[key := score e]} : gmap string Q))) <$> epochs)
  = (λ e, (score e, e)) <$> epochs.
Proof.
  induction epochs as [|e epochs IH]; [done |].
  rewrite !fmap_cons. cbn [fst snd].
  rewrite lookup_singleton_eq. f_equal. exact IH.
Qed.

(** With a score that falls from epoch to epoch, the last epoch is the
    best one. *)
Lemma best_epoch_is_last (score : nat → Q) (n : nat) :
  (∀ i j, 1 ≤ i → i < j → j ≤ S n → (score j < score i)%Q)%nat →
  ∃ rest, sorted score_epoch_leb ((λ e, (score e, e)) <$> seq 1 (S n))
          = (score (S n), S n) :: rest.
Proof.
  intros Hfall. apply sorted_least_first.
  - apply list_elem_of_fmap. exists (S n). split; [done |].
    apply elem_of_seq. lia.
  - intros y (e & -> & He%elem_of_seq)%list_elem_of_fmap.
    unfold score_epoch_leb. simpl.
    destruct (decide (e = S n)) as [-> | Hne].
    + rewrite (proj1 (Qeq_alt _ _) (Qeq_refl _)). by apply Nat.leb_le.
    + by rewrite (proj1 (Qlt_alt _ _) (Hfall e (S n) ltac:(lia) ltac:(lia) ltac:(lia))).
  - intros y (e & -> & He%elem_of_seq)%list_elem_of_fmap Hy.
    assert (Hne : e ≠ S n) by congruence.
    unfold score_epoch_leb. simpl.
    by rewrite (proj1 (Qgt_alt _ _) (Hfall e (S n) ltac:(lia) ltac:(lia) ltac:(lia))).
Qed.

Lemma keep_epochs_twelve (epoch_data : gmap nat (gmap string Q)) (key : string)
    (score : nat → Q) :
  (∀ e, (1 ≤ e ≤ 12)%nat → epoch_data !! e = Some {[key := score e]}) →
  (∀ e data, epoch_data !! e = Some data → dom data = {[key]}) →
  (∀ i j, 1 ≤ i → i < j → j ≤ 12 → (score j < score i)%Q)%nat →
  Engine.keep_epochs_of Examples.keep_2_1 (seq 1 12) epoch_data
  = Ok (list_to_set [5; 10; 11; 12]%nat).
Proof.
  intros Hdata Hkeys Hfall. unfold Engine.keep_epochs_of.
  rewrite (score_keys_single epoch_data key); [| | done].
  2:{ intros Hempty. specialize (Hdata 1%nat ltac:(lia)).
      by rewrite Hempty, lookup_empty in Hdata. }
  rewrite bool_decide_eq_false_2.
  2:{ intros Hempty. apply (f_equal size) in Hempty.
      by rewrite size_singleton, size_empty in Hempty. }
  rewrite elements_singleton.
  rewrite (mapM_epoch_errors epoch_data (λ e, {[key := score e]})).
  2:{ intros e He%elem_of_seq. apply Hdata. lia. }
  cbn [assert negb mbind result_bind sorted foldr sorted_insert].
  cbv zeta.
  set (errors := (λ e : nat, (e, ({[key := score e]} : gmap string Q))) <$> seq 1 12).
  set (score_values := λ key0 : string,
         omap (λ ee : nat * gmap string Q, ee.2 !! key0) errors).
  assert (Hvalues : score_values key = score <$> seq 1 12).
  { apply single_key_score_values. }
  assert (Hdiscr : Engine.discriminating_keys score_values [key] = Ok [key]).
  { cbn [Engine.discriminating_keys]. rewrite Hvalues.
    change (score <$> seq 1 12) with (score 1%nat :: (score <$> seq 2 11)).
    cbn [mbind result_bind].
    rewrite (Q_min_max_differ _ _ (score 12%nat) (score 1%nat)); [done | | |].
    - apply (list_elem_of_fmap_2 score (seq 1 12) 12%nat), elem_of_seq. lia.
    - apply elem_of_cons. by left.
    - apply Hfall; lia. }
  assert (Hbest : Engine.best_epochs errors score_values
                    (Z.to_nat (default 4 (Engine.keep_best_n Examples.keep_2_1)))
                    key = [12%nat]).
  { unfold Engine.best_epochs. rewrite Hvalues.
    change (score <$> seq 1 12) with (score 1%nat :: (score <$> seq 2 11)).
    cbv beta iota zeta. subst errors. rewrite single_key_scores_epochs.
    destruct (best_epoch_is_last score 11 Hfall) as [rest ->]. done. }
  rewrite Hdiscr. cbn [mbind result_bind foldl]. rewrite Hbest.
  vm_compute. reflexivity.
Qed.

Lemma Sorted_seq (start n : nat) : Sorted le (seq start n).
Proof.
  revert start. induction n as [|n IH]; intros start; simpl.
  - constructor.
  - constructor; [apply IH |]. destruct n; simpl; constructor. lia.
Qed.

Lemma epochs_of_models (existing_models : gmap nat string) (n : nat) :
  dom existing_models = list_to_set (seq 1 n) →
  sorted Nat.leb (map_to_list existing_models).*1 = seq 1 n.
Proof.
  intros Hdom. apply sorted_nat_unique.
  - apply NoDup_Permutation.
    + apply NoDup_fst_map_to_list.
    + apply NoDup_seq.
    + intros e. rewrite <- (elem_of_list_to_set (C:=gset nat) e (seq 1 n)), <- Hdom.
      rewrite elem_of_dom, list_elem_of_fmap. split.
      * intros ([e' x] & -> & Hin). apply elem_of_map_to_list in Hin. by eexists.
      * intros [x Hx]. exists (e, x). split; [done |].
        by apply elem_of_map_to_list.
  - apply Sorted_seq.
Qed.

(** *** The loop over the models to remove *)

(** Two prefixes of a string are prefixes of one another. *)
Lemma startswith_both (a b s : string) :
  startswith a s = true → startswith b s = true →
  startswith a b = true ∨ startswith b a = true.
Proof.
  unfold startswith. revert a b.
  induction s as [|c s IH]; intros a b Ha Hb.
  - destruct a; [| done]. left. by destruct b.
  - destruct a as [|x a]; [left; by destruct b |].
    destruct b as [|y b]; [by right |].
    simpl in *.
    destruct (ascii_dec x c) as [-> |]; [| done].
    destruct (ascii_dec y c) as [-> |]; [| done].
    destruct (ascii_dec c c) as [_ |]; [| done]. by apply IH.
Qed.

Lemma files_size_elem fs fn fns (size : N) :
  fn ∈ fns → fs !! fn = Some size → (size ≤ Engine.files_size fs fns)%N.
Proof.
  induction fns as [|fn' fns IH]; intros Hin Hsize.
  { by apply elem_of_nil in Hin. }
  simpl. apply elem_of_cons in Hin as [<- | Hin].
  - rewrite Hsize. simpl. lia.
  - specialize (IH Hin Hsize). lia.
Qed.

(** [delete_model] returns for a model with an index file. *)
Lemma delete_model_Ok filename fs :
  has_index_file fs filename = true →
  ∃ count_bytes,
    Engine.delete_model filename fs
    = (Ok count_bytes, (Engine.delete_model filename fs).2)
    ∧ (0 < count_bytes)%N
    ∧ ∀ p, (Engine.delete_model filename fs).2 !! p
           = if glob_match filename p && Engine.is_model_file p then None
             else fs !! p.
Proof.
  unfold has_index_file.
  intros [[Hsize%N.ltb_lt Hglob]%andb_true_iff Hfile]%andb_true_iff.
  destruct (fs !! (filename +:+ ".index")) as [size|] eqn:Hindex; [| simpl in Hsize; lia].
  simpl in Hsize.
  assert (Hsome : bool_decide (is_Some (fs !! (filename +:+ ".index"))) = true).
  { apply bool_decide_eq_true_2. by rewrite Hindex. }
  assert (Hpos : (0 < Engine.files_size fs (Engine.deleted_files fs filename))%N).
  { eapply N.lt_le_trans; [exact Hsize |].
    apply (files_size_elem fs (filename +:+ ".index")); [| done].
    apply list_elem_of_filter. split; [done |].
    apply DeleteFacts.elem_of_glob_star. split; [done |]. by rewrite Hindex. }
  exists (Engine.files_size fs (Engine.deleted_files fs filename)).
  split; [| split; [done |]].
  - rewrite DeleteFacts.delete_model_spec at 1. rewrite Hsome. cbv zeta.
    apply N.ltb_lt in Hpos. rewrite Hpos. f_equal.
    rewrite DeleteFacts.delete_model_spec, Hsome. cbv zeta. by rewrite Hpos.
  - intros p. by rewrite DeleteFacts.delete_model_lookup, Hsome.
Qed.

Lemma prefix_free_fmap (name : nat → string) (epochs : list nat) :
  NoDup epochs →
  (∀ e e', e ∈ epochs → e' ∈ epochs → e ≠ e' →
           startswith (name e) (name e') = false) →
  prefix_free (name <$> epochs).
Proof.
  induction epochs as [|e epochs IH]; intros Hnd Hfree; [done |].
  apply NoDup_cons in Hnd as [Hnotin Hnd]. simpl. split.
  - apply Forall_fmap, Forall_forall. intros e' He'. simpl.
    assert (e ≠ e') by (intros ->; done).
    split; apply Hfree; try done; try (by left); by right.
  - apply IH; [done |]. intros e1 e2 H1 H2. apply Hfree; by right.
Qed.

(** A file that extends one of two filenames of which none is a prefix
    of the other does not match the pattern of the other. *)
Lemma glob_match_other filename filename' p :
  startswith filename filename' = false →
  startswith filename' filename = false →
  startswith filename' p = true →
  glob_match filename p = false.
Proof.
  intros H1 H2 Hp. destruct (glob_match filename p) eqn:Hglob; [| done].
  apply DeleteFacts.glob_match_startswith in Hglob.
  destruct (startswith_both _ _ _ Hglob Hp); congruence.
Qed.

(** The loop of [cleanup_old_models] over models with index files of
    which no filename is a prefix of another: it deletes the files of
    all of them and returns. *)
Lemma delete_models_spec filenames (count_bytes : N) fs :
  prefix_free filenames →
  Forall (λ filename, has_index_file fs filename = true) filenames →
  ∃ total,
    Engine.delete_models filenames count_bytes fs
    = (Ok total, (Engine.delete_models filenames count_bytes fs).2)
    ∧ (count_bytes ≤ total)%N
    ∧ (filenames ≠ [] → (count_bytes < total)%N)
    ∧ ∀ p, (Engine.delete_models filenames count_bytes fs).2 !! p
           = if existsb (λ filename, glob_match filename p
                                     && Engine.is_model_file p) filenames
             then None else fs !! p.
Proof.
  revert count_bytes fs.
  induction filenames as [|filename rest IH]; intros count_bytes fs Hfree Hindex.
  { exists count_bytes. simpl. split; [done |]. split; [lia |]. done. }
  destruct Hfree as [Hothers Hfree].
  apply Forall_cons in Hindex as [Hhere Hindex].
  destruct (delete_model_Ok filename fs Hhere) as (n & Hdel & Hn & Hfs).
  simpl. rewrite Hdel.
  set (fs1 := (Engine.delete_model filename fs).2) in *.
  assert (Hindex1 : Forall (λ filename', has_index_file fs1 filename' = true) rest).
  { apply Forall_forall. intros filename' Hin.
    pose proof (proj1 (Forall_forall _ _) Hindex filename' Hin) as Hok.
    pose proof (proj1 (Forall_forall _ _) Hothers filename' Hin) as [H1 H2].
    unfold has_index_file in *. rewrite Hfs.
    rewrite (glob_match_other filename filename'); [done | done | done |].
    apply prefix_app. }
  destruct (IH (count_bytes + n)%N fs1 Hfree Hindex1) as (total & Hrest & Hle & _ & Hfs').
  exists total. split; [| split; [lia | split; [intros _; lia |]]].
  - rewrite Hrest at 1. done.
  - intros p. rewrite Hfs', Hfs.
    destruct (glob_match filename p && Engine.is_model_file p); simpl; [| done].
    by destruct (existsb _ rest).
Qed.

Lemma omap_lookup_fmap (existing_models : gmap nat string) (epochs : list nat) :
  (∀ e, e ∈ epochs → is_Some (existing_models !! e)) →
  omap (λ epoch, existing_models !! epoch) epochs
  = (λ epoch, default "" (existing_models !! epoch)) <$> epochs.
Proof.
  induction epochs as [|e epochs IH]; intros Hall; [done |].
  destruct (Hall e) as [filename Hfilename]; [by left |].
  simpl. rewrite Hfilename. simpl. f_equal.
  apply IH. intros e' He'. apply Hall. by right.
Qed.


End CleanupFacts.


(** On a Horovod worker of rank 1 the cleanup of the twelve models
    returns at once, without [dry_run]: the model of epoch 1 is still
    there. *)
Lemma cleanup_twelve_epochs_counterexample :
  let self := Examples.engine Examples.horovod_config Examples.second_worker in
  dry_run (Engine.config self) = false
  ∧ Engine.cleanup_old_models self Examples.keep_2_1
      Examples.twelve_models Examples.twelve_scores false false
      CleanupExamples.twelve_files
    = (Ok Engine.NotSaving, CleanupExamples.twelve_files)
  ∧ CleanupExamples.twelve_files !! "net-model/network.001.index" = Some 1%N.
Proof.
  split; [reflexivity |]. split; [reflexivity |]. vm_compute. reflexivity.
Qed.

(** ** The fetch set *)

Module FetchSetFacts.
Import FetchSet.

(** ** Calls outside the engine *)

Section OpFacts.
Context {W : Type}.
Variable reach : relation W.
Hypothesis Hpo : PreOrder reach.

Lemma cached_extends {R} (c : op W R) : cached reach c → extends reach c.
Proof. intros Hc w r w1 E. by apply (Hc w w r w1). Qed.

Lemma op_ret_cached {R} (r : R) : cached reach (op_ret (W:=W) r).
Proof.
  intros w0 w r' w1 _ E. unfold op_ret in *. by inversion E; subst.
Qed.

Lemma op_bind_extends {R R'} (c : op W R) (k : R → op W R') :
  extends reach c → (∀ r, extends reach (k r)) → extends reach (op_bind c k).
Proof.
  intros Hc Hk w r w1 E. unfold op_bind in E.
  destruct (c w) as [r0 w0] eqn:E0.
  etrans; [by eapply Hc | by eapply Hk].
Qed.

Lemma op_fmap_cached {R R'} (c : op W R) (f : R → R') :
  cached reach c → cached reach (op_bind c (λ t, op_ret (f t))).
Proof.
  intros Hc w0 w r w1 Hw0 E. unfold op_bind, op_ret in *.
  destruct (c w) as [r0 w'] eqn:E0. inversion E; subst.
  destruct (Hc _ _ _ _ Hw0 E0) as [Hr Hst]. split; [done |].
  intros w2 Hr2. by rewrite (Hst _ Hr2).
Qed.

End OpFacts.

Section FetchSetFacts.
Context {obj W : Type}.
Variable config : Config.
Variable tf_log_memory_usage : bool.
Variable net : collaborators obj W.
Variable self : runner obj.
Variable reach : relation W.
Hypothesis Hnet : cached_collaborators net reach.

Local Abbreviation state_le := (FetchSet.state_le net reach).
Local Abbreviation cached_M := (FetchSet.cached_M net reach).

Lemma reach_refl w : reach w w.
Proof. destruct Hnet as [Hpo]. apply Hpo. Qed.

Lemma reach_trans w1 w2 w3 : reach w1 w2 → reach w2 w3 → reach w1 w3.
Proof. destruct Hnet as [Hpo]. apply Hpo. Qed.

Lemma no_summaries_mono w w' :
  reach w w' → no_summaries net reach w → no_summaries net reach w'.
Proof. intros Hr Hn w2 Hr2. apply Hn. by eapply reach_trans. Qed.

Lemma state_le_refl s : state_le s s.
Proof. split; [apply reach_refl | split; [done | by left]]. Qed.

Lemma state_le_trans s1 s2 s3 : state_le s1 s2 → state_le s2 s3 → state_le s1 s3.
Proof.
  intros (Hr1 & Hc1 & Hm1) (Hr2 & Hc2 & Hm2).
  split; [by eapply reach_trans | split; [by etrans |]].
  destruct Hm1 as [Hm1 | Hm1]; [| by right].
  destruct Hm2 as [Hm2 | [Hm2 Hn]]; [left; congruence |].
  right. split; [congruence |].
  intros Hn1. apply Hn. by eapply no_summaries_mono.
Qed.

Lemma reduce_sum_cached x name average :
  cached reach (reduce_sum config net x name average).
Proof.
  unfold reduce_sum. destruct (negb (use_horovod config)).
  - apply op_ret_cached, (reach_preorder Hnet).
  - apply op_fmap_cached, (global_tensor_cached Hnet),
      (hvd_allreduce_extends Hnet).
Qed.

Lemma inv_reduce_sum_cached x name :
  cached reach (inv_reduce_sum config net x name).
Proof.
  unfold inv_reduce_sum. destruct (negb (use_horovod config)) eqn:E.
  - apply op_ret_cached, (reach_preorder Hnet).
  - apply op_fmap_cached, (global_tensor_cached Hnet).
    apply op_bind_extends;
      [apply (reach_preorder Hnet) | apply (tf_reciprocal_extends Hnet) |].
    intros a. apply op_bind_extends; [apply (reach_preorder Hnet) | |].
    + apply cached_extends; [apply (reach_preorder Hnet) |].
      apply reduce_sum_cached.
    + intros b. apply (tf_reciprocal_extends Hnet).
Qed.

(** ** Computations of the engine *)

Lemma cached_M_weaken {R} w0 w0' (c : M obj W R) :
  reach w0 w0' → cached_M w0 c → cached_M w0' c.
Proof. intros Hr Hc s r s1 Hs. apply Hc. by eapply reach_trans. Qed.

Lemma cached_M_ret {R} w0 (r : R) : cached_M w0 (ret r).
Proof.
  intros s r' s1 _ E. unfold ret in *. inversion E; subst.
  split; [apply state_le_refl | done].
Qed.

Lemma cached_M_raise {R} w0 e : cached_M w0 (raise (R:=R) e).
Proof.
  intros s r' s1 _ E. unfold raise in *. inversion E; subst.
  split; [apply state_le_refl | done].
Qed.

Lemma cached_M_bind_after {R R'} w0 (c : M obj W R) (k : R → M obj W R') :
  cached_M w0 c →
  (∀ s r s', reach w0 (world s) → reach w0 (world s') → c s = (Ok r, s') →
     cached_M (world s') (k r)) →
  cached_M w0 (bind c k).
Proof.
  intros Hc Hk s r s1 Hs E. unfold bind in E.
  destruct (c s) as [[r0 | e] s'] eqn:E0.
  - destruct (Hc _ _ _ Hs E0) as [Hle Hst].
    assert (Hs' : reach w0 (world s')).
    { eapply reach_trans; [done | apply Hle]. }
    destruct (Hk _ _ _ Hs Hs' E0 _ _ _ (reach_refl _) E) as [Hle' Hst'].
    split; [by eapply state_le_trans |].
    intros s2 Hle2. unfold bind.
    rewrite (Hst s2); [by apply Hst' |]. by eapply state_le_trans.
  - inversion E; subst. destruct (Hc _ _ _ Hs E0) as [Hle Hst].
    split; [done |]. intros s2 Hle2. unfold bind. by rewrite (Hst s2).
Qed.

Lemma cached_M_bind {R R'} w0 (c : M obj W R) (k : R → M obj W R') :
  cached_M w0 c → (∀ r, cached_M w0 (k r)) → cached_M w0 (bind c k).
Proof.
  intros Hc Hk. apply cached_M_bind_after; [done |].
  intros s r s' _ Hs' _. by eapply cached_M_weaken.
Qed.

Lemma call_inv {R} (c : op W R) (s : state obj W) r s' :
  call c s = (r, s') → ∃ r', r = Ok r' ∧ c (world s) = (r', world s').
Proof.
  unfold call. destruct (c (world s)) as [r' w] eqn:E.
  intros E'. inversion E'; subst. by exists r'.
Qed.

Lemma cached_M_call {R} w0 (c : op W R) : cached_at reach w0 c → cached_M w0 (call c).
Proof.
  intros Hc s r s1 Hs E. unfold call in *.
  destruct (c (world s)) as [r' w] eqn:E0. inversion E; subst.
  destruct (Hc _ _ _ Hs E0) as [Hr Hst].
  split; [split; [done | split; [done | by left]] |].
  intros s2 (Hr2 & _ & _). simpl in Hr2. rewrite (Hst _ Hr2). by destruct s2.
Qed.

Lemma cached_M_for_each {A D} w0 (l : list A) (body : A → D → M obj W D) :
  Forall (λ x, ∀ d, cached_M w0 (body x d)) l →
  ∀ d, cached_M w0 (for_each l body d).
Proof.
  induction 1 as [| x l Hx _ IH]; intros d; simpl.
  - apply cached_M_ret.
  - apply cached_M_bind; [apply Hx | apply IH].
Qed.

Lemma get_const_tensor_cached w0 key : cached_M w0 (get_const_tensor net key).
Proof.
  intros s r s1 _ E. unfold get_const_tensor in *.
  destruct (_const_cache s !! key) as [t |] eqn:Ek.
  - inversion E; subst. split; [apply state_le_refl |].
    intros s2 (_ & Hc & _).
    by rewrite (lookup_weaken _ _ _ _ Ek Hc).
  - destruct (tf_constant net ("const_" +:+ key) (world s)) as [t w] eqn:Et.
    inversion E; subst. split.
    + split; [by eapply (tf_constant_extends Hnet) |].
      split; [by apply insert_subseteq | by left].
    + intros s2 (_ & Hc & _). simpl in Hc.
      by rewrite (lookup_weaken _ (_const_cache s2) key t (lookup_insert_eq _ _ _) Hc).
Qed.

Lemma get_all_merged_summaries_cached w0 :
  cached_M w0 (get_all_merged_summaries net).
Proof.
  intros s r s1 _ E. unfold get_all_merged_summaries in *.
  destruct (_merge_all_summaries s) as [t |] eqn:Em.
  - inversion E; subst. split; [apply state_le_refl |].
    intros s2 (_ & _ & [Hm | [Hm _]]); [| congruence].
    by rewrite <- Hm, Em.
  - destruct (merge_all net (world s)) as [r' w] eqn:Ea. inversion E; subst.
    pose proof (merge_all_extends Hnet _ _ _ Ea) as Hr.
    destruct r' as [t |].
    + split.
      * split; [done | split; [done |]]. right. split; [done |].
        intros Hn. specialize (Hn _ (reach_refl _)). congruence.
      * intros s2 (_ & _ & [Hm | [Hm _]]); simpl in Hm; [| congruence].
        by rewrite <- Hm.
    + pose proof (summaries_never_change Hnet _ _ Ea) as Hn. split.
      * split; [done | split; [done | by left]].
      * intros s2 (Hr2 & _ & Hm). simpl in Hr2, Hm.
        destruct Hm as [Hm | [_ Hm]]; [| done].
        rewrite <- Hm, (Hn _ Hr2). destruct s2; simpl in *. by subst.
Qed.

Lemma get_optim_op_with_callback_cached w0 :
  cached_M w0 (get_optim_op_with_callback net).
Proof.
  intros s r s1 _ E. unfold get_optim_op_with_callback in *.
  destruct (get_optim_op net (init_optimizer_vars net) (world s))
    as [[t new] w] eqn:Eo.
  inversion E; subst.
  destruct (get_optim_op_cached Hnet _ _ _ _ Eo) as [Hr Hst].
  split; [split; [done | split; [done | by left]] |].
  intros s2 (Hr2 & _ & _). simpl in Hr2. rewrite (Hst _ Hr2). by destruct s2.
Qed.

Lemma add_loss_cached w0 entry d :
  cached_loss reach w0 entry.2 → cached_M w0 (add_loss config net self entry d).
Proof.
  destruct entry as [loss_name l]. intros [Hv He Hf]. simpl in *.
  unfold add_loss.
  destruct (get_only_on_eval l && _should_train self); [apply cached_M_ret |].
  apply cached_M_bind; [by apply cached_M_call |]. intros value.
  apply cached_M_bind.
  { destruct value; [| apply cached_M_ret].
    apply cached_M_bind; [by apply cached_M_call |]. intros value2.
    apply cached_M_bind; [apply cached_M_call, reduce_sum_cached |].
    intros v. apply cached_M_ret. }
  intros d1. apply cached_M_bind; [by apply cached_M_call |]. intros value'.
  apply cached_M_bind.
  { destruct value'; [| apply cached_M_ret].
    apply cached_M_bind; [by apply cached_M_call |]. intros value2.
    apply cached_M_bind; [apply cached_M_call, reduce_sum_cached |].
    intros v. apply cached_M_ret. }
  intros d2. apply cached_M_bind; [by apply cached_M_call |]. intros factor.
  apply cached_M_bind; [apply cached_M_call, inv_reduce_sum_cached |].
  intros v. apply cached_M_ret.
Qed.

Lemma add_layer_target_sizes_cached w0 l d :
  cached_M w0 (add_layer_target_sizes (W:=W) self l d).
Proof.
  unfold add_layer_target_sizes.
  destruct (only_on_eval l && _should_train self); [apply cached_M_ret |].
  destruct (target l) as [t |]; [| apply cached_M_ret].
  destruct (startswith "layer:" t); [| apply cached_M_ret].
  destruct (loss_target_sizes l); [apply cached_M_ret | apply cached_M_raise].
Qed.

Lemma add_extra_fetch_cached w0 entry d :
  cached_M w0 (add_extra_fetch (W:=W) entry d).
Proof.
  destruct entry as [k []]; simpl;
    first [apply cached_M_ret | apply cached_M_raise].
Qed.

Lemma add_mem_usage_cached w0 dev d : cached_M w0 (add_mem_usage net dev d).
Proof.
  destruct dev as [device_type dev_name]. unfold add_mem_usage.
  destruct (negb (String.eqb device_type "GPU")); [apply cached_M_ret |].
  apply cached_M_bind; [apply cached_M_call, (mem_usage_for_dev_cached Hnet) |].
  intros v. apply cached_M_ret.
Qed.

(** The losses and the layers, once the objective is there. *)
Lemma losses_block_cached w r w0 loss d :
  get_objective net w = (r, w0) →
  cached_M w0
    (bind (call (reduce_sum config net loss "loss" true)) (λ v,
     let d := <["loss" := v]> d in
     bind (call (losses_dict net)) (λ losses,
     bind (for_each losses (add_loss config net self) d) (λ d,
     bind (call (layers net)) (λ ls,
     for_each ls (add_layer_target_sizes self) d))))).
Proof.
  intros Eo.
  apply cached_M_bind; [apply cached_M_call, reduce_sum_cached |]. intros v.
  cbv zeta. apply cached_M_bind_after.
  { apply cached_M_call, (losses_dict_cached Hnet _ _ _ Eo). }
  intros s losses s' Hs Hs' Ec. apply (cached_M_weaken w0); [done |].
  apply call_inv in Ec as (? & [= <-] & Ec).
  pose proof (losses_cached Hnet _ _ _ _ _ _ Eo Hs Ec) as Hls.
  apply cached_M_bind.
  { apply cached_M_for_each. eapply Forall_impl; [exact Hls |].
    intros entry He d'. by apply add_loss_cached. }
  intros d1. apply cached_M_bind; [apply cached_M_call, (layers_cached Hnet) |].
  intros ls. apply cached_M_for_each, Forall_forall.
  intros l _ d'. apply add_layer_target_sizes_cached.
Qed.

Lemma fetches_cached w0 :
  cached_M w0 (fetches config tf_log_memory_usage net self).
Proof.
  unfold fetches. cbv zeta. apply cached_M_bind.
  { destruct (_should_train self || _should_eval self); [| apply cached_M_ret].
    apply cached_M_bind_after.
    { apply cached_M_call, (get_objective_cached Hnet). }
    intros s loss s' _ _ Ec. apply call_inv in Ec as (? & [= <-] & Ec).
    apply cached_M_bind.
    - destruct loss as [loss |].
      + apply cached_M_bind.
        { apply cached_M_call, (losses_dict_cached Hnet _ _ _ Ec). }
        intros losses. destruct (bool_decide (losses = []));
          [apply cached_M_raise | apply cached_M_ret].
      + apply cached_M_bind; [apply get_const_tensor_cached |].
        intros t. apply cached_M_ret.
    - intros loss'. by eapply losses_block_cached. }
  intros d. apply cached_M_bind; [apply cached_M_call, (layers_cached Hnet) |].
  intros ls. apply cached_M_bind.
  { destruct (_should_train self); [| apply cached_M_ret].
    destruct (negb (updater net)); [apply cached_M_raise |].
    apply cached_M_bind_after; [apply get_optim_op_with_callback_cached |].
    intros s optim_op s' _ _ Ec. apply cached_M_bind.
    - apply cached_M_call. unfold get_optim_op_with_callback in Ec.
      destruct (get_optim_op net (init_optimizer_vars net) (world s))
        as [[t new] w] eqn:Eo.
      inversion Ec; subst. simpl.
      apply (optim_meta_losses_cached Hnet _ _ _ Eo).
    - intros meta. apply cached_M_ret. }
  intros d1. apply cached_M_bind.
  { destruct (extra_fetches self) as [extra |]; [| apply cached_M_ret].
    apply cached_M_for_each, Forall_forall.
    intros entry _ d'. apply add_extra_fetch_cached. }
  intros d2. apply cached_M_bind; [apply get_all_merged_summaries_cached |].
  intros summaries. apply cached_M_bind.
  { destruct summaries; [| apply cached_M_ret].
    apply cached_M_bind; [apply get_all_merged_summaries_cached |].
    intros summaries. apply cached_M_ret. }
  intros d3. apply cached_M_bind.
  { destruct tf_log_memory_usage; [| apply cached_M_ret].
    apply cached_M_for_each, Forall_forall.
    intros dev _ d'. apply add_mem_usage_cached. }
  intros d4. apply cached_M_bind.
  { apply cached_M_call, (get_post_control_dependencies_cached Hnet). }
  intros deps. destruct deps; [| apply cached_M_ret].
  apply cached_M_bind.
  { apply cached_M_call, (get_post_control_dependencies_cached Hnet). }
  intros deps. apply cached_M_ret.
Qed.

(** Filling the dict a second time gives the same entries and changes
    neither the graph nor the caches of the engine. *)
Lemma fetches_twice s r s1 :
  fetches config tf_log_memory_usage net self s = (r, s1) →
  fetches config tf_log_memory_usage net self s1 = (r, s1).
Proof.
  intros E.
  destruct (fetches_cached (world s) s r s1 (reach_refl _) E) as [_ Hst].
  apply Hst, state_le_refl.
Qed.

(** When everything that [_get_fetches_dict] accesses is cached, a second
    call right after a call that returned succeeds and leaves the graph
    and the caches of the engine as they are; it returns a new dict, not
    the dict of the first call, and the two dicts have the same entries:
    the same keys with the identical tensors and operations. *)
Theorem get_fetches_dict_twice sh :
  let first := _get_fetches_dict config tf_log_memory_usage net self sh in
  is_ok first.1 = true →
  ∃ r1 r2 h2 d,
    first.1 = Ok r1 ∧
    _get_fetches_dict config tf_log_memory_usage net self first.2
      = (Ok r2, (first.2.1, h2)) ∧
    r2 ≠ r1 ∧
    dicts first.2.2 !! r1 = Some d ∧ dicts h2 !! r1 = Some d ∧
    dicts h2 !! r2 = Some d.
Proof.
  destruct sh as [s h]. cbv zeta. unfold _get_fetches_dict.
  destruct (fetches config tf_log_memory_usage net self s) as [[d | e] s'] eqn:E;
    [| done].
  intros _. simpl. rewrite (fetches_twice _ _ _ E).
  exists (length (dicts h)), (length (dicts h ++ [d])),
    {| dicts := (dicts h ++ [d]) ++ [d] |}, d.
  simpl. split; [done |]. split; [done |]. rewrite length_app. simpl.
  split; [lia |].
  assert (Hd : (dicts h ++ [d]) !! length (dicts h) = Some d).
  { by rewrite lookup_app_r, Nat.sub_diag. }
  split; [done |]. split.
  - by apply lookup_app_l_Some.
  - rewrite lookup_app_r; rewrite length_app; simpl; [| lia].
    by replace (length (dicts h) + 1 - (length (dicts h) + 1))%nat with 0%nat by lia.
Qed.

End FetchSetFacts.
End FetchSetFacts.

(** The network of the examples has everything cached. *)
Module FetchExampleFacts.
Import FetchSet FetchExamples.

Lemma graph_le_preorder : PreOrder graph_le.
Proof.
  split.
  - by intros [n m].
  - intros g1 g2 g3 [Hn1 Hm1] [Hn2 Hm2]. split; [lia | by etrans].
Qed.

Lemma new_node_extends : extends graph_le new_node.
Proof. intros [n m] r g1 [= <- <-]. split; simpl; [lia | done]. Qed.

Lemma named_tensor_cached f name :
  extends graph_le f → cached graph_le (named_tensor f name).
Proof.
  intros Hf g0 [n m] r g1 _ E. unfold named_tensor in *. simpl in E.
  destruct (m !! name) as [t |] eqn:Em.
  - inversion E; subst. split; [by apply graph_le_preorder |].
    intros [n2 m2] [_ Hm]. simpl in *. by rewrite (lookup_weaken _ _ _ _ Em Hm).
  - destruct (f (n, m)) as [t [n' m']] eqn:Ef. inversion E; subst.
    destruct (Hf _ _ _ Ef) as [Hn Hm]. simpl in *. split.
    + split; simpl; [done | by apply insert_subseteq_r].
    + intros [n2 m2] [_ Hm2]. simpl in *.
      by rewrite (lookup_weaken _ m2 name r (lookup_insert_eq _ _ _) Hm2).
Qed.

Lemma cached_node_cached name : cached graph_le (cached_node name).
Proof.
  apply FetchSetFacts.op_fmap_cached, named_tensor_cached, new_node_extends.
Qed.

Lemma network_cached : cached_collaborators network graph_le.
Proof.
  split; simpl.
  - apply graph_le_preorder.
  - apply cached_node_cached.
  - intros g r g0 Eo [n m] ls g1 Hr E. inversion E; subst.
    split; [by apply graph_le_preorder |].
    intros [n2 m2] Hr2. simpl in *.
    assert (Hobj : ∀ g', graph_le g0 g' → is_Some (g'.2 !! "objective")).
    { intros g' [_ Hm]. unfold cached_node, op_bind, op_ret, named_tensor in Eo.
      destruct (g.2 !! "objective") as [t |] eqn:Em.
      - inversion Eo; subst. exists t. by eapply lookup_weaken.
      - simpl in Eo. inversion Eo; subst. simpl in Hm. exists g.1.
        eapply lookup_weaken; [apply lookup_insert_eq | done]. }
    destruct (Hobj (n, m) Hr) as [t Ht]. simpl in Ht.
    destruct (Hobj (n2, m2)) as [t2 Ht2].
    { etrans; [exact Hr | exact Hr2]. }
    simpl in Ht2. by rewrite Ht, Ht2.
  - intros g r g0 g' ls g1 _ _ E.
    destruct (g'.2 !! "objective"); inversion E; subst; [| done].
    apply Forall_singleton. split; simpl; apply cached_node_cached.
  - apply FetchSetFacts.op_ret_cached, graph_le_preorder.
  - intros [n m] t new g1 E. simpl in E.
    destruct (m !! "optim_op") as [t' |] eqn:Em.
    + inversion E; subst. split; [by apply graph_le_preorder |].
      intros [n2 m2] [_ Hm]. simpl in *. by rewrite (lookup_weaken _ _ _ _ Em Hm).
    + inversion E; subst. split.
      * split; simpl; [lia | by apply insert_subseteq_r].
      * intros [n2 m2] [_ Hm]. simpl in *.
        by rewrite (lookup_weaken _ m2 "optim_op" (S n) (lookup_insert_eq _ _ _) Hm).
  - intros g r g0 _. apply FetchSetFacts.op_ret_cached, graph_le_preorder.
  - apply FetchSetFacts.op_ret_cached, graph_le_preorder.
  - apply named_tensor_cached.
  - intros _ _. apply new_node_extends.
  - intros _. apply new_node_extends.
  - intros _. apply new_node_extends.
  - intros [n m] r g1 [= <- <-]. split; simpl; [lia | done].
  - intros [n m] g1 [=].
  - intros dev. apply named_tensor_cached, new_node_extends.
Qed.

End FetchExampleFacts.

Lemma get_fetches_dict_twice_witness :
  ∃ r1 r2 h2 d,
    FetchExamples.first_call.1 = Ok r1 ∧
    FetchExamples.second_call = (Ok r2, (FetchExamples.first_call.2.1, h2)) ∧
    r2 ≠ r1 ∧
    FetchSet.dicts FetchExamples.first_call.2.2 !! r1 = Some d ∧
    FetchSet.dicts h2 !! r1 = Some d ∧ FetchSet.dicts h2 !! r2 = Some d.
Proof.
  assert (H : is_ok FetchExamples.first_call.1 = true) by (vm_compute; reflexivity).
  exact (FetchSetFacts.get_fetches_dict_twice Examples.horovod_config true
           FetchExamples.network FetchExamples.training FetchExamples.graph_le
           FetchExampleFacts.network_cached
           (FetchExamples.fresh_engine, FetchExamples.no_dicts) H).
Defined.

(** ** More on a run *)

Module RunMoreFacts.
Section RunMoreFacts.
Context {num : Type} `{!Numeric num}.
Variable numpy_exp : num → num.
Variable config : Config.
Variable tf_session : Session.
Implicit Types (self : @Runner.t num) (bs : list (@Runner.batch num)).
Implicit Types (dp : @Runner.data_provider num) (step : nat).

#[local] Arguments Runner._collect_eval_info : simpl never.
#[local] Arguments Runner._horovod_signal_broadcast : simpl never.
#[local] Arguments Runner._finalize : simpl never.
#[local] Arguments Runner.set_cancel_flag : simpl never.

Local Abbreviation broadcast := (Runner._horovod_signal_broadcast config tf_session).
Local Abbreviation signal := (Runner.signal_broadcast config tf_session).
Local Abbreviation sync_params := (Runner._horovod_sync_params config tf_session).
Local Abbreviation batch_loop := (Runner.batch_loop config tf_session).
Local Abbreviation after_loop := (Runner.after_loop numpy_exp config tf_session).
Local Abbreviation run := (Runner.run numpy_exp config tf_session).

Lemma sync_params_without_horovod step (is_final : bool) self :
  use_horovod config = false → sync_params step is_final self = Ok ().
Proof. intros Hh. unfold Runner._horovod_sync_params. by rewrite Hh. Qed.

Lemma signal_without_horovod (have_more_data error : bool) self :
  use_horovod config = false →
  signal have_more_data error self = (Ok (false, false), self).
Proof.
  intros Hh. rewrite RunFacts.signal_no_round by (by left). by rewrite Hh.
Qed.

(** Without Horovod nothing raises once [_finalize] has returned. *)
Lemma after_loop_without_horovod dp (hvd_stop : bool) step self exc self' :
  use_horovod config = false →
  after_loop dp hvd_stop step self = (Raise exc, self') → self' = self.
Proof.
  intros Hh Hafter.
  destruct (RunFacts.after_loop_cases numpy_exp config tf_session dp hvd_stop
              step self)
    as [(exc' & Hraise & _) | (self1 & _ & _ & _ & Hrest)].
  { rewrite Hraise in Hafter. by injection Hafter as _ <-. }
  unfold Runner._horovod_finish_data in Hrest.
  rewrite signal_without_horovod in Hrest by done.
  rewrite sync_params_without_horovod in Hrest by done. congruence.
Qed.

(** A run that records no exception is finalized.  Without Horovod the
    converse holds as well; with Horovod the finish signal or the final
    synchronisation of the parameters can raise after [_finalize], which
    leaves a finalized run with an exception on record.  A crash batch
    is on record exactly beside an exception other than a keyboard
    interrupt. *)
Theorem run_exception_or_finalized dp (train : bool) :
  let r := run dp (Runner.init train) in
  (Runner.run_exception r = None → Runner.finalized r = true)
  ∧ (use_horovod config = false → Runner.finalized r = true →
     Runner.run_exception r = None)
  ∧ (Runner.device_crash_batch r = None
     ↔ Runner.run_exception r = None
       ∨ Runner.run_exception r = Some KeyboardInterrupt).
Proof.
  intros r. pose proof (RunFacts.run_outcome numpy_exp config tf_session dp train)
    as Hrun. fold r in Hrun.
  pose proof (RunFacts.batch_loop_same_outcome config tf_session
                (Runner.batches dp) 0 (Runner.init train)) as (Hfin0 & _).
  destruct (batch_loop (Runner.batches dp) 0 (Runner.init train))
    as [[[hvd_stop|exc] step] self].
  - change ((Runner.LoopEnd hvd_stop, step, self).2) with self in Hfin0.
    simpl in Hfin0.
    destruct (after_loop dp hvd_stop step self) as [[[]|exc] self'] eqn:Hafter.
    + destruct Hrun as (-> & -> & -> & _). split; [done |]. split; [done |].
      split; auto.
    + destruct Hrun as (Hf & -> & -> & _).
      split; [done |]. split.
      * intros Hh Hfin.
        apply after_loop_without_horovod in Hafter as ->; [| done]. congruence.
      * split.
        -- intros Hnone. right. by destruct exc.
        -- intros [Hnone | [= ->]]; done.
  - destruct Hrun as (-> & -> & ->).
    split; [done |]. split; [done |]. split.
    + intros Hnone. right. by destruct exc.
    + intros [Hnone | [= ->]]; done.
Qed.

Lemma collect_eval_info_cancel_flag (fetches_results : gmap string num) self :
  Runner.cancel_flag (Runner._collect_eval_info fetches_results self).2
  = Runner.cancel_flag self.
Proof. done. Qed.

(** The loop over batches that all go through. *)
Lemma batch_loop_completes good bs step self :
  use_horovod config = false →
  Forall (λ b, step_completes b = true) good →
  Runner.cancel_flag self = false →
  ∃ self', batch_loop (good ++ bs) step self
           = batch_loop bs (step + length good) self'
           ∧ Runner.cancel_flag self' = false.
Proof.
  intros Hh Hgood. revert step self.
  induction Hgood as [|b good Hb _ IH]; intros step self Hc.
  { exists self. by rewrite Nat.add_0_r. }
  change ((b :: good) ++ bs) with (b :: (good ++ bs)).
  rewrite RunFacts.batch_loop_cons.
  unfold Runner._horovod_signal_have_more_data.
  rewrite signal_without_horovod by done. cbv beta iota zeta.
  unfold step_completes in Hb.
  destruct (Runner.sess_run b) as [fetches_results|e]; [| done].
  apply andb_true_iff in Hb as [[Hok Hafter]%andb_true_iff Hcancel].
  pose proof (collect_eval_info_cancel_flag fetches_results self) as Hc'.
  assert (Hok' : is_ok (Runner._collect_eval_info fetches_results self).1 = true)
    by exact Hok.
  destruct (Runner._collect_eval_info fetches_results self) as [[info|e] self1];
    [| done].
  simpl in Hc'. destruct (Runner.after_step b); [done |].
  rewrite sync_params_without_horovod by done.
  apply negb_true_iff in Hcancel.
  assert (Hflag : Runner.cancel_flag
                    (Runner.set_cancel_flag
                       (Runner.cancel_flag self1 || Runner.cancel_requested b) self1)
                  = false).
  { unfold Runner.set_cancel_flag. simpl. by rewrite Hc', Hc, Hcancel. }
  rewrite Hflag.
  destruct (IH (S step) _ Hflag) as (self' & -> & Hc2).
  exists self'. split; [| done]. f_equal. simpl. lia.
Qed.

(** When [sess.run] raises on a batch after [n] steps that went through,
    the run is not finalized, the exception is on record and, unless it
    is a keyboard interrupt, the crash batch on record is [n]. *)
Theorem run_crash_step dp (train : bool) good b rest (e : exn) :
  use_horovod config = false →
  Runner.batches dp = good ++ b :: rest →
  Forall (λ b, step_completes b = true) good →
  Runner.sess_run b = Runner.SessRaise e →
  let r := run dp (Runner.init train) in
  Runner.finalized r = false
  ∧ Runner.run_exception r = Some e
  ∧ Runner.device_crash_batch r
    = match e with KeyboardInterrupt => None | _ => Some (length good) end.
Proof.
  intros Hh Hbs Hgood Hraise r.
  pose proof (RunFacts.run_outcome numpy_exp config tf_session dp train) as Hrun.
  fold r in Hrun. rewrite Hbs in Hrun.
  destruct (batch_loop_completes good (b :: rest) 0 (Runner.init train) Hh Hgood)
    as (self' & Hloop & _); [done |].
  rewrite Hloop, RunFacts.batch_loop_cons in Hrun.
  unfold Runner._horovod_signal_have_more_data in Hrun.
  rewrite signal_without_horovod in Hrun by done.
  cbv beta iota zeta in Hrun. rewrite Hraise in Hrun. exact Hrun.
Qed.

Lemma batch_loop_steps bs step self exit step' self' :
  batch_loop bs step self = (exit, step', self') →
  (step ≤ step' ≤ step + length bs)%nat
  ∧ (exit = Runner.LoopEnd false → step' = (step + length bs)%nat).
Proof.
  revert step self. induction bs as [|b bs IH]; intros step self.
  { intros [= <- <- <-]. simpl. split; [lia |]. intros _. lia. }
  rewrite RunFacts.batch_loop_cons.
  destruct (Runner._horovod_signal_have_more_data config tf_session self)
    as [[[hvd_stop hvd_error]|e] self1];
    [| intros [= <- <- <-]; simpl; split; [lia | done]].
  simpl length.
  destruct hvd_error; [intros [= <- <- <-]; split; [lia | done] |].
  destruct hvd_stop; [intros [= <- <- <-]; split; [lia | done] |].
  destruct (Runner.sess_run b) as [fetches_results|e];
    [| intros [= <- <- <-]; split; [lia | done]].
  destruct (Runner._collect_eval_info fetches_results self1) as [[info|e] self2];
    [| intros [= <- <- <-]; split; [lia | done]].
  destruct (Runner.after_step b); [intros [= <- <- <-]; split; [lia | done] |].
  destruct (sync_params step false self2);
    [| intros [= <- <- <-]; split; [lia | done]].
  cbv zeta. destruct (Runner.cancel_flag _);
    [intros [= <- <- <-]; split; [lia | done] |].
  intros Hloop. apply IH in Hloop as [Hle Hend]. split; [lia |].
  intros Hex. rewrite (Hend Hex). lia.
Qed.

Lemma batch_loop_no_peer_stop bs step self step' self' :
  use_horovod config = false →
  batch_loop bs step self ≠ (Runner.LoopEnd true, step', self').
Proof.
  intros Hh Hloop.
  apply RunFacts.batch_loop_peer_stop in Hloop as (_ & Hh' & _). congruence.
Qed.

(** The number of steps of a finalized run is the number of batches the
    runner worked through: at most the number of batches of the provider,
    and all of them when there is no Horovod peer to stop the run. *)
Theorem run_num_steps dp (train : bool) :
  let r := run dp (Runner.init train) in
  Runner.finalized r = true →
  ∃ n, Runner.num_steps r = Some n
       ∧ (n ≤ length (Runner.batches dp))%nat
       ∧ (use_horovod config = false → n = length (Runner.batches dp)).
Proof.
  intros r Hfin.
  pose proof (RunFacts.run_outcome numpy_exp config tf_session dp train) as Hrun.
  fold r in Hrun.
  pose proof (RunFacts.batch_loop_same_outcome config tf_session
                (Runner.batches dp) 0 (Runner.init train)) as (Hfin0 & _).
  destruct (batch_loop (Runner.batches dp) 0 (Runner.init train))
    as [[exit step] self] eqn:Hloop.
  change ((exit, step, self).2) with self in Hfin0. simpl in Hfin0.
  destruct exit as [hvd_stop|exc]; [| destruct Hrun as (Hf & _); congruence].
  assert (Hsteps : Runner.num_steps r = Some step).
  { destruct (after_loop dp hvd_stop step self) as [[[]|exc] self'] eqn:Hafter.
    - by destruct Hrun as (_ & _ & _ & ->).
    - destruct Hrun as (Hf & _ & _ & ->).
      apply RunFacts.after_loop_outcome in Hafter as (_ & _ & _ & Hn).
      apply Hn; congruence. }
  exists step. split; [done |].
  pose proof (batch_loop_steps _ _ _ _ _ _ Hloop) as [Hle Hend]. split; [lia |].
  intros Hh. destruct hvd_stop; [| by rewrite Hend].
  by apply batch_loop_no_peer_stop in Hloop.
Qed.

(** ** What a run feeds to its peers *)

Lemma broadcast_rounds (have_more_data : bool) self :
  Forall (λ round : Z * Z, round.2 = 0) (Runner.hvd_rounds self) →
  Forall (λ round : Z * Z, round.2 = 0)
         (Runner.hvd_rounds (broadcast have_more_data false self).2).
Proof.
  intros Hr. unfold Runner._horovod_signal_broadcast.
  destruct (negb _); [done |].
  destruct (Runner._horovod_stopped_runner self); [done |].
  simpl. apply Forall_app. split; [done |]. by apply Forall_singleton.
Qed.

Lemma signal_rounds (have_more_data : bool) self :
  Forall (λ round : Z * Z, round.2 = 0) (Runner.hvd_rounds self) →
  Forall (λ round : Z * Z, round.2 = 0)
         (Runner.hvd_rounds (signal have_more_data false self).2).
Proof.
  intros Hr.
  destruct (RunFacts.signal_cases config tf_session have_more_data false self)
    as [(e & -> & _) | ->].
  - simpl. apply Forall_app. split; [done |]. by apply Forall_singleton.
  - by apply broadcast_rounds.
Qed.

Lemma batch_loop_rounds bs step self :
  Forall (λ round : Z * Z, round.2 = 0) (Runner.hvd_rounds self) →
  Forall (λ round : Z * Z, round.2 = 0)
         (Runner.hvd_rounds (batch_loop bs step self).2).
Proof.
  revert step self. induction bs as [|b bs IH]; intros step self Hr; [done |].
  rewrite RunFacts.batch_loop_cons.
  pose proof (signal_rounds true self Hr) as Hb.
  unfold Runner._horovod_signal_have_more_data.
  destruct (signal true false self) as [[[hvd_stop hvd_error]|e] self1];
    change ((_, self1).2) with self1 in Hb; [| done].
  destruct hvd_error; [done |]. destruct hvd_stop; [done |].
  destruct (Runner.sess_run b) as [fetches_results|e]; [| done].
  assert (Hc : Runner.hvd_rounds (Runner._collect_eval_info fetches_results self1).2
               = Runner.hvd_rounds self1) by done.
  destruct (Runner._collect_eval_info fetches_results self1) as [[info|e] self2];
    change ((_, self2).2) with self2 in Hc; [| simpl; by rewrite Hc].
  destruct (Runner.after_step b); [simpl; by rewrite Hc |].
  destruct (sync_params step false self2); [| simpl; by rewrite Hc].
  destruct (Runner.cancel_flag (Runner.set_cancel_flag _ _));
    [simpl; by rewrite Hc |].
  apply IH. simpl. by rewrite Hc.
Qed.

(** A terminal broadcast that returns leaves the runner stopped when the
    sum that the allreduce returns is at most what this runner fed plus
    one for each other peer. *)
Lemma terminal_broadcast_stops (error : bool) self :
  use_horovod config = true →
  (∀ round mine, (allreduce tf_session round mine).1
                 ≤ mine.1 + (hvd_size tf_session - 1)) →
  Runner._horovod_stopped_runner (broadcast false error self).2 = true.
Proof.
  intros Hh Hsum. unfold Runner._horovod_signal_broadcast. rewrite Hh. simpl.
  destruct (Runner._horovod_stopped_runner self) eqn:Hs; [done |].
  cbv zeta. simpl.
  set (mine := (0, if error then 1 else 0)).
  specialize (Hsum (length (Runner.hvd_rounds self)) mine). simpl in Hsum.
  assert (Hlt : ((allreduce tf_session (length (Runner.hvd_rounds self)) mine).1
                 <? hvd_size tf_session) = true) by (apply Z.ltb_lt; lia).
  by rewrite Hlt.
Qed.

(** Under Horovod, with an allreduce that returns at most what this
    runner fed plus one for each other peer, a run that ends without an
    exception on record ends with the runner stopped and has fed no
    error to its peers: the error signal of the [finally] block is not
    sent once [_horovod_finish_data] has returned. *)
Theorem run_without_exception_signals_no_error dp (train : bool) :
  use_horovod config = true →
  (∀ round mine, (allreduce tf_session round mine).1
                 ≤ mine.1 + (hvd_size tf_session - 1)) →
  let r := run dp (Runner.init train) in
  Runner.run_exception r = None →
  Runner.finalized r = true
  ∧ Runner._horovod_stopped_runner r = true
  ∧ Forall (λ round : Z * Z, round.2 = 0) (Runner.hvd_rounds r).
Proof.
  intros Hh Hsum r Hnone.
  pose proof (RunFacts.run_outcome numpy_exp config tf_session dp train) as Hrun.
  fold r in Hrun. subst r. unfold Runner.run in *.
  pose proof (batch_loop_rounds (Runner.batches dp) 0 (Runner.init train)) as Hr.
  destruct (batch_loop (Runner.batches dp) 0 (Runner.init train))
    as [[exit step] self] eqn:Hloop.
  specialize (Hr (Forall_nil_2 _)). change ((exit, step, self).2) with self in Hr.
  destruct exit as [hvd_stop|exc]; [| destruct Hrun as (_ & He & _); congruence].
  destruct (RunFacts.after_loop_cases numpy_exp config tf_session dp hvd_stop
              step self)
    as [(exc & Hraise & _) | (self1 & _ & _ & Hfinalize & Hrest)].
  { rewrite Hraise in *. destruct Hrun as (_ & He & _). congruence. }
  apply RunFacts.finalize_outcome in Hfinalize as (_ & _ & _ & _ & _ & _ & Hr1).
  unfold Runner._horovod_finish_data in Hrest.
  destruct (RunFacts.signal_cases config tf_session false false self1)
    as [(e & Hsignal & _) | Hsignal]; rewrite Hsignal in Hrest.
  { rewrite Hrest in *. destruct Hrun as (_ & He & _). congruence. }
  rewrite Hrest in *.
  destruct (sync_params step true (broadcast false false self1).2);
    [| destruct Hrun as (_ & He & _); congruence].
  destruct Hrun as (Hf & _). split; [exact Hf |].
  pose proof (terminal_broadcast_stops false self1 Hh Hsum) as Hstopped.
  pose proof (broadcast_rounds false self1) as Hrounds.
  rewrite Hr1 in Hrounds. specialize (Hrounds Hr).
  unfold Runner._horovod_signal_error.
  rewrite RunFacts.signal_no_round by (by right). done.
Qed.

End RunMoreFacts.
End RunMoreFacts.

Lemma run_crash_step_witness :
  let r := Runner.run (λ q : Q, q) Examples.plain_config Examples.local_session
             Examples.crash_at_7 (Runner.init true) in
  Runner.finalized r = false
  ∧ Runner.run_exception r = Some OpError
  ∧ Runner.device_crash_batch r = Some 7%nat.
Proof.
  assert (Hgood : Forall (λ b, step_completes b = true)
                         (replicate 7 Examples.good_batch)).
  { apply Forall_replicate. vm_compute. reflexivity. }
  exact (RunMoreFacts.run_crash_step (λ q : Q, q) Examples.plain_config
           Examples.local_session Examples.crash_at_7 true
           (replicate 7 Examples.good_batch) Examples.crashing_batch
           [Examples.good_batch] OpError eq_refl eq_refl Hgood eq_refl).
Defined.

Lemma run_num_steps_witness :
  ∃ n, Runner.num_steps
         (Runner.run (λ q : Q, q) Examples.plain_config Examples.local_session
                     two_good_steps (Runner.init true)) = Some n
       ∧ (n ≤ 2)%nat
       ∧ (use_horovod Examples.plain_config = false → n = 2%nat).
Proof.
  assert (Hfin : Runner.finalized
                   (Runner.run (λ q : Q, q) Examples.plain_config
                      Examples.local_session two_good_steps (Runner.init true))
                 = true) by (vm_compute; reflexivity).
  exact (RunMoreFacts.run_num_steps (λ q : Q, q) Examples.plain_config
           Examples.local_session two_good_steps true Hfin).
Defined.

Lemma run_without_exception_signals_no_error_witness :
  let r := Runner.run (λ q : Q, q) Examples.horovod_config
             Examples.peer_out_of_data two_good_steps (Runner.init true) in
  Runner.finalized r = true
  ∧ Runner._horovod_stopped_runner r = true
  ∧ Forall (λ round : Z * Z, round.2 = 0) (Runner.hvd_rounds r).
Proof.
  assert (Hsum : ∀ (round : nat) (mine : Z * Z),
            (allreduce Examples.peer_out_of_data round mine).1
            ≤ mine.1 + (hvd_size Examples.peer_out_of_data - 1)).
  { intros round mine. simpl. lia. }
  assert (Hnone : Runner.run_exception
                    (Runner.run (λ q : Q, q) Examples.horovod_config
                       Examples.peer_out_of_data two_good_steps (Runner.init true))
                  = None) by (vm_compute; reflexivity).
  exact (RunMoreFacts.run_without_exception_signals_no_error (λ q : Q, q)
           Examples.horovod_config Examples.peer_out_of_data two_good_steps true
           eq_refl Hsum Hnone).
Defined.

(** ** More on the fetch set *)

Module FetchSetMoreFacts.
Import FetchSet.
Section FetchSetMoreFacts.
Context {obj W : Type}.
Variable config : Config.
Variable tf_log_memory_usage : bool.
Variable net : collaborators obj W.
Variable self : runner obj.
Implicit Types (s : state obj W) (d : gmap string (option obj)).

(** [get_const_tensor] makes the constant of a key once: it returns, a
    second call returns the same tensor and changes nothing, the tensor
    is in the cache under its key, the other keys of the cache are as
    before, and nothing at all changes when the key was in the cache. *)
Theorem get_const_tensor_twice (key : string) s :
  let r := get_const_tensor net key s in
  ∃ t, r.1 = Ok t
       ∧ get_const_tensor net key r.2 = (Ok t, r.2)
       ∧ _const_cache r.2 !! key = Some t
       ∧ (∀ key', key' ≠ key → _const_cache r.2 !! key' = _const_cache s !! key')
       ∧ (∀ t0, _const_cache s !! key = Some t0 → r = (Ok t0, s)).
Proof.
  intros r. subst r. 
  destruct (_const_cache s !! key) as [t |] eqn:Ek.
  - assert (Hr : get_const_tensor net key s = (Ok t, s)).
    { unfold get_const_tensor. by rewrite Ek. }
    rewrite Hr. simpl. exists t. rewrite Hr.
    split; [done |]. split; [done |]. split; [done |]. split; [done |].
    intros t0 Ht0. congruence.
  - destruct (tf_constant net ("const_" +:+ key) (world s)) as [t w] eqn:Et.
    assert (Hr : get_const_tensor net key s
                 = (Ok t, mk w (<[key:=t]> (_const_cache s))
                             (_merge_all_summaries s)
                             (_checked_uninitialized_vars s))).
    { unfold get_const_tensor. by rewrite Ek, Et. }
    rewrite Hr. simpl. exists t.
    split; [done |]. split.
    { unfold get_const_tensor. simpl. by rewrite lookup_insert_eq. }
    split; [apply lookup_insert_eq |]. split; [| done].
    intros key' Hne. by rewrite lookup_insert_ne.
Qed.

(** [get_all_merged_summaries] always returns; once it has returned a
    tensor, it returns this tensor at every later call without a change
    of the state; that there is no summary is not kept: the next call
    asks [tf.summary.merge_all] again. *)
Theorem merged_summaries_kept s :
  let r := get_all_merged_summaries net s in
  is_ok r.1 = true
  ∧ (∀ t, r.1 = Ok (Some t) →
       get_all_merged_summaries net r.2 = (Ok (Some t), r.2))
  ∧ (r.1 = Ok None →
     get_all_merged_summaries net r.2
     = let '(r', w) := merge_all net (world r.2) in
       (Ok r', mk w (_const_cache r.2) r' (_checked_uninitialized_vars r.2))).
Proof.
  intros r. subst r.
  destruct (_merge_all_summaries s) as [t |] eqn:Em.
  - assert (Hr : get_all_merged_summaries net s = (Ok (Some t), s)).
    { unfold get_all_merged_summaries. by rewrite Em. }
    rewrite Hr. simpl. split; [done |]. split; [| done].
    intros t' [= <-]. exact Hr.
  - destruct (merge_all net (world s)) as [r w] eqn:Ea.
    assert (Hr : get_all_merged_summaries net s
                 = (Ok r, mk w (_const_cache s) r (_checked_uninitialized_vars s))).
    { unfold get_all_merged_summaries. by rewrite Em, Ea. }
    rewrite Hr. simpl. split; [done |]. split.
    + by intros t [= ->].
    + by intros [= ->].
Qed.

(** A training run needs an updater: without one, [_get_fetches_dict]
    raises, whatever the network is, and returns no dict. *)
Theorem get_fetches_dict_needs_updater s h :
  _should_train self = true →
  updater net = false →
  ∃ e s', _get_fetches_dict config tf_log_memory_usage net self (s, h)
          = (Raise e, (s', h)).
Proof.
  intros Htrain Hupdater.
  assert (Hf : ∃ e s', fetches config tf_log_memory_usage net self s = (Raise e, s')).
  { unfold fetches. cbv zeta. rewrite Htrain, Hupdater.
    set (A := if true || _should_eval self then _ else _).
    unfold bind at 1. destruct (A s) as [[d | e] s1]; [| by eauto].
    unfold bind at 1. unfold call at 1.
    destruct (layers net (world s1)) as [ls w]. simpl.
    unfold bind at 1. unfold raise at 1. by eauto. }
  destruct Hf as (e & s' & Hf). exists e, s'.
  unfold _get_fetches_dict. by rewrite Hf.
Qed.

(** Keys that differ from ["optim_op"]. *)
Lemma prefixed_not_optim_op (c : ascii) (p rest : string) :
  c ≠ "o"%char → String c p +:+ rest ≠ "optim_op".
Proof. intros Hc. rewrite append_cons. intros [= ? _]. done. Qed.

Lemma never_sets_ret (key : string) d :
  d !! key = None → never_sets (W:=W) key (ret d).
Proof. intros Hd s d' s' [= <- <-]. done. Qed.

Lemma never_sets_raise (key : string) e :
  never_sets (obj:=obj) (W:=W) key (raise e).
Proof. by intros s d' s'. Qed.

Lemma never_sets_bind {R} (key : string) (c : M obj W R)
    (k : R → M obj W (gmap string (option obj))) :
  (∀ r, never_sets key (k r)) → never_sets key (bind c k).
Proof.
  intros Hk s d s'. unfold bind.
  destruct (c s) as [[r | e] s1]; [apply Hk | done].
Qed.

Lemma never_sets_bind_dict (key : string)
    (c : M obj W (gmap string (option obj)))
    (k : gmap string (option obj) → M obj W (gmap string (option obj))) :
  never_sets key c →
  (∀ d, d !! key = None → never_sets key (k d)) →
  never_sets key (bind c k).
Proof.
  intros Hc Hk s d s'. unfold bind.
  destruct (c s) as [[d1 | e] s1] eqn:E; [| done].
  apply Hk. by eapply Hc.
Qed.

Lemma never_sets_for_each {A} (key : string) (l : list A)
    (body : A → gmap string (option obj) → M obj W (gmap string (option obj))) d :
  (∀ x d, d !! key = None → never_sets key (body x d)) →
  d !! key = None →
  never_sets key (for_each l body d).
Proof.
  intros Hbody. revert d. induction l as [|x l IH]; intros d Hd; simpl.
  - by apply never_sets_ret.
  - apply never_sets_bind_dict; [by apply Hbody | apply IH].
Qed.

Lemma foldl_insert_other {A} (key : string) (f : A → string)
    (g : A → option obj) (l : list A) d :
  (∀ x, f x ≠ key) → d !! key = None →
  foldl (λ d x, <[f x := g x]> d) d l !! key = None.
Proof.
  intros Hf. revert d. induction l as [|x l IH]; intros d Hd; [done |].
  simpl. apply IH. by rewrite lookup_insert_ne.
Qed.

Lemma add_sizes_optim_op (key : string) sizes d :
  d !! "optim_op" = None → add_sizes key sizes d !! "optim_op" = None.
Proof.
  intros Hd. unfold add_sizes.
  apply (foldl_insert_other "optim_op"
           (λ dv : nat * obj, "size:" +:+ key +:+ ":" +:+ pretty dv.1)
           (λ dv, Some dv.2)); [| done].
  intros dv. by apply prefixed_not_optim_op.
Qed.

Lemma add_loss_optim_op entry d :
  d !! "optim_op" = None →
  never_sets "optim_op" (add_loss config net self entry d).
Proof.
  intros Hd. destruct entry as [loss_name l]. unfold add_loss.
  destruct (get_only_on_eval l && _should_train self);
    [by apply never_sets_ret |].
  apply never_sets_bind. intros value. apply never_sets_bind_dict.
  { destruct value; [| by apply never_sets_ret].
    apply never_sets_bind. intros value2. apply never_sets_bind. intros v.
    apply never_sets_ret. rewrite lookup_insert_ne; [done |].
    by apply prefixed_not_optim_op. }
  intros d1 Hd1. apply never_sets_bind. intros value'. apply never_sets_bind_dict.
  { destruct value'; [| by apply never_sets_ret].
    apply never_sets_bind. intros value2. apply never_sets_bind. intros v.
    apply never_sets_ret. rewrite lookup_insert_ne; [done |].
    by apply prefixed_not_optim_op. }
  intros d2 Hd2. apply never_sets_bind. intros factor.
  apply never_sets_bind. intros v.
  apply never_sets_ret. rewrite lookup_insert_ne; [done |].
  by apply prefixed_not_optim_op.
Qed.

Lemma add_layer_target_sizes_optim_op l d :
  d !! "optim_op" = None →
  never_sets (W:=W) "optim_op" (add_layer_target_sizes self l d).
Proof.
  intros Hd. unfold add_layer_target_sizes.
  destruct (only_on_eval l && _should_train self); [by apply never_sets_ret |].
  destruct (target l) as [t |]; [| by apply never_sets_ret].
  destruct (startswith "layer:" t); [| by apply never_sets_ret].
  destruct (loss_target_sizes l); [| apply never_sets_raise].
  by apply never_sets_ret, add_sizes_optim_op.
Qed.

Lemma add_layer_stats_optim_op (l : layer obj) d :
  d !! "optim_op" = None → add_layer_stats l d !! "optim_op" = None.
Proof.
  intros Hd. unfold add_layer_stats.
  apply (foldl_insert_other "optim_op"
           (λ kv : string * obj, "stats:" +:+ name l +:+ ":" +:+ kv.1)
           (λ kv, Some kv.2)); [| done].
  intros kv. by apply prefixed_not_optim_op.
Qed.

Lemma add_extra_fetch_optim_op entry d :
  d !! "optim_op" = None →
  never_sets (W:=W) "optim_op" (add_extra_fetch entry d).
Proof.
  intros Hd. destruct entry as [k [| v | placeholder sizes |]]; simpl.
  - by apply never_sets_ret.
  - apply never_sets_ret. rewrite lookup_insert_ne; [done |].
    by apply prefixed_not_optim_op.
  - apply never_sets_ret.
    apply (foldl_insert_other "optim_op"
             (λ sz : nat * obj, "extra:" +:+ k +:+ ":size_" +:+ pretty sz.1)
             (λ sz, Some sz.2)).
    + intros sz. by apply prefixed_not_optim_op.
    + rewrite lookup_insert_ne; [done |]. by apply prefixed_not_optim_op.
  - apply never_sets_raise.
Qed.

Lemma add_mem_usage_optim_op dev d :
  d !! "optim_op" = None →
  never_sets "optim_op" (add_mem_usage net dev d).
Proof.
  intros Hd. destruct dev as [device_type dev_name]. unfold add_mem_usage.
  destruct (negb (String.eqb device_type "GPU")); [by apply never_sets_ret |].
  apply never_sets_bind. intros v. apply never_sets_ret.
  rewrite lookup_insert_ne; [done |]. by apply prefixed_not_optim_op.
Qed.

Lemma fetches_no_optim_op :
  _should_train self = false →
  never_sets "optim_op" (fetches config tf_log_memory_usage net self).
Proof.
  intros Htrain. unfold fetches. cbv zeta. rewrite Htrain.
  assert (Hd0 : foldl (λ d (ks : string * list (nat * obj)), add_sizes ks.1 ks.2 d)
                      (∅ : gmap string (option obj)) (data_sizes net)
                !! "optim_op" = None).
  { generalize (data_sizes net). intros l.
    assert (Hgen : ∀ d, d !! "optim_op" = None →
              foldl (λ d (ks : string * list (nat * obj)), add_sizes ks.1 ks.2 d) d l
              !! "optim_op" = None).
    { induction l as [|ks l IH]; intros d Hd; [done |].
      simpl. by apply IH, add_sizes_optim_op. }
    by apply Hgen. }
  apply never_sets_bind_dict.
  { destruct (false || _should_eval self); [| by apply never_sets_ret].
    apply never_sets_bind. intros loss. apply never_sets_bind. intros loss'.
    apply never_sets_bind. intros v. apply never_sets_bind. intros losses.
    apply never_sets_bind_dict.
    - apply never_sets_for_each; [intros; by apply add_loss_optim_op |].
      by rewrite lookup_insert_ne.
    - intros d1 Hd1. apply never_sets_bind. intros ls.
      apply never_sets_for_each; [| done].
      intros; by apply add_layer_target_sizes_optim_op. }
  intros d1 Hd1. apply never_sets_bind. intros ls.
  assert (Hd2 : foldl (λ d (l : layer obj), add_layer_stats l d) d1 ls
                !! "optim_op" = None).
  { revert d1 Hd1. induction ls as [|l ls IH]; intros d1 Hd1; [done |].
    simpl. by apply IH, add_layer_stats_optim_op. }
  apply never_sets_bind_dict; [by apply never_sets_ret |].
  intros d3 Hd3. apply never_sets_bind_dict.
  { destruct (extra_fetches self) as [extra |]; [| by apply never_sets_ret].
    apply never_sets_for_each; [| done]. intros; by apply add_extra_fetch_optim_op. }
  intros d4 Hd4. apply never_sets_bind. intros summaries.
  apply never_sets_bind_dict.
  { destruct summaries; [| by apply never_sets_ret].
    apply never_sets_bind. intros summaries. apply never_sets_ret.
    by rewrite lookup_insert_ne. }
  intros d5 Hd5. apply never_sets_bind_dict.
  { destruct tf_log_memory_usage; [| by apply never_sets_ret].
    apply never_sets_for_each; [| done]. intros; by apply add_mem_usage_optim_op. }
  intros d6 Hd6. apply never_sets_bind. intros deps.
  destruct deps; [| by apply never_sets_ret].
  apply never_sets_bind. intros deps. apply never_sets_ret.
  by rewrite lookup_insert_ne.
Qed.

(** A run that does not train never fetches the operation of the
    optimizer: the dict that [_get_fetches_dict] returns has no entry
    ["optim_op"]. *)
Theorem eval_fetches_no_optim_op sh :
  let first := _get_fetches_dict config tf_log_memory_usage net self sh in
  _should_train self = false →
  is_ok first.1 = true →
  ∃ r d, first.1 = Ok r ∧ dicts first.2.2 !! r = Some d ∧ d !! "optim_op" = None.
Proof.
  destruct sh as [s h]. cbv zeta. intros Htrain. unfold _get_fetches_dict.
  destruct (fetches config tf_log_memory_usage net self s) as [[d | e] s'] eqn:E;
    [| done].
  intros _. simpl. exists (length (dicts h)), d. split; [done |]. split.
  - by rewrite lookup_app_r, Nat.sub_diag.
  - by eapply fetches_no_optim_op.
Qed.

End FetchSetMoreFacts.
End FetchSetMoreFacts.

Lemma get_fetches_dict_needs_updater_witness :
  ∃ e s',
    FetchSet._get_fetches_dict Examples.horovod_config true
      FetchMoreExamples.network_without_updater FetchExamples.training
      (FetchExamples.fresh_engine, FetchExamples.no_dicts)
    = (Raise e, (s', FetchExamples.no_dicts)).
Proof.
  exact (FetchSetMoreFacts.get_fetches_dict_needs_updater Examples.horovod_config
           true FetchMoreExamples.network_without_updater FetchExamples.training
           FetchExamples.fresh_engine FetchExamples.no_dicts eq_refl eq_refl).
Defined.

Lemma eval_fetches_no_optim_op_witness :
  ∃ r d,
    FetchMoreExamples.eval_call.1 = Ok r
    ∧ FetchSet.dicts FetchMoreExamples.eval_call.2.2 !! r = Some d
    ∧ d !! "optim_op" = None.
Proof.
  assert (H : is_ok FetchMoreExamples.eval_call.1 = true)
    by (vm_compute; reflexivity).
  exact (FetchSetMoreFacts.eval_fetches_no_optim_op Examples.plain_config false
           FetchExamples.network FetchMoreExamples.evaluating
           (FetchExamples.fresh_engine, FetchExamples.no_dicts) eq_refl H).
Defined.

(** ** The retention policy in general *)

Module CleanupMoreFacts.
Import CleanupFacts.

(** *** The score keys *)

Lemma elem_of_score_keys (epoch_data : gmap nat (gmap string Q)) (key : string) :
  key ∈ map_fold (λ (_ : nat) (data : gmap string Q) (keys : gset string),
                    keys ∪ dom data) ∅ epoch_data
  ↔ ∃ e data, epoch_data !! e = Some data ∧ is_Some (data !! key).
Proof.
  apply (map_fold_weak_ind
           (λ (r : gset string) (m : gmap nat (gmap string Q)),
              key ∈ r ↔ ∃ e data, m !! e = Some data ∧ is_Some (data !! key))).
  - rewrite elem_of_empty. split; [done |].
    intros (e & data & He & _). by rewrite lookup_empty in He.
  - intros e data m r Hnone IH. rewrite elem_of_union, IH, elem_of_dom. split.
    + intros [(e' & data' & He' & Hk) | Hk].
      * exists e', data'. split; [| done].
        rewrite lookup_insert_ne; [done |]. intros ->. congruence.
      * exists e, data. split; [apply lookup_insert_eq | done].
    + intros (e' & data' & He' & Hk). destruct (decide (e' = e)) as [-> | Hne].
      * rewrite lookup_insert_eq in He'. injection He' as <-. by right.
      * rewrite lookup_insert_ne in He' by done. left. eauto.
Qed.

Lemma omap_nil_iff {A B} (f : A → option B) (l : list A) :
  omap f l = [] ↔ ∀ x, x ∈ l → f x = None.
Proof.
  induction l as [|a l IH]; simpl.
  - split; [by intros _ x ?%elem_of_nil | done].
  - destruct (f a) eqn:Hfa.
    + split; [done |]. intros Hall.
      specialize (Hall a ltac:(by left)). congruence.
    + rewrite IH. split.
      * intros Hall x [-> | Hx]%elem_of_cons; auto.
      * intros Hall x Hx. apply Hall. by right.
Qed.

Lemma omap_Some_fmap {A B} (f : A → option B) (g : A → B) (l : list A) :
  (∀ x, x ∈ l → f x = Some (g x)) → omap f l = g <$> l.
Proof.
  induction l as [|a l IH]; intros Hall; simpl; [done |].
  rewrite (Hall a) by (by left). f_equal. apply IH.
  intros x Hx. apply Hall. by right.
Qed.

Lemma omap_fmap_compose {A B C} (f : B → option C) (g : A → B) (l : list A) :
  omap f (g <$> l) = omap (λ x, f (g x)) l.
Proof.
  induction l as [|a l IH]; simpl; [done |]. destruct (f (g a)); by f_equal.
Qed.

Lemma fmap_ext_elem {A B} (f g : A → B) (l : list A) :
  (∀ x, x ∈ l → f x = g x) → f <$> l = g <$> l.
Proof.
  induction l as [|a l IH]; intros Hall; simpl; [done |].
  rewrite (Hall a) by (by left). f_equal. apply IH.
  intros x Hx. apply Hall. by right.
Qed.

(** *** The keys that tell epochs apart *)

Lemma discriminating_keys_Raise (score_values : string → list Q)
    (keys : list string) (key : string) :
  key ∈ keys → score_values key = [] →
  Engine.discriminating_keys score_values keys = Raise ValueError.
Proof.
  induction keys as [|k keys IH]; intros Hin Hnil.
  { by apply elem_of_nil in Hin. }
  simpl. destruct (score_values k) as [|s scores] eqn:Hk; [done |].
  apply elem_of_cons in Hin as [-> | Hin]; [congruence |].
  by rewrite IH.
Qed.

Lemma discriminating_keys_is_ok (score_values : string → list Q)
    (keys : list string) :
  (∀ key, key ∈ keys → score_values key ≠ []) →
  is_ok (Engine.discriminating_keys score_values keys) = true.
Proof.
  induction keys as [|k keys IH]; intros Hall; simpl; [done |].
  destruct (score_values k) as [|s scores] eqn:Hk.
  { by destruct (Hall k ltac:(by left)). }
  destruct (Engine.discriminating_keys score_values keys) as [keys'|] eqn:Hrec.
  - simpl. by destruct (Qeq_bool _ _).
  - exfalso. assert (is_ok (Raise (A:=list string) e) = true); [| done].
    apply IH. intros key Hkey. apply Hall. by right.
Qed.

Lemma discriminating_keys_elem (score_values : string → list Q)
    (keys keys' : list string) (key : string) :
  Engine.discriminating_keys score_values keys = Ok keys' →
  key ∈ keys →
  (∀ s rest, score_values key = s :: rest →
             Qeq_bool (Q_min s rest) (Q_max s rest) = false) →
  key ∈ keys'.
Proof.
  revert keys'. induction keys as [|k keys IH]; intros keys' Hok Hin Hdiff.
  { by apply elem_of_nil in Hin. }
  simpl in Hok. destruct (score_values k) as [|s scores] eqn:Hk; [done |].
  destruct (Engine.discriminating_keys score_values keys) as [keys''|] eqn:Hrec;
    simpl in Hok; [| done].
  apply elem_of_cons in Hin as [-> | Hin].
  - rewrite (Hdiff s scores Hk) in Hok. injection Hok as <-. by left.
  - destruct (Qeq_bool _ _); injection Hok as <-.
    + by apply IH.
    + right. by apply IH.
Qed.

(** *** The keep set *)

Lemma foldl_union_subseteq {A} (g : A → gset nat) (l : list A) (X : gset nat) :
  X ⊆ foldl (λ acc a, acc ∪ g a) X l
  ∧ ∀ a, a ∈ l → g a ⊆ foldl (λ acc a, acc ∪ g a) X l.
Proof.
  revert X. induction l as [|b l IH]; intros X; simpl.
  - split; [done |]. by intros a ?%elem_of_nil.
  - destruct (IH (X ∪ g b)) as [Hbase Hstep]. split.
    + etrans; [| exact Hbase]. apply union_subseteq_l.
    + intros a [-> | Ha]%elem_of_cons; [| by apply Hstep].
      etrans; [| exact Hbase]. apply union_subseteq_r.
Qed.

Lemma mapM_epoch_errors_inv (epoch_data : gmap nat (gmap string Q))
    (epochs : list nat) :
  match mapM (λ epoch,
                match epoch_data !! epoch with
                | Some error => Ok (epoch, error)
                | None => Raise KeyError
                end) epochs with
  | Ok errors =>
      (∀ e, e ∈ epochs → is_Some (epoch_data !! e))
      ∧ errors = (λ e, (e, default ∅ (epoch_data !! e))) <$> epochs
  | Raise exc => exc = KeyError ∧ ∃ e, e ∈ epochs ∧ epoch_data !! e = None
  end.
Proof.
  induction epochs as [|e epochs IH]; simpl.
  { split; [by intros e ?%elem_of_nil | done]. }
  destruct (epoch_data !! e) as [error|] eqn:He; simpl.
  - destruct (mapM _ epochs) as [errors | exc]; simpl.
    + destruct IH as [IH1 ->]. split; [| done].
      intros e' [-> | He']%elem_of_cons; [by eexists | by apply IH1].
    + destruct IH as [-> (e' & He' & Hnone)]. split; [done |].
      exists e'. split; [by right | done].
  - split; [done |]. exists e. split; [by left | done].
Qed.

Lemma keep_epochs_of_Ok opts epochs epoch_data keep :
  Engine.keep_epochs_of opts epochs epoch_data = Ok keep →
  let errors := (λ e, (e, default ∅ (epoch_data !! e))) <$> epochs in
  let score_values key := omap (λ ee : nat * gmap string Q, ee.2 !! key) errors in
  ∃ keys,
    (∀ e, e ∈ epochs → is_Some (epoch_data !! e))
    ∧ Engine.discriminating_keys score_values
        (sorted String.leb
           (elements (map_fold (λ (_ : nat) (data : gmap string Q)
                                  (keys : gset string), keys ∪ dom data)
                               ∅ epoch_data)))
      = Ok keys
    ∧ keep
      = foldl (λ keep key,
                 keep ∪ list_to_set
                          (Engine.best_epochs errors score_values
                             (Z.to_nat (default 4 (Engine.keep_best_n opts))) key))
              (default (Engine.default_keep_pattern (List.last epochs 0%nat))
                       (Engine.keep opts)
               ∪ list_to_set (Engine.last_n (Z.to_nat (default 2 (Engine.keep_last_n opts)))
                                     epochs))
              keys
        ∩ list_to_set epochs.
Proof.
  unfold Engine.keep_epochs_of. cbv zeta.
  destruct (assert _); simpl; [| done].
  pose proof (mapM_epoch_errors_inv epoch_data epochs) as Hinv.
  destruct (mapM _ epochs) as [errors | exc]; simpl; [| done].
  destruct Hinv as [Hall ->].
  destruct (Engine.discriminating_keys _ _) as [keys|] eqn:Hk; simpl; [| done].
  intros [= <-]. exists keys. done.
Qed.

(** The epochs of the keep set are stored, and the last [keep_last_n]
    stored epochs and the stored epochs of the keep pattern are in it. *)
Lemma keep_epochs_of_base opts epochs epoch_data keep :
  Engine.keep_epochs_of opts epochs epoch_data = Ok keep →
  (∀ e, e ∈ keep → e ∈ epochs)
  ∧ (∀ e, e ∈ epochs →
       e ∈ default (Engine.default_keep_pattern (List.last epochs 0%nat))
                   (Engine.keep opts)
       ∨ e ∈ Engine.last_n (Z.to_nat (default 2 (Engine.keep_last_n opts))) epochs →
       e ∈ keep).
Proof.
  intros Hkeep. apply keep_epochs_of_Ok in Hkeep as (keys & _ & _ & ->).
  match goal with
  | |- context [foldl (λ keep key, keep ∪ list_to_set (@?g key)) ?X keys] =>
      destruct (foldl_union_subseteq (λ key, list_to_set (g key)) keys X)
        as [Hbase _]
  end.
  split.
  - intros e [_ He]%elem_of_intersection. by apply elem_of_list_to_set in He.
  - intros e He Hin. apply elem_of_intersection. split.
    + apply Hbase. apply elem_of_union. destruct Hin as [Hin | Hin]; [by left |].
      right. by apply elem_of_list_to_set.
    + by apply elem_of_list_to_set.
Qed.

Lemma last_n_subseteq {A} (n : nat) (l : list A) : Engine.last_n n l ⊆ l.
Proof. apply subseteq_drop. Qed.

Lemma last_in_last_n (n : nat) (l : list nat) :
  (1 ≤ n)%nat → l ≠ [] → List.last l 0%nat ∈ Engine.last_n n l.
Proof.
  intros Hn Hl. destruct l as [|a l] using rev_ind; [done |].
  rewrite last_last. unfold Engine.last_n.
  rewrite drop_app_le by (rewrite length_app; simpl; lia).
  apply elem_of_app. right. by left.
Qed.

Lemma Sorted_le_last (l : list nat) (e : nat) :
  Sorted le l → e ∈ l → (e ≤ List.last l 0)%nat.
Proof.
  revert e. induction l as [|a l IH]; intros e Hsorted He.
  { by apply elem_of_nil in He. }
  apply Sorted_inv in Hsorted as [Hsorted Hhd].
  destruct l as [|b l].
  - apply list_elem_of_singleton in He. simpl. lia.
  - change (List.last (a :: b :: l) 0%nat) with (List.last (b :: l) 0%nat).
    apply elem_of_cons in He as [-> | He].
    + apply HdRel_inv in Hhd. etrans; [exact Hhd |].
      apply IH; [done | by left].
    + by apply IH.
Qed.

Lemma elem_of_epochs (existing_models : gmap nat string) (e : nat) :
  e ∈ sorted Nat.leb (map_to_list existing_models).*1
  ↔ is_Some (existing_models !! e).
Proof.
  rewrite elem_of_sorted, list_elem_of_fmap. split.
  - intros ([e' x] & -> & Hin). apply elem_of_map_to_list in Hin. by eexists.
  - intros [x Hx]. exists (e, x). split; [done |]. by apply elem_of_map_to_list.
Qed.

Lemma NoDup_epochs (existing_models : gmap nat string) :
  NoDup (sorted Nat.leb (map_to_list existing_models).*1).
Proof. rewrite sorted_Permutation. apply NoDup_fst_map_to_list. Qed.

(** What a report of epochs to keep and to remove tells about the
    call. *)
Lemma cleanup_report_inv self opts existing_models epoch_data
    ask_for_confirmation confirmed fs kept removed :
  (Engine.cleanup_old_models self opts existing_models epoch_data
                             ask_for_confirmation confirmed fs).1
  = Ok (Engine.DryRun kept removed)
  ∨ (∃ count_bytes,
       (Engine.cleanup_old_models self opts existing_models epoch_data
                                  ask_for_confirmation confirmed fs).1
       = Ok (Engine.Deleted kept removed count_bytes)) →
  ∃ keep,
    1 ≤ default 2 (Engine.keep_last_n opts)
    ∧ 0 ≤ default 4 (Engine.keep_best_n opts)
    ∧ Z.max (default 2 (Engine.keep_last_n opts))
            (default 4 (Engine.keep_best_n opts))
      < Z.of_nat (length (sorted Nat.leb (map_to_list existing_models).*1))
    ∧ Engine.keep_epochs_of opts (sorted Nat.leb (map_to_list existing_models).*1)
                            epoch_data
      = Ok keep
    ∧ kept = sorted Nat.leb (elements keep)
    ∧ removed
      = sorted Nat.leb
          (elements (list_to_set (sorted Nat.leb (map_to_list existing_models).*1)
                     ∖ keep : gset nat))
    ∧ removed ≠ [].
Proof.
  unfold Engine.cleanup_old_models.
  destruct (Engine._do_save self); simpl; [| by intros [? | [? ?]]].
  case_bool_decide as Hnone; simpl; [by intros [? | [? ?]] |].
  destruct (1 <=? default 2 (Engine.keep_last_n opts)) eqn:Hlast; simpl;
    [| by intros [? | [? ?]]].
  destruct (0 <=? default 4 (Engine.keep_best_n opts)) eqn:Hbest; simpl;
    [| by intros [? | [? ?]]].
  destruct (Z.of_nat _ <=? Z.max _ _) eqn:Hfew; simpl; [by intros [? | [? ?]] |].
  destruct (Engine.keep_epochs_of _ _ _) as [keep | exc]; simpl;
    [| by intros [? | [? ?]]].
  destruct (Nat.eqb _ _); simpl; [by intros [? | [? ?]] |].
  case_bool_decide as Hremove; simpl; [by intros [? | [? ?]] |].
  assert (Hfacts : 1 ≤ default 2 (Engine.keep_last_n opts)
                   ∧ 0 ≤ default 4 (Engine.keep_best_n opts)
                   ∧ Z.max (default 2 (Engine.keep_last_n opts))
                           (default 4 (Engine.keep_best_n opts))
                     < Z.of_nat (length (sorted Nat.leb
                                           (map_to_list existing_models).*1))).
  { apply Z.leb_le in Hlast, Hbest. apply Z.leb_gt in Hfew. done. }
  destruct Hfacts as (H1 & H0 & Hmany).
  destruct (dry_run (Engine.config self)); simpl.
  { intros [[= <- <-] | [n [=]]]. by exists keep. }
  destruct (ask_for_confirmation && negb confirmed); simpl;
    [by intros [? | [? ?]] |].
  destruct (Engine.delete_models _ _ _) as [[n | exc] fs']; simpl;
    [| by intros [? | [? ?]]].
  intros [[=] | [n' [= <- <- <-]]]. by exists keep.
Qed.

(** When the cleanup reports the epochs it keeps and those it removes,
    whether it has deleted them or not: every stored epoch is in exactly
    one of the two lists and no other epoch is in them, there is an epoch
    to remove, and both lists are in ascending order. *)
Theorem cleanup_report_partition self opts existing_models epoch_data
    ask_for_confirmation confirmed fs kept removed :
  (Engine.cleanup_old_models self opts existing_models epoch_data
                             ask_for_confirmation confirmed fs).1
  = Ok (Engine.DryRun kept removed)
  ∨ (∃ count_bytes,
       (Engine.cleanup_old_models self opts existing_models epoch_data
                                  ask_for_confirmation confirmed fs).1
       = Ok (Engine.Deleted kept removed count_bytes)) →
  (∀ e, e ∈ kept ∨ e ∈ removed ↔ is_Some (existing_models !! e))
  ∧ (∀ e, e ∈ kept → e ∉ removed)
  ∧ removed ≠ []
  ∧ Sorted le kept ∧ Sorted le removed.
Proof.
  intros (keep & _ & _ & _ & Hkeep & -> & -> & Hremove)%cleanup_report_inv.
  destruct (keep_epochs_of_base _ _ _ _ Hkeep) as [Hstored _].
  split; [| split; [| split; [done | split; apply sorted_nat_Sorted]]].
  - intros e. rewrite !elem_of_sorted, !elem_of_elements, elem_of_difference,
      elem_of_list_to_set, <- elem_of_epochs.
    split; [intros [He | [He _]]; auto |].
    intros He. destruct (decide (e ∈ keep)); auto.
  - intros e. rewrite !elem_of_sorted, !elem_of_elements, elem_of_difference.
    tauto.
Qed.


(** *** What the cleanup deletes *)

Lemma delete_models_frame filenames count_bytes fs p :
  (Engine.delete_models filenames count_bytes fs).2 !! p ≠ fs !! p →
  (Engine.delete_models filenames count_bytes fs).2 !! p = None
  ∧ ∃ filename, filename ∈ filenames ∧ startswith filename p = true
                ∧ Engine.is_model_file p = true.
Proof.
  revert count_bytes fs.
  induction filenames as [|filename rest IH]; intros count_bytes fs; simpl; [done |].
  pose proof (DeleteFacts.delete_model_lookup filename fs p) as Hlookup.
  assert (Hfirst : (Engine.delete_model filename fs).2 !! p ≠ fs !! p →
                   (Engine.delete_model filename fs).2 !! p = None
                   ∧ startswith filename p = true
                   ∧ Engine.is_model_file p = true).
  { rewrite Hlookup.
    destruct (bool_decide _); simpl; [| done].
    destruct (glob_match filename p) eqn:Hglob; simpl; [| done].
    destruct (Engine.is_model_file p); [| done].
    intros _. split; [done |]. split; [| done].
    by apply DeleteFacts.glob_match_startswith. }
  clear Hlookup.
  destruct (Engine.delete_model filename fs) as [[n | exc] fs']; simpl in *.
  - intros Hne.
    destruct (decide ((Engine.delete_models rest (count_bytes + n) fs').2 !! p
                      = fs' !! p)) as [Heq | Hneq].
    + rewrite Heq in *. destruct (Hfirst Hne) as (Hnone & Hstarts & Hfile).
      split; [done |]. exists filename. split; [by left | done].
    + destruct (IH _ _ Hneq) as (Hnone & filename' & Hin & Hrest).
      split; [done |]. exists filename'. split; [by right | done].
  - intros Hne. destruct (Hfirst Hne) as (Hnone & Hstarts & Hfile).
    split; [done |]. exists filename. split; [by left | done].
Qed.


(** *** The best epochs *)

Lemma best_epochs_first (epoch_data : gmap nat (gmap string Q))
    (epochs : list nat) (key : string) (score : nat → Q) (n best : nat) :
  (1 ≤ n)%nat →
  (∀ e, e ∈ epochs →
        ∃ data, epoch_data !! e = Some data ∧ data !! key = Some (score e)) →
  best ∈ epochs →
  (∀ e, e ∈ epochs → e ≠ best → (score best < score e)%Q) →
  best ∈ Engine.best_epochs
           ((λ e, (e, default ∅ (epoch_data !! e))) <$> epochs)
           (λ key, omap (λ ee : nat * gmap string Q, ee.2 !! key)
                        ((λ e, (e, default ∅ (epoch_data !! e))) <$> epochs))
           n key.
Proof.
  intros Hn Hdata Hbest Hstrict. unfold Engine.best_epochs.
  rewrite omap_fmap_compose. rewrite (omap_Some_fmap _ score).
  2:{ intros e He. destruct (Hdata e He) as (data & -> & Hscore). done. }
  destruct (score <$> epochs) as [|s rest] eqn:Hscores.
  { apply fmap_nil_inv in Hscores. rewrite Hscores in Hbest.
    by apply elem_of_nil in Hbest. }
  cbv zeta. rewrite <- list_fmap_compose.
  rewrite (fmap_ext_elem _ (λ e, (score e, e)) epochs).
  2:{ intros e He. destruct (Hdata e He) as (data & Hd & Hscore).
      unfold compose. cbn [fst snd]. rewrite Hd. simpl.
      by rewrite Hscore. }
  destruct (sorted_least_first score_epoch_leb (score best, best)
              ((λ e, (score e, e)) <$> epochs)) as [others ->].
  - apply list_elem_of_fmap. by exists best.
  - intros y (e & -> & He)%list_elem_of_fmap. unfold score_epoch_leb. simpl.
    destruct (decide (e = best)) as [-> | Hne].
    + rewrite (proj1 (Qeq_alt _ _) (Qeq_refl _)). by apply Nat.leb_le.
    + by rewrite (proj1 (Qlt_alt _ _) (Hstrict e He Hne)).
  - intros y (e & -> & He)%list_elem_of_fmap Hy.
    assert (Hne : e ≠ best) by congruence.
    unfold score_epoch_leb. simpl.
    by rewrite (proj1 (Qgt_alt _ _) (Hstrict e He Hne)).
  - destruct n as [|n]; [lia |]. simpl. by left.
Qed.

(** With [keep_best_n] of at least one, a stored epoch whose value of a
    score key is below that of every other stored epoch is kept, when
    every stored epoch has a value of that key and there is another
    stored epoch. *)
Theorem best_epoch_kept opts epochs epoch_data keep key (score : nat → Q)
    (best other : nat) :
  Engine.keep_epochs_of opts epochs epoch_data = Ok keep →
  1 ≤ default 4 (Engine.keep_best_n opts) →
  (∀ e, e ∈ epochs →
        ∃ data, epoch_data !! e = Some data ∧ data !! key = Some (score e)) →
  best ∈ epochs → other ∈ epochs → other ≠ best →
  (∀ e, e ∈ epochs → e ≠ best → (score best < score e)%Q) →
  best ∈ keep.
Proof.
  intros Hkeep Hn Hdata Hbest Hother Hne Hstrict.
  apply keep_epochs_of_Ok in Hkeep as (keys & _ & Hkeys & ->).
  assert (Hkey : key ∈ keys).
  { eapply discriminating_keys_elem; [exact Hkeys | |].
    - apply elem_of_sorted, elem_of_elements, elem_of_score_keys.
      destruct (Hdata best Hbest) as (data & Hd & Hscore).
      exists best, data. split; [done | by eexists].
    - cbv beta. rewrite omap_fmap_compose. rewrite (omap_Some_fmap _ score).
      2:{ intros e He. destruct (Hdata e He) as (data & -> & Hscore). done. }
      intros s rest Hscores.
      apply (Q_min_max_differ s rest (score best) (score other)).
      + rewrite <- Hscores. by apply list_elem_of_fmap_2.
      + rewrite <- Hscores. by apply list_elem_of_fmap_2.
      + by apply Hstrict. }
  apply elem_of_intersection. split; [| by apply elem_of_list_to_set].
  match goal with
  | |- context [foldl (λ keep key, keep ∪ list_to_set (@?g key)) ?X keys] =>
      destruct (foldl_union_subseteq (λ key, list_to_set (g key)) keys X)
        as [_ Hstep]
  end.
  apply (Hstep key Hkey), elem_of_list_to_set.
  apply (best_epochs_first epoch_data epochs key score); [lia | done..].
Qed.

(** *** When the keep set cannot be computed *)

Lemma omap_not_nil {A B} (f : A → option B) (l : list A) :
  omap f l ≠ [] → ∃ x, x ∈ l ∧ is_Some (f x).
Proof.
  induction l as [|a l IH]; simpl; [done |].
  destruct (f a) eqn:Hfa.
  - intros _. exists a. split; [by left | by rewrite Hfa].
  - intros (x & Hx & Hsome)%IH. exists x. split; [by right | done].
Qed.

Lemma stored_score_values (epoch_data : gmap nat (gmap string Q))
    (epochs : list nat) (key : string) :
  omap (λ ee : nat * gmap string Q, ee.2 !! key)
       ((λ e, (e, default ∅ (epoch_data !! e))) <$> epochs) ≠ []
  ↔ ∃ e data, e ∈ epochs ∧ epoch_data !! e = Some data ∧ is_Some (data !! key).
Proof.
  rewrite omap_fmap_compose. split.
  - intros (e & He & Hsome)%omap_not_nil. simpl in Hsome.
    destruct (epoch_data !! e) as [data|] eqn:Hd.
    + exists e, data. done.
    + simpl in Hsome. rewrite lookup_empty in Hsome. by destruct Hsome.
  - intros (e & data & He & Hd & Hsome) Hnil.
    pose proof (proj1 (omap_nil_iff _ _) Hnil e He) as Hnone. simpl in Hnone.
    rewrite Hd in Hnone. simpl in Hnone. rewrite Hnone in Hsome.
    by destruct Hsome.
Qed.

(** The keep set is computed exactly when the learning rate control has
    recorded a score key, has a record of every stored epoch, and every
    score key it has recorded has a value in a stored epoch.  Without any
    score key the assertion fails; with a stored epoch that has no record
    the lookup raises [KeyError]; with a score key that only epochs
    without a stored model have, [min] of the empty list raises
    [ValueError]. *)
Theorem keep_epochs_of_result opts epochs epoch_data :
  let has_key key :=
    ∃ e data, epoch_data !! e = Some data ∧ is_Some (data !! key) in
  let stored_key key :=
    ∃ e data, e ∈ epochs ∧ epoch_data !! e = Some data ∧ is_Some (data !! key) in
  ((∀ key, ¬ has_key key) →
   Engine.keep_epochs_of opts epochs epoch_data = Raise AssertionError)
  ∧ (∀ key e, has_key key → e ∈ epochs → epoch_data !! e = None →
       Engine.keep_epochs_of opts epochs epoch_data = Raise KeyError)
  ∧ (∀ key, has_key key → (∀ e, e ∈ epochs → is_Some (epoch_data !! e)) →
       ¬ stored_key key →
       Engine.keep_epochs_of opts epochs epoch_data = Raise ValueError)
  ∧ (is_ok (Engine.keep_epochs_of opts epochs epoch_data) = true
     ↔ (∃ key, has_key key)
       ∧ (∀ e, e ∈ epochs → is_Some (epoch_data !! e))
       ∧ (∀ key, has_key key → stored_key key)).
Proof.
  intros has_key stored_key.
  set (score_keys := map_fold (λ (_ : nat) (data : gmap string Q)
                                 (keys : gset string), keys ∪ dom data)
                              ∅ epoch_data).
  assert (Hkeys : ∀ key, key ∈ score_keys ↔ has_key key).
  { intros key. apply elem_of_score_keys. }
  assert (Hnonempty : ∀ key, has_key key → score_keys ≠ ∅).
  { intros key Hkey%Hkeys Hempty. rewrite Hempty in Hkey.
    by apply elem_of_empty in Hkey. }
  assert (Hassert : (∀ key, ¬ has_key key) →
            Engine.keep_epochs_of opts epochs epoch_data = Raise AssertionError).
  { intros Hnone. unfold Engine.keep_epochs_of. cbv zeta. fold score_keys.
    rewrite bool_decide_eq_true_2; [done |].
    apply elem_of_equiv_empty_L. intros key Hkey%Hkeys. by apply (Hnone key). }
  assert (Hsorted : ∀ key, has_key key →
            key ∈ sorted String.leb (elements score_keys)).
  { intros key Hkey. by apply elem_of_sorted, elem_of_elements, Hkeys. }
  split; [exact Hassert |]. split; [| split].
  - intros key e Hkey He Hnone. unfold Engine.keep_epochs_of. cbv zeta.
    fold score_keys. rewrite (bool_decide_eq_false_2 _ (Hnonempty key Hkey)).
    simpl. pose proof (mapM_epoch_errors_inv epoch_data epochs) as Hinv.
    destruct (mapM _ epochs) as [errors | exc]; simpl.
    + destruct Hinv as [Hall _]. destruct (Hall e He) as [data Hdata]. congruence.
    + by destruct Hinv as [-> _].
  - intros key Hkey Hall Hstale. unfold Engine.keep_epochs_of. cbv zeta.
    fold score_keys. rewrite (bool_decide_eq_false_2 _ (Hnonempty key Hkey)).
    simpl. pose proof (mapM_epoch_errors_inv epoch_data epochs) as Hinv.
    destruct (mapM _ epochs) as [errors | exc]; simpl.
    + destruct Hinv as [_ ->].
      rewrite (discriminating_keys_Raise _ _ key); [done | by apply Hsorted |].
      match goal with |- ?values = [] => destruct values eqn:Hvalues end;
        [done |].
      destruct Hstale. apply stored_score_values. by rewrite Hvalues.
    + destruct Hinv as [_ (e & He & Hnone)].
      destruct (Hall e He) as [data Hdata]. congruence.
  - split.
    + intros Hok.
      assert (∃ keep, Engine.keep_epochs_of opts epochs epoch_data = Ok keep)
        as [keep Hkeep].
      { destruct (Engine.keep_epochs_of opts epochs epoch_data); [eauto | done]. }
      split; [| split].
      * destruct (set_choose_or_empty score_keys) as [[key Hkey] | Hempty].
        { exists key. by apply Hkeys. }
        rewrite Hassert in Hkeep; [done |].
        intros key Hkey%Hkeys. apply leibniz_equiv in Hempty.
        rewrite Hempty in Hkey. by apply elem_of_empty in Hkey.
      * by apply keep_epochs_of_Ok in Hkeep as (keys & Hall & _).
      * intros key Hkey. apply keep_epochs_of_Ok in Hkeep as (keys & _ & Hd & _).
        apply stored_score_values. intros Hnil.
        erewrite discriminating_keys_Raise in Hd; [done | by apply Hsorted |].
        exact Hnil.
    + intros ([key Hkey] & Hall & Hstored). unfold Engine.keep_epochs_of. cbv zeta.
      fold score_keys. rewrite (bool_decide_eq_false_2 _ (Hnonempty key Hkey)).
      simpl. pose proof (mapM_epoch_errors_inv epoch_data epochs) as Hinv.
      destruct (mapM _ epochs) as [errors | exc]; simpl.
      * destruct Hinv as [_ ->].
        match goal with
        | |- context [Engine.discriminating_keys ?sv ?keys] =>
            pose proof (discriminating_keys_is_ok sv keys) as Hd;
            destruct (Engine.discriminating_keys sv keys); simpl; [done |]
        end.
        apply Hd. intros key' Hkey'.
        apply elem_of_sorted, elem_of_elements, Hkeys in Hkey'.
        by apply stored_score_values, Hstored.
      * destruct Hinv as [_ (e & He & Hnone)].
        destruct (Hall e He) as [data Hdata]. congruence.
Qed.

End CleanupMoreFacts.

Lemma cleanup_report_partition_witness :
  (∀ e, e ∈ [5; 10; 11; 12]%nat ∨ e ∈ [1; 2; 3; 4; 6; 7; 8; 9]%nat
        ↔ is_Some (Examples.twelve_models !! e))
  ∧ (∀ e, e ∈ [5; 10; 11; 12]%nat → e ∉ [1; 2; 3; 4; 6; 7; 8; 9]%nat)
  ∧ [1; 2; 3; 4; 6; 7; 8; 9]%nat ≠ []
  ∧ Sorted le [5; 10; 11; 12]%nat ∧ Sorted le [1; 2; 3; 4; 6; 7; 8; 9]%nat.
Proof.
  apply (CleanupMoreFacts.cleanup_report_partition
           CleanupExamples.deleting_engine Examples.keep_2_1
           Examples.twelve_models Examples.twelve_scores false false
           CleanupExamples.twelve_files).
  right. exists 24%N. vm_compute. reflexivity.
Defined.



Lemma best_epoch_kept_witness :
  12%nat ∈ (list_to_set [5; 10; 11; 12]%nat : gset nat).
Proof.
  apply (CleanupMoreFacts.best_epoch_kept
           Examples.keep_2_1 (seq 1 12) Examples.twelve_scores
           (list_to_set [5; 10; 11; 12]%nat) "dev_score"
           Examples.falling_score 12%nat 1%nat).
  - vm_compute. reflexivity.
  - vm_compute. discriminate.
  - intros e [Hlo Hhi]%elem_of_seq.
    exists {["dev_score" := Examples.falling_score e]}.
    split; [| apply lookup_singleton_eq].
    do 13 (destruct e as [|e]; [first [lia | reflexivity] |]). lia.
  - apply elem_of_seq. lia.
  - apply elem_of_seq. lia.
  - lia.
  - intros e [Hlo Hhi]%elem_of_seq Hne.
    unfold Examples.falling_score, Qlt. simpl. lia.
Defined.

Lemma keep_epochs_of_result_witness :
  Engine.keep_epochs_of Examples.keep_2_1 (seq 1 12)
                        CleanupExamples.scores_with_stale_key
  = Raise ValueError.
Proof.
  apply (proj1 (proj2 (proj2 (CleanupMoreFacts.keep_epochs_of_result
                                Examples.keep_2_1 (seq 1 12)
                                CleanupExamples.scores_with_stale_key)))
           "eval_score").
  - exists 13%nat, {["eval_score" := 1 # 1]}. split; [reflexivity |].
    eexists. apply lookup_singleton_eq.
  - intros e [Hlo Hhi]%elem_of_seq.
    do 13 (destruct e as [|e]; [first [lia | by eexists] |]). lia.
  - intros (e & data & [Hlo Hhi]%elem_of_seq & Hdata & [q Hq]).
    unfold CleanupExamples.scores_with_stale_key in Hdata.
    rewrite lookup_insert_ne in Hdata by lia.
    apply elem_of_list_to_map_2, list_elem_of_fmap in Hdata as (e' & [= -> ->] & _).
    rewrite lookup_singleton_ne in Hq; [discriminate Hq | discriminate].
Defined.
